(** * mycigars: post editing and revisioning

    A shallow embedding of the post store operations of
    [src/lib/firebase/admin.ts], of the public slug resolution of
    [src/app/posts/[slug]/page.tsx] and of the save coordinator of the
    [PostEditor] component, with the properties of the specification that
    concern them.

    Firestore collections are finite maps from document ids to documents.
    A server timestamp ([FieldValue.serverTimestamp()]) and the id that
    [add()] generates are inputs of the operation that uses them. *)

From Stdlib Require Import ZArith Ascii String List Lia Bool.
From stdpp Require Import base option list gmap strings sorting.

Local Open Scope string_scope.
Local Open Scope Z_scope.

(** ** Strings as JavaScript sees them

    Strings are sequences of characters of the ASCII range; on these, lower
    casing, trimming and the character class [[a-z0-9]] are as defined
    here. *)

Module JS.

(** A string is truthy when it is not empty. *)
Definition truthy (s : string) : bool :=
  match s with EmptyString => false | String _ _ => true end.

(** [a || b] on strings. *)
Definition orElse (a b : string) : string := if truthy a then a else b.

Definition code (c : ascii) : N := N_of_ascii c.

Definition isUpper (c : ascii) : bool :=
  ((65 <=? code c) && (code c <=? 90))%N.

Definition isLower (c : ascii) : bool :=
  ((97 <=? code c) && (code c <=? 122))%N.

Definition isDigit (c : ascii) : bool :=
  ((48 <=? code c) && (code c <=? 57))%N.

(** Characters of the class [[a-z0-9]]. *)
Definition isSlugChar (c : ascii) : bool := isLower c || isDigit c.

(** White space removed by [String.prototype.trim] (ASCII range). *)
Definition isSpace (c : ascii) : bool :=
  ((code c =? 9) || (code c =? 10) || (code c =? 11) || (code c =? 12)
   || (code c =? 13) || (code c =? 32))%N.

Definition toLowerChar (c : ascii) : ascii :=
  if isUpper c then ascii_of_N (code c + 32) else c.

Definition toLowerCase (l : list ascii) : list ascii := map toLowerChar l.

Fixpoint dropSpaces (l : list ascii) : list ascii :=
  match l with
  | [] => []
  | c :: r => if isSpace c then dropSpaces r else l
  end.

Definition trim (l : list ascii) : list ascii :=
  rev (dropSpaces (rev (dropSpaces l))).

(** [.replace(/[^a-z0-9]+/g, '-')]: every maximal run of characters
    outside the class becomes one hyphen.  [inRun] tells that the
    previous character already belonged to the run being replaced. *)
Fixpoint collapseRuns (inRun : bool) (l : list ascii) : list ascii :=
  match l with
  | [] => []
  | c :: r =>
      if isSlugChar c then c :: collapseRuns false r
      else if inRun then collapseRuns true r
      else "-"%char :: collapseRuns true r
  end.

Definition isHyphen (c : ascii) : bool := (code c =? 45)%N.

Definition dropLeadingHyphen (l : list ascii) : list ascii :=
  match l with
  | c :: r => if isHyphen c then r else l
  | [] => []
  end.

(** [.replace(/^-|-$/g, '')]: one hyphen at the start and one at the end
    are removed. *)
Definition stripHyphens (l : list ascii) : list ascii :=
  rev (dropLeadingHyphen (rev (dropLeadingHyphen l))).

(** The four steps of [normalizeSlug], on the characters of the slug. *)
Definition normalizeChars (l : list ascii) : list ascii :=
  stripHyphens (collapseRuns false (trim (toLowerCase l))).

(** The shape of a normalized slug: words of [[a-z0-9]] characters
    separated by single hyphens. *)
Inductive slugForm : list ascii -> Prop :=
| slugForm_last c : isSlugChar c = true -> slugForm [c]
| slugForm_char c l : isSlugChar c = true -> slugForm l -> slugForm (c :: l)
| slugForm_sep c l :
    isSlugChar c = true -> slugForm l -> slugForm (c :: "-"%char :: l).

(** What [collapseRuns] produces once a run is open: nothing, or a slug
    form with at most one hyphen after it. *)
Definition trailing (m : list ascii) : Prop :=
  m = [] \/ exists core,
    slugForm core /\ (m = core \/ m = (core ++ ["-"%char])%list).

End JS.

(** ** The post store ([src/lib/firebase/admin.ts]) *)

Module Admin.

Inductive Status := draft | published.

Definition Status_eqb (a b : Status) : bool :=
  match a, b with
  | draft, draft | published, published => true
  | _, _ => false
  end.

(** [normalizeSlug]: lower case, trim, collapse, strip. *)
Definition normalizeSlug (slug : string) : string :=
  string_of_list_ascii (JS.normalizeChars (list_ascii_of_string slug)).

(** The [preview] field of a post document. *)
Record PostPreview := mkPreview {
  token : option string;
  enabled : bool;
  previewCreatedAt : Z
}.

(** A document of the [posts] collection.  [publishedAt] is [None] for
    [null]; a stored timestamp is an object and therefore truthy. *)
Record PostDoc := mkPost {
  title : string;
  slug : string;
  oldSlugs : list string;
  excerpt : string;
  content : string;
  status : Status;
  publishedAt : option Z;
  createdAt : Z;
  updatedAt : Z;
  preview : option PostPreview
}.

(** A document of a [versions] subcollection. *)
Record VersionDoc := mkVersion {
  v_title : string;
  v_slug : string;
  v_excerpt : string;
  v_content : string;
  v_status : Status;
  v_createdAt : Z;
  v_note : option string
}.

(** The database: the [posts] collection and, for each post id, its
    [versions] subcollection. *)
Record Store := mkStore {
  posts : gmap string PostDoc;
  versions : gmap string (gmap string VersionDoc)
}.

Definition versionsOf (postId : string) (s : Store) : gmap string VersionDoc :=
  default ∅ (versions s !! postId).

Definition setPosts (p : gmap string PostDoc) (s : Store) : Store :=
  mkStore p (versions s).

Definition setVersionsOf (postId : string) (vs : gmap string VersionDoc)
    (s : Store) : Store :=
  mkStore (posts s) (<[postId := vs]> (versions s)).

(** What the functions return: [{ success: true, ... }] with its payload,
    or [{ success: false, error }]. *)
Inductive Result (A : Type) :=
| Success (payload : A)
| Failure (error : string).
Arguments Success {A} payload.
Arguments Failure {A} error.

(** A query over [posts] with [where] filters; [.limit(1)] keeps the
    first document.  The documents come in the order in which the map
    lists them; no statement below depends on which of several matching
    documents comes first. *)
Definition queryPosts (f : string -> PostDoc -> bool) (s : Store)
    : list (string * PostDoc) :=
  List.filter (fun kv => f (fst kv) (snd kv)) (map_to_list (posts s)).

Definition limit1 {A} (l : list A) : option A := head l.

Definition getPostById (id : string) (s : Store) : option PostDoc :=
  posts s !! id.

(** [getPostBySlug]: published posts only. *)
Definition getPostBySlug (slug0 : string) (s : Store)
    : option (string * PostDoc) :=
  let normalizedSlug := normalizeSlug slug0 in
  limit1 (queryPosts (fun _ d =>
    String.eqb (slug d) normalizedSlug && Status_eqb (status d) published) s).

(** [getPostByOldSlug]: [oldSlugs array-contains], published only. *)
Definition getPostByOldSlug (oldSlug : string) (s : Store)
    : option (string * PostDoc) :=
  let normalizedSlug := normalizeSlug oldSlug in
  limit1 (queryPosts (fun _ d =>
    bool_decide (normalizedSlug ∈ oldSlugs d)
    && Status_eqb (status d) published) s).

(** [isSlugAvailable(slug, excludePostId?)]. *)
Definition isSlugAvailable (slug0 : string) (excludePostId : option string)
    (s : Store) : bool :=
  let normalizedSlug := normalizeSlug slug0 in
  match limit1 (queryPosts (fun _ d => String.eqb (slug d) normalizedSlug) s) with
  | None => true
  | Some (foundId, _) =>
      match excludePostId with
      | Some ex => JS.truthy ex && String.eqb foundId ex
      | None => false
      end
  end.

(** The argument of [createPost]. *)
Record NewPost := mkNewPost {
  n_title : string;
  n_slug : string;
  n_excerpt : string;
  n_content : string;
  n_status : Status
}.

(** [createPost(data)].  [now] is the server timestamp and [newId] the id
    that [add()] generates; [add()] creates the document and throws when
    the id is taken, which the [catch] turns into a failure. *)
Definition createPost (data : NewPost) (now : Z) (newId : string) (s : Store)
    : Store * Result string :=
  let normalizedSlug := normalizeSlug (n_slug data) in
  if negb (isSlugAvailable normalizedSlug None s) then
    (s, Failure "A post with this slug already exists")
  else
    let postData :=
      mkPost (n_title data) normalizedSlug [] (n_excerpt data)
             (n_content data) (n_status data)
             (if Status_eqb (n_status data) published then Some now else None)
             now now None in
    match posts s !! newId with
    | Some _ => (s, Failure "Failed to create post")
    | None => (setPosts (<[newId := postData]> (posts s)) s, Success newId)
    end.

(** The argument of [updatePost]: every field is optional. *)
Record PostPatch := mkPatch {
  p_title : option string;
  p_slug : option string;
  p_excerpt : option string;
  p_content : option string;
  p_status : option Status
}.

Definition isSome {A} (o : option A) : bool :=
  match o with Some _ => true | None => false end.

(** [updatePost(id, data)]. *)
Definition updatePost (id : string) (data : PostPatch) (now : Z) (s : Store)
    : Store * Result unit :=
  match posts s !! id with
  | None => (s, Failure "Post not found")
  | Some currentData =>
      let currentSlug := slug currentData in
      let currentOldSlugs := oldSlugs currentData in
      let normalizedNewSlug :=
        match p_slug data with
        | Some sl => if JS.truthy sl then Some (normalizeSlug sl) else None
        | None => None
        end in
      let isSlugChanging :=
        match normalizedNewSlug with
        | Some n => JS.truthy n && negb (String.eqb n currentSlug)
        | None => false
        end in
      if isSlugChanging
         && negb (isSlugAvailable (default "" normalizedNewSlug) (Some id) s)
      then (s, Failure "A post with this slug already exists")
      else
        let publishedAt' :=
          if match p_status data with Some published => true | _ => false end
             && negb (Status_eqb (status currentData) published)
          then Some now
          else if match p_status data with Some draft => true | _ => false end
          then None
          else publishedAt currentData in
        let updated :=
          mkPost
            (default (title currentData) (p_title data))
            (if isSlugChanging then default "" normalizedNewSlug
             else slug currentData)
            (if isSlugChanging
                && JS.truthy currentSlug
                && negb (bool_decide (currentSlug ∈ currentOldSlugs))
             then currentOldSlugs ++ [currentSlug]
             else oldSlugs currentData)
            (default (excerpt currentData) (p_excerpt data))
            (default (content currentData) (p_content data))
            (default (status currentData) (p_status data))
            publishedAt'
            (createdAt currentData)
            now
            (preview currentData) in
        (setPosts (<[id := updated]> (posts s)) s, Success tt)
  end.

(** Replace the fields that an [update] call writes, on an existing
    document. *)
Definition withStatus (st : Status) (pa : option Z) (now : Z) (d : PostDoc)
    : PostDoc :=
  mkPost (title d) (slug d) (oldSlugs d) (excerpt d) (content d) st pa
         (createdAt d) now (preview d).

(** [togglePostStatus(id)]. *)
Definition togglePostStatus (id : string) (now : Z) (s : Store)
    : Store * Result unit :=
  match posts s !! id with
  | None => (s, Failure "Post not found")
  | Some data =>
      let newStatus :=
        if Status_eqb (status data) published then draft else published in
      let pa :=
        if Status_eqb newStatus published && negb (isSome (publishedAt data))
        then Some now else publishedAt data in
      (setPosts (<[id := withStatus newStatus pa now data]> (posts s)) s,
       Success tt)
  end.

(** [publishPost(id)]. *)
Definition publishPost (id : string) (now : Z) (s : Store)
    : Store * Result unit :=
  match posts s !! id with
  | None => (s, Failure "Post not found")
  | Some data =>
      let pa :=
        if negb (isSome (publishedAt data)) then Some now
        else publishedAt data in
      (setPosts (<[id := withStatus published pa now data]> (posts s)) s,
       Success tt)
  end.

(** [unpublishPost(id)]. *)
Definition unpublishPost (id : string) (now : Z) (s : Store)
    : Store * Result unit :=
  match posts s !! id with
  | None => (s, Failure "Post not found")
  | Some data =>
      (setPosts (<[id := withStatus draft (publishedAt data) now data]>
                   (posts s)) s,
       Success tt)
  end.

(** *** Post versioning *)

Definition MAX_VERSIONS : nat := 20.

(** The order of [.orderBy('createdAt', 'desc')]: newest first, documents
    with the same time by descending document id. *)
Definition newerFirst (a b : string * VersionDoc) : Prop :=
  v_createdAt (snd b) < v_createdAt (snd a)
  \/ (v_createdAt (snd a) = v_createdAt (snd b) /\ String.le (fst b) (fst a)).

#[global] Instance newerFirst_dec : RelDecision newerFirst.
Proof. intros a b. unfold newerFirst. apply _. Defined.

Definition orderByCreatedAtDesc (vs : gmap string VersionDoc)
    : list (string * VersionDoc) :=
  merge_sort newerFirst (map_to_list vs).

(** [batch.delete] of every listed document. *)
Definition deleteDocs (docs : list (string * VersionDoc))
    (vs : gmap string VersionDoc) : gmap string VersionDoc :=
  foldr (fun doc m => delete (fst doc) m) vs docs.

Definition noteField (note : option string) : option string :=
  match note with
  | Some n => if JS.truthy n then Some n else None
  | None => None
  end.

(** [createVersion(postId, note?)].  [now] is the server timestamp of the
    snapshot and [newId] the id that [add()] generates. *)
Definition createVersion (postId : string) (note : option string) (now : Z)
    (newId : string) (s : Store) : Store * Result string :=
  match posts s !! postId with
  | None => (s, Failure "Post not found")
  | Some postData =>
      let versionData :=
        mkVersion (title postData) (slug postData) (excerpt postData)
                  (content postData) (status postData) now (noteField note) in
      let versionsRef := versionsOf postId s in
      match versionsRef !! newId with
      | Some _ => (s, Failure "Failed to create version")
      | None =>
          let added := <[newId := versionData]> versionsRef in
          let allVersions := orderByCreatedAtDesc added in
          let kept :=
            if (MAX_VERSIONS <? length allVersions)%nat
            then deleteDocs (drop MAX_VERSIONS allVersions) added
            else added in
          (setVersionsOf postId kept s, Success newId)
      end
  end.

(** [getVersions(postId)]: newest first. *)
Definition getVersions (postId : string) (s : Store)
    : list (string * VersionDoc) :=
  orderByCreatedAtDesc (versionsOf postId s).

(** [restoreVersion(postId, versionId)].  [snapTime] and [newId] are the
    timestamp and the id of the snapshot taken first, [now] the timestamp
    of the update.  The result of [createVersion] is not inspected. *)
Definition restoreVersion (postId versionId : string) (snapTime : Z)
    (newId : string) (now : Z) (s : Store) : Store * Result unit :=
  match posts s !! postId with
  | None => (s, Failure "Post not found")
  | Some postDoc =>
      match versionsOf postId s !! versionId with
      | None => (s, Failure "Version not found")
      | Some versionData =>
          let s1 :=
            fst (createVersion postId (Some "Before restore") snapTime newId s) in
          match posts s1 !! postId with
          | None => (s1, Failure "Failed to restore version")
          | Some cur =>
              let restored :=
                mkPost (v_title versionData) (v_slug versionData)
                       (oldSlugs cur) (v_excerpt versionData)
                       (v_content versionData) (v_status versionData)
                       (publishedAt cur) (createdAt cur) now (preview cur) in
              (setPosts (<[postId := restored]> (posts s1)) s1, Success tt)
          end
      end
  end.

(** *** Preview links *)

Definition withPreview (pv : PostPreview) (d : PostDoc) : PostDoc :=
  mkPost (title d) (slug d) (oldSlugs d) (excerpt d) (content d) (status d)
         (publishedAt d) (createdAt d) (updatedAt d) (Some pv).

(** [generatePreviewToken(postId)]; [tok] is what [generateSecureToken]
    draws. *)
Definition generatePreviewToken (postId : string) (tok : string) (now : Z)
    (s : Store) : Store * Result string :=
  match posts s !! postId with
  | None => (s, Failure "Post not found")
  | Some d =>
      (setPosts (<[postId := withPreview (mkPreview (Some tok) true now) d]>
                   (posts s)) s,
       Success tok)
  end.

(** [revokePreviewToken(postId)]. *)
Definition revokePreviewToken (postId : string) (now : Z) (s : Store)
    : Store * Result unit :=
  match posts s !! postId with
  | None => (s, Failure "Post not found")
  | Some d =>
      (setPosts (<[postId := withPreview (mkPreview None false now) d]>
                   (posts s)) s,
       Success tt)
  end.

(** The two [where] clauses of [getPostByPreviewToken]. *)
Definition previewMatches (tok : string) (d : PostDoc) : bool :=
  match preview d with
  | Some pv =>
      match token pv with
      | Some t => String.eqb t tok
      | None => false
      end && enabled pv
  | None => false
  end.

(** [getPostByPreviewToken(token)]. *)
Definition getPostByPreviewToken (tok : string) (s : Store)
    : option (string * PostDoc) :=
  limit1 (queryPosts (fun _ d => previewMatches tok d) s).

End Admin.

(** ** Public slug resolution ([src/app/posts/[slug]/page.tsx]) *)

Module PostPage.
Import Admin.

Record Resolved := mkResolved {
  post : option (string * PostDoc);
  shouldRedirect : bool;
  redirectSlug : option string
}.

(** [resolvePost(slug)]. *)
Definition resolvePost (slug0 : string) (s : Store) : Resolved :=
  match getPostBySlug slug0 s with
  | Some p => mkResolved (Some p) false None
  | None =>
      match getPostByOldSlug slug0 s with
      | Some p => mkResolved (Some p) true (Some (slug (snd p)))
      | None => mkResolved None false None
      end
  end.

End PostPage.

(** ** The save coordinator (the [PostEditor] component)

    The component is a state machine: its [useState] cells and [useRef]
    cells are the fields of [Editor], together with what the environment
    holds for it (timers, suspended calls, requests in flight) and a log of
    the calls of [onSaveSuccess] and [onAuthError].  Every callback is a
    function on [Editor], and each [await] splits a function in two steps
    between which other events run.

    A callback made by [useCallback] closes over the form fields of the
    render that created it: [getCurrentData()] returns those fields, not
    the ones on screen when the callback runs.  These captured fields are
    the argument [cur] of the callbacks; refs are read from the state.  A
    response is delivered together with its body, except that the body of
    a failed response is read in a step of its own: [performSave] awaits
    [response.json()] there after it has compared the sequence numbers. *)

Module PostEditor.

Abbreviation Status := Admin.Status.
Abbreviation draft := Admin.draft.
Abbreviation published := Admin.published.

Record PostData := mkData {
  title : string;
  slug : string;
  excerpt : string;
  content : string;
  status : Status
}.

Inductive SaveState :=
| idle
| unsaved
| saving
| saved (timestamp : Z)
| error (message : string).

(** [isPostDataEqual(a, b)]. *)
Definition isPostDataEqual (a b : PostData) : bool :=
  String.eqb (title a) (title b)
  && String.eqb (slug a) (slug b)
  && String.eqb (excerpt a) (excerpt b)
  && String.eqb (content a) (content b)
  && Admin.Status_eqb (status a) (status b).

(** A call of [performSave] suspended at [await getToken()]. *)
Record SaveCall := mkCall {
  c_data : PostData;
  c_createVersion : bool;
  c_versionNote : option string
}.

(** A [fetch] that has been sent: its sequence number [thisSaveId], the
    [data] it carries, the post id it addresses ([None]: [POST] to create;
    [Some id]: [PATCH]), and the version request in its body. *)
Record Request := mkRequest {
  r_saveId : nat;
  r_data : PostData;
  r_target : option string;
  r_createVersion : bool;
  r_versionNote : option string
}.

(** The JSON body of a response, as far as the editor reads it. *)
Record Body := mkBody {
  b_id : option string;
  b_error : option string
}.

(** How a [fetch] ends: a response with its status code and parsed body
    ([None] when [response.json()] rejects), or a rejected promise. *)
Inductive Outcome :=
| Response (statusCode : Z) (body : option Body)
| NetworkError.

Definition ok (statusCode : Z) : bool :=
  (200 <=? statusCode) && (statusCode <=? 299).

Record Editor := mkEditor {
  form : PostData;                (* title, slug, excerpt, content, status *)
  saveState : SaveState;
  lastSavedData : PostData;       (* lastSavedDataRef.current *)
  currentPostId : option string;  (* currentPostIdRef.current *)
  isSaving : bool;                (* isSavingRef.current *)
  pendingSave : bool;             (* pendingSaveRef.current *)
  saveId : nat;                   (* saveIdRef.current *)
  debounceTimer : bool;           (* the debounce timer is running *)
  awaitingToken : list SaveCall;  (* calls suspended at getToken() *)
  inFlight : list Request;        (* calls whose request is sent and that
                                     have not returned *)
  awaitingErrorBody : list (Request * option Body);
                                  (* calls suspended at response.json()
                                     after a failed response, each with
                                     the body that the read gives *)
  followUps : list PostData;      (* timers set by finally blocks, each
                                     with the form fields of its closure *)
  onSaveSuccessLog : list string; (* the ids given to onSaveSuccess *)
  onAuthErrorCount : nat          (* the calls of onAuthError *)
}.

(** The setters of the fields. *)
Definition set_form (v : PostData) (s : Editor) : Editor :=
  mkEditor v (saveState s) (lastSavedData s) (currentPostId s) (isSaving s)
    (pendingSave s) (saveId s) (debounceTimer s) (awaitingToken s)
    (inFlight s) (awaitingErrorBody s) (followUps s) (onSaveSuccessLog s)
    (onAuthErrorCount s).

Definition set_saveState (v : SaveState) (s : Editor) : Editor :=
  mkEditor (form s) v (lastSavedData s) (currentPostId s) (isSaving s)
    (pendingSave s) (saveId s) (debounceTimer s) (awaitingToken s)
    (inFlight s) (awaitingErrorBody s) (followUps s) (onSaveSuccessLog s)
    (onAuthErrorCount s).

Definition set_lastSavedData (v : PostData) (s : Editor) : Editor :=
  mkEditor (form s) (saveState s) v (currentPostId s) (isSaving s)
    (pendingSave s) (saveId s) (debounceTimer s) (awaitingToken s)
    (inFlight s) (awaitingErrorBody s) (followUps s) (onSaveSuccessLog s)
    (onAuthErrorCount s).

Definition set_currentPostId (v : option string) (s : Editor) : Editor :=
  mkEditor (form s) (saveState s) (lastSavedData s) v (isSaving s)
    (pendingSave s) (saveId s) (debounceTimer s) (awaitingToken s)
    (inFlight s) (awaitingErrorBody s) (followUps s) (onSaveSuccessLog s)
    (onAuthErrorCount s).

Definition set_isSaving (v : bool) (s : Editor) : Editor :=
  mkEditor (form s) (saveState s) (lastSavedData s) (currentPostId s) v
    (pendingSave s) (saveId s) (debounceTimer s) (awaitingToken s)
    (inFlight s) (awaitingErrorBody s) (followUps s) (onSaveSuccessLog s)
    (onAuthErrorCount s).

Definition set_pendingSave (v : bool) (s : Editor) : Editor :=
  mkEditor (form s) (saveState s) (lastSavedData s) (currentPostId s)
    (isSaving s) v (saveId s) (debounceTimer s) (awaitingToken s) (inFlight s)
    (awaitingErrorBody s) (followUps s) (onSaveSuccessLog s)
    (onAuthErrorCount s).

Definition set_saveId (v : nat) (s : Editor) : Editor :=
  mkEditor (form s) (saveState s) (lastSavedData s) (currentPostId s)
    (isSaving s) (pendingSave s) v (debounceTimer s) (awaitingToken s)
    (inFlight s) (awaitingErrorBody s) (followUps s) (onSaveSuccessLog s)
    (onAuthErrorCount s).

Definition set_debounceTimer (v : bool) (s : Editor) : Editor :=
  mkEditor (form s) (saveState s) (lastSavedData s) (currentPostId s)
    (isSaving s) (pendingSave s) (saveId s) v (awaitingToken s) (inFlight s)
    (awaitingErrorBody s) (followUps s) (onSaveSuccessLog s)
    (onAuthErrorCount s).

Definition set_awaitingToken (v : list SaveCall) (s : Editor) : Editor :=
  mkEditor (form s) (saveState s) (lastSavedData s) (currentPostId s)
    (isSaving s) (pendingSave s) (saveId s) (debounceTimer s) v (inFlight s)
    (awaitingErrorBody s) (followUps s) (onSaveSuccessLog s)
    (onAuthErrorCount s).

Definition set_inFlight (v : list Request) (s : Editor) : Editor :=
  mkEditor (form s) (saveState s) (lastSavedData s) (currentPostId s)
    (isSaving s) (pendingSave s) (saveId s) (debounceTimer s)
    (awaitingToken s) v (awaitingErrorBody s) (followUps s)
    (onSaveSuccessLog s) (onAuthErrorCount s).

Definition set_awaitingErrorBody (v : list (Request * option Body)) (s : Editor) : Editor :=
  mkEditor (form s) (saveState s) (lastSavedData s) (currentPostId s)
    (isSaving s) (pendingSave s) (saveId s) (debounceTimer s)
    (awaitingToken s) (inFlight s) v (followUps s) (onSaveSuccessLog s)
    (onAuthErrorCount s).

Definition set_followUps (v : list PostData) (s : Editor) : Editor :=
  mkEditor (form s) (saveState s) (lastSavedData s) (currentPostId s)
    (isSaving s) (pendingSave s) (saveId s) (debounceTimer s)
    (awaitingToken s) (inFlight s) (awaitingErrorBody s) v
    (onSaveSuccessLog s) (onAuthErrorCount s).

Definition set_onSaveSuccessLog (v : list string) (s : Editor) : Editor :=
  mkEditor (form s) (saveState s) (lastSavedData s) (currentPostId s)
    (isSaving s) (pendingSave s) (saveId s) (debounceTimer s)
    (awaitingToken s) (inFlight s) (awaitingErrorBody s) (followUps s) v
    (onAuthErrorCount s).

Definition set_onAuthErrorCount (v : nat) (s : Editor) : Editor :=
  mkEditor (form s) (saveState s) (lastSavedData s) (currentPostId s)
    (isSaving s) (pendingSave s) (saveId s) (debounceTimer s)
    (awaitingToken s) (inFlight s) (awaitingErrorBody s) (followUps s)
    (onSaveSuccessLog s) v.

(** An id is truthy when it is defined and not empty. *)
Definition idTruthy (o : option string) : bool :=
  match o with Some i => JS.truthy i | None => false end.

Definition emptyData : PostData := mkData "" "" "" "" draft.

(** The state after the first render. *)
Definition init (postId : option string) (initialData : option PostData)
    : Editor :=
  mkEditor (default emptyData initialData) idle (default emptyData initialData)
           postId false false 0%nat false [] [] [] [] [] 0%nat.

(** [isDirty()] of a closure whose form fields are [cur]. *)
Definition isDirty (cur : PostData) (s : Editor) : bool :=
  negb (isPostDataEqual cur (lastSavedData s)).

(** [performSave(createVersion, versionNote)] up to [await getToken()]. *)
Definition performSave (cur : PostData) (createVersion : bool)
    (versionNote : option string) (s : Editor) : Editor :=
  set_awaitingToken
    (awaitingToken s ++ [mkCall cur createVersion versionNote]) s.

(** [performSave] from the token to the [fetch]. *)
Definition performSave_dispatch (call : SaveCall) (tok : option string)
    (s : Editor) : Editor :=
  match tok with
  | None =>
      set_onAuthErrorCount (S (onAuthErrorCount s))
        (set_saveState (error "Not authenticated") s)
  | Some _ =>
      let thisSaveId := S (saveId s) in
      let patching := idTruthy (currentPostId s) in
      let request :=
        mkRequest thisSaveId (c_data call) (currentPostId s)
                  (patching && c_createVersion call)
                  (if patching && c_createVersion call
                   then c_versionNote call else None) in
      set_inFlight (inFlight s ++ [request])
        (set_saveState saving
           (set_isSaving true
              (set_saveId thisSaveId s)))
  end.

Definition findRequest (thisSaveId : nat) (l : list Request)
    : option Request :=
  List.find (fun r => Nat.eqb (r_saveId r) thisSaveId) l.

Definition removeRequest (thisSaveId : nat) (l : list Request)
    : list Request :=
  List.filter (fun r => negb (Nat.eqb (r_saveId r) thisSaveId)) l.

(** The call with this sequence number waits for the body of a failed
    response. *)
Definition readsErrorBody (thisSaveId : nat) (s : Editor) : bool :=
  existsb (fun p => Nat.eqb (r_saveId (fst p)) thisSaveId)
          (awaitingErrorBody s).

Definition stale (request : Request) (s : Editor) : bool :=
  negb (Nat.eqb (r_saveId request) (saveId s)).

(** The [catch] block. *)
Definition performSave_catch (request : Request) (s : Editor) : Editor :=
  if stale request s then s
  else set_saveState (error "Network error. Check your connection.") s.

(** Where a call of [performSave] stands after the [try] block has run
    as far as it can: it returns, or it waits at [await response.json()]
    in the branch of a failed response. *)
Inductive Progress :=
| Returns (s : Editor)
| ReadsErrorBody (s : Editor).

(** The [try] block from the stale check on; [savedPostId] is the local
    variable of that name.  A failed response that is neither stale nor
    an authentication failure suspends the call once more. *)
Definition performSave_settle (request : Request) (statusCode : Z)
    (body : option Body) (savedPostId : option string) (clock : Z)
    (s : Editor) : Progress :=
  if stale request s then Returns s
  else if (statusCode =? 401) || (statusCode =? 403) then
    Returns (set_onAuthErrorCount (S (onAuthErrorCount s))
               (set_saveState (error "Authentication expired") s))
  else if negb (ok statusCode) then
    ReadsErrorBody
      (set_awaitingErrorBody (awaitingErrorBody s ++ [(request, body)]) s)
  else
    let s1 := set_saveState (saved clock)
                (set_lastSavedData (r_data request) s) in
    Returns
      match savedPostId with
      | Some i =>
          if JS.truthy i
          then set_onSaveSuccessLog (onSaveSuccessLog s1 ++ [i]) s1
          else s1
      | None => s1
      end.

(** The branch of a failed response once [response.json()] has settled
    ([None]: it rejected, and [catch(() => ({}))] gave the empty object).
    The sequence numbers are not compared again. *)
Definition performSave_errorBody (body : option Body) (s : Editor) : Editor :=
  let message :=
    match body with
    | Some b => JS.orElse (default "" (b_error b)) "Failed to save"
    | None => "Failed to save"
    end in
  set_saveState (error message) s.

(** The [finally] block.  The timer it sets keeps the closure of this
    call, whose form fields are the [data] of the request. *)
Definition performSave_finally (request : Request) (s : Editor) : Editor :=
  let s1 := set_isSaving false s in
  if pendingSave s1
  then set_followUps (followUps s1 ++ [r_data request])
         (set_pendingSave false s1)
  else s1.

(** The call returns: the [finally] block runs, and the call is no longer
    among those in flight. *)
Definition performSave_return (request : Request) (s : Editor) : Editor :=
  let s1 := performSave_finally request s in
  set_inFlight (removeRequest (r_saveId request) (inFlight s1)) s1.

(** [performSave] from the end of the [fetch] to its return, or to the
    point where it waits for the body of a failed response. *)
Definition performSave_complete (request : Request) (out : Outcome)
    (clock : Z) (s : Editor) : Editor :=
  let tried :=
    match out with
    | NetworkError => Returns (performSave_catch request s)
    | Response statusCode body =>
        if idTruthy (r_target request) then
          performSave_settle request statusCode body (r_target request)
                             clock s
        else if ok statusCode then
          match body with
          | None => Returns (performSave_catch request s)
          | Some b =>
              performSave_settle request statusCode body (b_id b) clock
                                 (set_currentPostId (b_id b) s)
          end
        else
          performSave_settle request statusCode body (r_target request)
                             clock s
    end in
  match tried with
  | Returns s1 => performSave_return request s1
  | ReadsErrorBody s1 => s1
  end.

(** [performSave] from the body of a failed response to its return. *)
Definition performSave_resume (request : Request) (body : option Body)
    (s : Editor) : Editor :=
  performSave_return request (performSave_errorBody body s).

(** [requestSave(createVersion, versionNote)]. *)
Definition requestSave (cur : PostData) (createVersion : bool)
    (versionNote : option string) (s : Editor) : Editor :=
  if negb (isDirty cur s) then s
  else if isSaving s then set_pendingSave true s
  else performSave cur createVersion versionNote s.

(** [autoSave()]. *)
Definition autoSave (cur : PostData) (s : Editor) : Editor :=
  requestSave cur false None s.

(** Modelled from the spec: the hook [useDebouncedCallbackWithCancel] of
    [@/hooks/useDebouncedCallback], which is not among the sources.  It is
    a trailing-edge debounce with a fixed delay: [debouncedSave()] starts
    or restarts the one timer, [cancelDebouncedSave()] clears it, and the
    timer runs [autoSave] when it expires.  Both functions keep their
    identity across renders. *)
Definition debouncedSave (s : Editor) : Editor := set_debounceTimer true s.

Definition cancelDebouncedSave (s : Editor) : Editor :=
  set_debounceTimer false s.

Definition debounceExpires (cur : PostData) (s : Editor) : Editor :=
  if debounceTimer s then autoSave cur (set_debounceTimer false s) else s.

(** [handleChange()]. *)
Definition handleChange (cur : PostData) (s : Editor) : Editor :=
  if isDirty cur s then debouncedSave (set_saveState unsaved s) else s.

(** The effect [useEffect(() => { handleChange() }, [title, slug, excerpt,
    content, status, handleChange])]: it runs after a render in which a
    form field differs from the previous render. *)
Definition fieldsEffect (before : PostData) (s : Editor) : Editor :=
  if isPostDataEqual before (form s) then s else handleChange (form s) s.

(** [handleManualSave()]. *)
Definition handleManualSave (cur : PostData) (s : Editor) : Editor :=
  let s1 := cancelDebouncedSave s in
  let shouldCreateVersion := idTruthy (currentPostId s1) in
  requestSave cur shouldCreateVersion (Some "Manual save") s1.

(** [handleVersionRestore(version)]. *)
Definition handleVersionRestore (version : PostData) (s : Editor) : Editor :=
  set_saveState unsaved (set_form version (cancelDebouncedSave s)).

(** The callback given to [setTimeout(..., 100)] in the [finally] block.
    Its [isDirty] and [performSave] are the ones that the running
    [performSave] closes over, so they see the form fields [cur] that this
    [performSave] read into [data]; [lastSavedDataRef] is a ref and is
    read when the callback runs. *)
Definition followUp (cur : PostData) (s : Editor) : Editor :=
  if isDirty cur s then performSave cur false None s else s.

(** What can happen to the component.  Handlers that React calls belong
    to the latest render and see the current form. *)
Inductive Event :=
| Edit (newForm : PostData)
| ManualSave
| VersionRestore (version : PostData)
| DebounceExpires (cur : PostData)
| TokenReady (n : nat) (tok : option string)
| Completed (thisSaveId : nat) (out : Outcome) (clock : Z)
| ErrorBodyRead (n : nat)
| FollowUpFires.

Definition step (e : Event) (s : Editor) : Editor :=
  match e with
  | Edit newForm => fieldsEffect (form s) (set_form newForm s)
  | ManualSave => handleManualSave (form s) s
  | VersionRestore version =>
      fieldsEffect (form s) (handleVersionRestore version s)
  | DebounceExpires cur => debounceExpires cur s
  | TokenReady n tok =>
      match awaitingToken s !! n with
      | Some call =>
          performSave_dispatch call tok
            (set_awaitingToken (delete n (awaitingToken s)) s)
      | None => s
      end
  | Completed thisSaveId out clock =>
      (* a call that waits for the body has had its response *)
      match findRequest thisSaveId (inFlight s) with
      | Some request =>
          if readsErrorBody thisSaveId s then s
          else performSave_complete request out clock s
      | None => s
      end
  | ErrorBodyRead n =>
      match awaitingErrorBody s !! n with
      | Some (request, body) =>
          performSave_resume request body
            (set_awaitingErrorBody (delete n (awaitingErrorBody s)) s)
      | None => s
      end
  | FollowUpFires =>
      match followUps s with
      | cur :: rest => followUp cur (set_followUps rest s)
      | [] => s
      end
  end.

(** The events are handled one after the other. *)
Definition run (events : list Event) (s : Editor) : Editor :=
  fold_left (fun st e => step e st) events s.

End PostEditor.

(** ** Notions used by the statements *)

Module Notions.
Import Admin.

(** The [publishedAt] field of the post [id], if the post exists. *)
Definition publishedAtOf (id : string) (s : Store) : option (option Z) :=
  publishedAt <$> (posts s !! id).

(** The document stores the preview token [tok] and its preview is
    enabled. *)
Definition holdsToken (tok : string) (d : PostDoc) : Prop :=
  exists pv, preview d = Some pv /\ token pv = Some tok /\ enabled pv = true.

(** Some published post other than [pid] has [sl] as its live slug or
    among its retired slugs. *)
Definition referencedElsewhere (pid sl : string) (s : Store) : Prop :=
  exists q dq, q <> pid /\ posts s !! q = Some dq /\ status dq = published
               /\ (slug dq = sl \/ sl ∈ oldSlugs dq).

(** The snapshot that [createVersion] writes for the post document
    [d]. *)
Definition snapshotOf (d : PostDoc) (note : option string) (now : Z)
    : VersionDoc :=
  mkVersion (title d) (slug d) (excerpt d) (content d) (status d) now
            (noteField note).

(** The clean-up step of [createVersion] on a version log. *)
Definition evict (vs : gmap string VersionDoc) : gmap string VersionDoc :=
  if (MAX_VERSIONS <? length (orderByCreatedAtDesc vs))%nat
  then deleteDocs (drop MAX_VERSIONS (orderByCreatedAtDesc vs)) vs
  else vs.

(** The post document after [restoreVersion] has copied the version [v]
    onto [d]. *)
Definition restoredFrom (v : VersionDoc) (d : PostDoc) (now : Z) : PostDoc :=
  mkPost (v_title v) (v_slug v) (oldSlugs d) (v_excerpt v) (v_content v)
         (v_status v) (publishedAt d) (createdAt d) now (preview d).

(** One call of [createVersion]: its note, the server time and the id
    generated for the snapshot. *)
Record VersionCall := mkVersionCall {
  vc_note : option string;
  vc_now : Z;
  vc_newId : string
}.

(** Successive calls of [createVersion] for one post, each of which
    succeeds. *)
Fixpoint createVersions (postId : string) (calls : list VersionCall)
    (s : Store) : option Store :=
  match calls with
  | [] => Some s
  | call :: rest =>
      match createVersion postId (vc_note call) (vc_now call)
                          (vc_newId call) s with
      | (s', Success _) => createVersions postId rest s'
      | (_, Failure _) => None
      end
  end.

End Notions.

(** ** Sample stores *)

Module Samples.
Import Admin Notions.

(** A patch that carries only a status, as a save of the editor does for
    an otherwise unchanged post. *)
Definition statusOnly (st : Status) : PostPatch :=
  mkPatch None None None None (Some st).

(** A patch that carries only a slug. *)
Definition slugOnly (sl : string) : PostPatch :=
  mkPatch None (Some sl) None None None.

(** A published post, first published at time 100. *)
Definition post1 : PostDoc :=
  mkPost "Hello" "hello" [] "" "text" published (Some 100) 50 100 None.

Definition store1 : Store := mkStore {[ "p1" := post1 ]} ∅.

(** A post whose live slug is [b] and that was once reachable as [a]. *)
Definition post2 : PostDoc :=
  mkPost "Renamed" "b" ["a"] "" "text" published (Some 100) 50 150 None.

Definition store2 : Store := mkStore {[ "p1" := post2 ]} ∅.

(** A draft with the slug [a], and the store after it was renamed to [b]
    and then to [c]. *)
Definition post3 : PostDoc :=
  mkPost "Draft" "a" [] "" "text" draft None 50 50 None.

Definition store3 : Store := mkStore {[ "p1" := post3 ]} ∅.

Definition store3_renamed : Store :=
  fst (updatePost "p1" (slugOnly "c") 70
         (fst (updatePost "p1" (slugOnly "b") 60 store3))).

(** A version taken at time [t]. *)
Definition oldVersion (t : Z) : VersionDoc :=
  mkVersion "Old" "hello" "" "old text" draft t None.

(** A log that holds 20 versions, [v01] being the oldest. *)
Definition fullLog : gmap string VersionDoc :=
  list_to_map
    [ ("v01", oldVersion 1); ("v02", oldVersion 2); ("v03", oldVersion 3);
      ("v04", oldVersion 4); ("v05", oldVersion 5); ("v06", oldVersion 6);
      ("v07", oldVersion 7); ("v08", oldVersion 8); ("v09", oldVersion 9);
      ("v10", oldVersion 10); ("v11", oldVersion 11); ("v12", oldVersion 12);
      ("v13", oldVersion 13); ("v14", oldVersion 14); ("v15", oldVersion 15);
      ("v16", oldVersion 16); ("v17", oldVersion 17); ("v18", oldVersion 18);
      ("v19", oldVersion 19); ("v20", oldVersion 20) ].

Definition store4 : Store :=
  mkStore {[ "p1" := post1 ]} {[ "p1" := fullLog ]}.

(** A log that holds two versions. *)
Definition store5 : Store :=
  mkStore {[ "p1" := post1 ]}
          {[ "p1" := {[ "v01" := oldVersion 1; "v02" := oldVersion 2 ]} ]}.

(** The draft [p1] with an enabled preview token. *)
Definition post6 : PostDoc :=
  withPreview (mkPreview (Some "s3cr3t") true 120) post3.

Definition store6 : Store := mkStore {[ "p1" := post6 ]} ∅.

(** The [i]-th of a series of manual saves, at time [i]. *)
Definition callAt (i : nat) : VersionCall :=
  mkVersionCall (Some "Manual save") (Z.of_nat i)
                (String (ascii_of_nat (64 + i)) "").

Definition calls21 : list VersionCall := map callAt (seq 1 21).

End Samples.

(** ** Sample editing sessions on the existing post [p1] *)

Module EditorSamples.
Import PostEditor.

(** The content last saved, and three later states of the draft. *)
Definition d0 : PostData := mkData "Title" "title" "" "first" draft.
Definition d1 : PostData := mkData "Title" "title" "" "second" draft.
Definition d2 : PostData := mkData "Title" "title" "" "third" draft.
Definition d3 : PostData := mkData "Title" "title" "" "fourth" draft.

(** An earlier version of the post, offered for restore. *)
Definition earlier : PostData := mkData "Title" "title" "" "zeroth" draft.

Definition editing : Editor := init (Some "p1") (Some d0).

Definition okBody : option Body := Some (mkBody None None).

(** Two saves overlap: the debounce timer starts a save of [d1], and
    before its token arrives a manual save of [d2] starts.  The second
    is answered first, with success; the first is answered last, with
    status 401. *)
Definition overlappingSaves : list Event :=
  [ Edit d1; DebounceExpires d1; Edit d2; ManualSave;
    TokenReady 0 (Some "token"); TokenReady 0 (Some "token");
    Completed 2 (Response 200 okBody) 10;
    Completed 1
      (Response 401 (Some (mkBody None (Some "Invalid or expired token"))))
      11 ].

(** The state in which both saves wait for their token. *)
Definition bothSuspended : Editor :=
  run [Edit d1; DebounceExpires d1; Edit d2; ManualSave] editing.

(** The state in which both have been sent and none is answered. *)
Definition bothInFlight : Editor :=
  run [TokenReady 0 (Some "token"); TokenReady 0 (Some "token")]
      bothSuspended.

(** A save of [d1] is in flight while the user goes on typing: the
    debounce timer asks for a save of [d2], a manual save asks for a save
    of [d3].  Then the save of [d1] succeeds and the follow-up timer
    fires. *)
Definition saveInFlight : list Event :=
  [ Edit d1; DebounceExpires d1; TokenReady 0 (Some "token") ].

Definition twoRequests : list Event :=
  [ Edit d2; DebounceExpires d2; Edit d3; ManualSave ].

Definition successThenFollowUp : list Event :=
  [ Completed 1 (Response 200 okBody) 10; FollowUpFires ].

(** A save of [d1] is in flight, the debounce timer asks for a save of
    [d2], the user goes back to the saved content [d0], the save of [d1]
    fails, the follow-up timer fires and its save gets a token. *)
Definition failureThenFollowUp : list Event :=
  [ Edit d2; DebounceExpires d2; Edit d0;
    Completed 1 NetworkError 10; FollowUpFires;
    TokenReady 0 (Some "token") ].

(** A version is restored; one second later the debounce timer expires
    and the save it starts gets a token.  No manual save occurs. *)
Definition restoreThenWait : list Event :=
  [ VersionRestore earlier; DebounceExpires earlier;
    TokenReady 0 (Some "token") ].

(** A new post: the same two saves on an editor without post id.  Both
    are sent before either is answered, so both create a post; the second
    is answered first. *)
Definition creating : Editor := init None None.

Definition created (id : string) : Outcome :=
  Response 201 (Some (mkBody (Some id) None)).

Definition twoCreatesThenB : list Event :=
  [ Edit d1; DebounceExpires d1; Edit d2; ManualSave;
    TokenReady 0 (Some "token"); TokenReady 0 (Some "token");
    Completed 2 (created "Y") 10 ].

Definition oneMoreSave : list Event :=
  [ Edit d3; ManualSave; TokenReady 0 (Some "token") ].

(** With both saves of [bothInFlight] unanswered: the second is answered,
    a third save is sent, and a manual save of a further change sets the
    pending flag. *)
Definition thirdSaveAndRequest : list Event :=
  [ Completed 2 (Response 200 okBody) 10;
    Edit d3; DebounceExpires d3; TokenReady 0 (Some "token");
    Edit d0; ManualSave ].

(** With both saves of [bothSuspended] waiting for their token: the first
    is sent and answered with status 500; while it reads the body the
    second is sent and answered with success. *)
Definition supersededWhileReading : list Event :=
  [ TokenReady 0 (Some "token");
    Completed 1
      (Response 500 (Some (mkBody None (Some "Server error")))) 9;
    TokenReady 0 (Some "token");
    Completed 2 (Response 200 okBody) 10 ].

End EditorSamples.

(** ** More of the post store ([src/lib/firebase/admin.ts]) *)

Module AdminMore.
Import Admin.

(** [getPostBySlugAdmin(slug)]: any status. *)
Definition getPostBySlugAdmin (slug0 : string) (s : Store)
    : option (string * PostDoc) :=
  let normalizedSlug := normalizeSlug slug0 in
  limit1 (queryPosts (fun _ d => String.eqb (slug d) normalizedSlug) s).

(** [deletePost(id)].  Deleting a document succeeds whether or not it
    exists, and leaves its subcollections in place. *)
Definition deletePost (id : string) (s : Store) : Store * Result unit :=
  (setPosts (delete id (posts s)) s, Success tt).

(** What [getPostPreview] returns: [createdAt] is null when the post has
    no [preview] field. *)
Record PreviewInfo := mkPreviewInfo {
  i_token : option string;
  i_enabled : bool;
  i_createdAt : option Z
}.

(** [getPostPreview(postId)]. *)
Definition getPostPreview (postId : string) (s : Store) : option PreviewInfo :=
  match posts s !! postId with
  | None => None
  | Some d =>
      match preview d with
      | None => Some (mkPreviewInfo None false None)
      | Some pv =>
          Some (mkPreviewInfo
                  (match token pv with
                   | Some t => if JS.truthy t then Some t else None
                   | None => None
                   end)
                  (enabled pv)
                  (Some (previewCreatedAt pv)))
      end
  end.

(** The order of [.orderBy('publishedAt', 'desc')]: latest publication
    first, null after every date, equal values by descending document
    id. *)
Definition laterPublished (a b : string * PostDoc) : Prop :=
  match publishedAt (snd a), publishedAt (snd b) with
  | Some x, Some y => y < x \/ (x = y /\ String.le (fst b) (fst a))
  | Some _, None => True
  | None, Some _ => False
  | None, None => String.le (fst b) (fst a)
  end.

#[global] Instance laterPublished_dec : RelDecision laterPublished.
Proof.
  intros a b. unfold laterPublished.
  destruct (publishedAt (snd a)), (publishedAt (snd b)); apply _.
Defined.

(** [getPublishedPosts()], the ordered query; every post is returned with
    status [published]. *)
Definition getPublishedPosts (s : Store) : list (string * PostDoc) :=
  merge_sort laterPublished
    (queryPosts (fun _ d => Status_eqb (status d) published) s).

(** The order of [.orderBy('updatedAt', 'desc')]. *)
Definition laterUpdated (a b : string * PostDoc) : Prop :=
  updatedAt (snd b) < updatedAt (snd a)
  \/ (updatedAt (snd a) = updatedAt (snd b) /\ String.le (fst b) (fst a)).

#[global] Instance laterUpdated_dec : RelDecision laterUpdated.
Proof. intros a b. unfold laterUpdated. apply _. Defined.

(** [getAllPostsAdmin(statusFilter?)], the ordered query. *)
Definition getAllPostsAdmin (statusFilter : option Status) (s : Store)
    : list (string * PostDoc) :=
  merge_sort laterUpdated
    (queryPosts
       (fun _ d =>
          match statusFilter with
          | Some st => Status_eqb (status d) st
          | None => true
          end) s).

End AdminMore.

(** ** Sequences of store operations *)

Module Api.
Import Admin AdminMore.

(** A call of one of the mutating functions of the store, with the
    values that the environment supplies to it. *)
Inductive Op :=
| CreatePost (data : NewPost) (now : Z) (newId : string)
| UpdatePost (id : string) (data : PostPatch) (now : Z)
| DeletePost (id : string)
| TogglePostStatus (id : string) (now : Z)
| PublishPost (id : string) (now : Z)
| UnpublishPost (id : string) (now : Z)
| CreateVersion (postId : string) (note : option string) (now : Z)
                (newId : string)
| RestoreVersion (postId versionId : string) (snapTime : Z) (newId : string)
                 (now : Z)
| GeneratePreviewToken (postId : string) (tok : string) (now : Z)
| RevokePreviewToken (postId : string) (now : Z).

(** The store after the call, whatever it returned. *)
Definition applyOp (op : Op) (s : Store) : Store :=
  match op with
  | CreatePost data now newId => fst (createPost data now newId s)
  | UpdatePost id data now => fst (updatePost id data now s)
  | DeletePost id => fst (deletePost id s)
  | TogglePostStatus id now => fst (togglePostStatus id now s)
  | PublishPost id now => fst (publishPost id now s)
  | UnpublishPost id now => fst (unpublishPost id now s)
  | CreateVersion postId note now newId =>
      fst (createVersion postId note now newId s)
  | RestoreVersion postId versionId snapTime newId now =>
      fst (restoreVersion postId versionId snapTime newId now s)
  | GeneratePreviewToken postId tok now =>
      fst (generatePreviewToken postId tok now s)
  | RevokePreviewToken postId now => fst (revokePreviewToken postId now s)
  end.

Definition applyOps (ops : list Op) (s : Store) : Store :=
  fold_left (fun st op => applyOp op st) ops s.

(** The database before the first call. *)
Definition emptyStore : Store := mkStore ∅ ∅.

(** The three operations that only change the status of a post. *)
Definition isStatusOp (op : Op) : bool :=
  match op with
  | TogglePostStatus _ _ | PublishPost _ _ | UnpublishPost _ _ => true
  | _ => false
  end.

(** Every slug that the store holds - live, retired or in a version - is
    left as it is by [normalizeSlug]. *)
Definition slugsNormalized (s : Store) : Prop :=
  (forall id d, posts s !! id = Some d ->
     normalizeSlug (slug d) = slug d
     /\ forall sl, sl ∈ oldSlugs d -> normalizeSlug sl = sl)
  /\ (forall postId vs vid v, versions s !! postId = Some vs ->
        vs !! vid = Some v -> normalizeSlug (v_slug v) = v_slug v).

(** No version log holds more than [MAX_VERSIONS] versions. *)
Definition logsCapped (s : Store) : Prop :=
  forall postId vs, versions s !! postId = Some vs ->
                    (size vs <= MAX_VERSIONS)%nat.

(** No two posts have the same live slug. *)
Definition uniqueLiveSlugs (s : Store) : Prop :=
  forall i j di dj, posts s !! i = Some di -> posts s !! j = Some dj ->
                    slug di = slug dj -> i = j.

(** The post that a call addresses: the generated id for [createPost]. *)
Definition target (op : Op) : string :=
  match op with
  | CreatePost _ _ newId => newId
  | UpdatePost id _ _ | DeletePost id | TogglePostStatus id _
  | PublishPost id _ | UnpublishPost id _ => id
  | CreateVersion postId _ _ _ | RestoreVersion postId _ _ _ _
  | GeneratePreviewToken postId _ _ | RevokePreviewToken postId _ => postId
  end.

(** Every call but [deletePost] and an [updatePost] that carries a
    status. *)
Definition leavesPublication (op : Op) : bool :=
  match op with
  | DeletePost _ => false
  | UpdatePost _ data _ => negb (isSome (p_status data))
  | _ => true
  end.

Definition isRestore (op : Op) : bool :=
  match op with
  | RestoreVersion _ _ _ _ _ => true
  | _ => false
  end.

End Api.

(** ** The admin routes ([src/app/api/admin/posts])

    A request is what the handler reads of it: the [Authorization]
    header, the path parameter and the fields of the JSON body, each a
    string or absent.  [verifyAdminToken], which asks the identity
    provider, is the function [verify].  The handlers answer with a
    status code and a JSON object; a body that is not JSON (status 500)
    is outside the model. *)

Module Http.
Import Admin.

Record Reply := mkReply {
  http_status : Z;
  http_error : option string;
  http_id : option string
}.

(** [NextResponse.json({ success: true })]. *)
Definition success200 : Reply := mkReply 200 None None.

Definition errorReply (code : Z) (e : string) : Reply :=
  mkReply code (Some e) None.

(** [verifyAuth(request)], the same text in both route files. *)
Definition verifyAuth (verify : string -> bool) (authHeader : option string)
    : Result unit :=
  match authHeader with
  | None => Failure "Missing authorization header"
  | Some h =>
      if negb (JS.truthy h) || negb (String.prefix "Bearer " h)
      then Failure "Missing authorization header"
      else
        let token0 := String.substring 7 (String.length h - 7) h in
        if negb (verify token0) then Failure "Invalid or expired token"
        else Success tt
  end.

(** A field [x] spread as [...(x && { x })]: kept when truthy. *)
Definition truthyField (o : option string) : option string :=
  match o with
  | Some x => if JS.truthy x then Some x else None
  | None => None
  end.

(** [['draft', 'published'].includes(status)], with the status it
    names. *)
Definition parseStatus (st : string) : option Status :=
  if String.eqb st "draft" then Some draft
  else if String.eqb st "published" then Some published
  else None.

Definition quote : string := String (ascii_of_nat 34) EmptyString.

Definition invalidStatus : string :=
  "Invalid status. Must be " ++ quote ++ "draft" ++ quote ++ " or "
  ++ quote ++ "published" ++ quote.

End Http.

(** *** [src/app/api/admin/posts/[id]/route.ts] *)

Module PostRoute.
Import Admin AdminMore Http.

Record PatchBody := mkPatchBody {
  pb_title : option string;
  pb_slug : option string;
  pb_excerpt : option string;
  pb_content : option string;
  pb_status : option string;
  pb_createVersion : bool
}.

(** [PATCH].  [snapTime] and [newId] belong to the snapshot, [now] to
    the update. *)
Definition PATCH (verify : string -> bool) (authHeader : option string)
    (id : string) (body : PatchBody) (snapTime : Z) (newId : string) (now : Z)
    (s : Store) : Store * Reply :=
  match verifyAuth verify authHeader with
  | Failure e => (s, errorReply 401 e)
  | Success _ =>
      match truthyField (pb_status body) with
      | Some st =>
          match parseStatus st with
          | None => (s, errorReply 400 invalidStatus)
          | Some _ =>
              let s1 :=
                if pb_createVersion body
                then fst (createVersion id (Some "Manual save") snapTime newId s)
                else s in
              match updatePost id
                      (mkPatch (truthyField (pb_title body))
                               (truthyField (pb_slug body))
                               (pb_excerpt body)
                               (truthyField (pb_content body))
                               (parseStatus st)) now s1 with
              | (s2, Failure e) => (s2, errorReply 400 e)
              | (s2, Success _) => (s2, success200)
              end
          end
      | None =>
          let s1 :=
            if pb_createVersion body
            then fst (createVersion id (Some "Manual save") snapTime newId s)
            else s in
          match updatePost id
                  (mkPatch (truthyField (pb_title body))
                           (truthyField (pb_slug body))
                           (pb_excerpt body)
                           (truthyField (pb_content body))
                           None) now s1 with
          | (s2, Failure e) => (s2, errorReply 400 e)
          | (s2, Success _) => (s2, success200)
          end
      end
  end.

(** [DELETE]. *)
Definition DELETE (verify : string -> bool) (authHeader : option string)
    (id : string) (s : Store) : Store * Reply :=
  match verifyAuth verify authHeader with
  | Failure e => (s, errorReply 401 e)
  | Success _ =>
      match deletePost id s with
      | (s1, Failure e) => (s1, errorReply 400 e)
      | (s1, Success _) => (s1, success200)
      end
  end.

Inductive Action := publish | unpublish | toggle.

(** The action of the body, [toggle] when the body is missing or names
    none of the three. *)
Definition actionOf (bodyAction : option string) : Action :=
  match truthyField bodyAction with
  | Some a =>
      if String.eqb a "publish" then publish
      else if String.eqb a "unpublish" then unpublish
      else toggle
  | None => toggle
  end.

Definition versionNote (action : Action) : string :=
  match action with
  | publish => "Before publish"
  | unpublish => "Before unpublish"
  | toggle => "Before status toggle"
  end.

(** [POST]: change the status, after a snapshot. *)
Definition POST (verify : string -> bool) (authHeader : option string)
    (id : string) (bodyAction : option string) (snapTime : Z) (newId : string)
    (now : Z) (s : Store) : Store * Reply :=
  match verifyAuth verify authHeader with
  | Failure e => (s, errorReply 401 e)
  | Success _ =>
      let action := actionOf bodyAction in
      let s1 :=
        fst (createVersion id (Some (versionNote action)) snapTime newId s) in
      let result :=
        match action with
        | publish => publishPost id now s1
        | unpublish => unpublishPost id now s1
        | toggle => togglePostStatus id now s1
        end in
      match result with
      | (s2, Failure e) => (s2, errorReply 400 e)
      | (s2, Success _) => (s2, success200)
      end
  end.

End PostRoute.

(** *** The route that creates posts ([POST /api/admin/posts]) *)

Module PostsRoute.
Import Admin Http.

Record CreateBody := mkCreateBody {
  cb_title : option string;
  cb_slug : option string;
  cb_excerpt : option string;
  cb_content : option string;
  cb_status : option string
}.

(** [POST]. *)
Definition POST (verify : string -> bool) (authHeader : option string)
    (body : CreateBody) (now : Z) (newId : string) (s : Store)
    : Store * Reply :=
  match verifyAuth verify authHeader with
  | Failure e => (s, errorReply 401 e)
  | Success _ =>
      match truthyField (cb_title body), truthyField (cb_slug body),
            truthyField (cb_content body) with
      | Some title0, Some slug0, Some content0 =>
          let status0 :=
            match truthyField (cb_status body) with
            | Some st => parseStatus st
            | None => Some draft
            end in
          match status0 with
          | None => (s, errorReply 400 invalidStatus)
          | Some st =>
              match createPost
                      (mkNewPost title0 slug0
                         (default "" (truthyField (cb_excerpt body)))
                         content0 st) now newId s with
              | (s1, Failure e) => (s1, errorReply 400 e)
              | (s1, Success id) => (s1, mkReply 201 None (Some id))
              end
          end
      | _, _, _ =>
          (s, errorReply 400 "Missing required fields: title, slug, content")
      end
  end.

End PostsRoute.

(** *** The route that restores a version *)

Module RestoreRoute.
Import Admin Http.

(** [POST]: the result of [restoreVersion] is not looked at. *)
Definition POST (id : string) (versionId : option string) (snapTime : Z)
    (newId : string) (now : Z) (s : Store) : Store * Reply :=
  match truthyField versionId with
  | None => (s, errorReply 400 "Version ID is required")
  | Some vid =>
      (fst (restoreVersion id vid snapTime newId now s), success200)
  end.

End RestoreRoute.

(** ** The public post page ([src/app/posts/[slug]/page.tsx]) *)

Module PostPageView.
Import Admin PostPage.

(** How the page ends: [redirect()], [notFound()], or the article. *)
Inductive Outcome :=
| Redirect (redirectSlug0 : string)
| NotFound
| Render (p : string * PostDoc).

(** [PostPage({ params })]. *)
Definition PostPage (slug0 : string) (s : Store) : Outcome :=
  let r := resolvePost slug0 s in
  if shouldRedirect r
     && match redirectSlug r with Some sl => JS.truthy sl | None => false end
  then Redirect (default "" (redirectSlug r))
  else
    match post r with
    | None => NotFound
    | Some p => Render p
    end.

End PostPageView.

(** ** The state of [collapseRuns] *)

Module SlugShape.
Import JS.

(** Whether a run is open after the characters of [l]. *)
Fixpoint endsOpen (b : bool) (l : list ascii) : bool :=
  match l with
  | [] => b
  | c :: r => endsOpen (negb (isSlugChar c)) r
  end.

(** The strings [collapseRuns] can produce when no run is open at the
    end. *)
Definition closedForm (m : list ascii) : Prop :=
  m = []%list \/ exists core, slugForm core /\ (m = core \/ m = ("-"%char :: core)%list).

End SlugShape.

(** ** More of the editor: the slug field *)

Module EditorMore.
Import PostEditor.

(** [generateSlug(title)]: as [normalizeSlug], without the [trim]. *)
Definition generateSlug (title0 : string) : string :=
  string_of_list_ascii
    (JS.stripHyphens
       (JS.collapseRuns false
          (JS.toLowerCase (list_ascii_of_string title0)))).

(** The state cells behind the title and slug inputs. *)
Record SlugField := mkSlugField {
  f_title : string;
  f_slug : string;
  slugManuallyEdited : bool
}.

(** [handleTitleChange(e)], [newTitle] being [e.target.value]. *)
Definition handleTitleChange (newTitle : string) (f : SlugField) : SlugField :=
  if negb (slugManuallyEdited f)
  then mkSlugField newTitle (generateSlug newTitle) (slugManuallyEdited f)
  else mkSlugField newTitle (f_slug f) (slugManuallyEdited f).

(** [handleSlugChange(e)]. *)
Definition handleSlugChange (newSlug : string) (f : SlugField) : SlugField :=
  mkSlugField (f_title f) newSlug true.

(** [handleResetSlug()]. *)
Definition handleResetSlug (f : SlugField) : SlugField :=
  mkSlugField (f_title f) (generateSlug (f_title f)) false.

(** The title is typed: [handleTitleChange] for each value of the
    input. *)
Definition retitle (titles : list string) (f : SlugField) : SlugField :=
  fold_left (fun st t => handleTitleChange t st) titles f.

(** The test of the [beforeunload] handler: the page asks before it is
    left. *)
Definition warnsBeforeUnload (cur : PostData) (s : Editor) : bool :=
  isDirty cur s
  || match saveState s with saving => true | _ => false end.

(** The bookkeeping of the save coordinator is consistent: the requests
    in flight bear different sequence numbers, none above the counter; a
    follow-up is queued only while a save is marked as running, a save is
    marked as running only while a request is in flight, and the state
    [saving] is shown only while the latest request is in flight. *)
Definition coherent (s : Editor) : Prop :=
  (forall r, r ∈ inFlight s -> (1 <= r_saveId r <= saveId s)%nat)
  /\ NoDup (r_saveId <$> inFlight s)
  /\ (pendingSave s = true -> isSaving s = true)
  /\ (isSaving s = true -> inFlight s <> [])
  /\ (saveState s = saving ->
      exists r, r ∈ inFlight s /\ r_saveId r = saveId s).

(** Every request for a version snapshot is a manual save of an existing
    post. *)
Definition versionsOnlyOnManualSave (s : Editor) : Prop :=
  (forall call, call ∈ awaitingToken s -> c_createVersion call = true ->
                c_versionNote call = Some "Manual save")
  /\ (forall r, r ∈ inFlight s ->
        if r_createVersion r
        then r_versionNote r = Some "Manual save"
             /\ idTruthy (r_target r) = true
        else r_versionNote r = None).

End EditorMore.

(** ** More sample stores and requests *)

Module MoreSamples.
Import Admin AdminMore Api Notions Samples Http.

(** The published post [p1] of [store1] beside the draft [p2]. *)
Definition storeAB : Store := mkStore {[ "p1" := post1; "p2" := post3 ]} ∅.

(** A version of [p1] taken when its slug was [old-title]. *)
Definition renamedVersion : VersionDoc :=
  mkVersion "Old title" "old-title" "" "old text" published 1 None.

Definition store7 : Store :=
  mkStore {[ "p1" := post1 ]} {[ "p1" := {[ "v01" := renamedVersion ]} ]}.

(** Calls that leave the date of first publication alone. *)
Definition statusAndContentOps : list Op :=
  [ UnpublishPost "p1" 200;
    UpdatePost "p1" (mkPatch (Some "Hello again") None None None None) 210;
    CreateVersion "p1" (Some "Manual save") 215 "v01";
    PublishPost "p1" 220;
    TogglePostStatus "p1" 230;
    RestoreVersion "p1" "v01" 240 "v02" 241;
    GeneratePreviewToken "p1" "tok" 250 ].

(** Two posts are created and one is renamed; the second creation and
    the renaming ask for a slug that is taken. *)
Definition slugOps : list Op :=
  [ CreatePost (mkNewPost "World" "World" "" "text" draft) 200 "p2";
    CreatePost (mkNewPost "Hello" " Hello " "" "text" draft) 210 "p3";
    UpdatePost "p2" (slugOnly "HELLO") 220;
    DeletePost "p1";
    UpdatePost "p2" (slugOnly "HELLO") 230 ].

(** The identity provider accepts the token [good]. *)
Definition acceptGood (tok : string) : bool := String.eqb tok "good".

Definition bearerGood : option string := Some "Bearer good".

End MoreSamples.

(** * Properties *)

(** ** Slug normalization *)

Section Normalize.
Import JS.
Local Open Scope list_scope.

Lemma isSlugChar_cases c :
  isSlugChar c = true ->
  isUpper c = false /\ isSpace c = false /\ isHyphen c = false.
Proof.
  destruct c as [[] [] [] [] [] [] [] []]; vm_compute; intros H;
    try discriminate H; auto.
Qed.

Lemma isHyphen_eq c : isHyphen c = true -> c = "-"%char.
Proof.
  unfold isHyphen, code. intros H%N.eqb_eq.
  rewrite <- (ascii_N_embedding c), H. reflexivity.
Qed.

Lemma slugForm_head l :
  slugForm l -> exists c r, l = c :: r /\ isSlugChar c = true.
Proof. destruct 1; eauto. Qed.

Lemma slugForm_snoc l c :
  slugForm l -> isSlugChar c = true ->
  slugForm (l ++ [c]) /\ slugForm (l ++ ["-"%char; c]).
Proof.
  intros Hl Hc. induction Hl as [x Hx|x l Hx Hl [IH1 IH2]|x l Hx Hl [IH1 IH2]];
    simpl; split; auto using slugForm.
Qed.

Lemma slugForm_rev l : slugForm l -> slugForm (rev l).
Proof.
  induction 1 as [c Hc|c l Hc Hl IH|c l Hc Hl IH]; simpl.
  - by constructor.
  - by apply slugForm_snoc.
  - rewrite <- app_assoc. simpl. by apply slugForm_snoc.
Qed.

Lemma toLowerCase_slugForm l : slugForm l -> toLowerCase l = l.
Proof.
  unfold toLowerCase, toLowerChar.
  induction 1 as [c Hc|c l Hc Hl IH|c l Hc Hl IH]; simpl;
    destruct (isSlugChar_cases c Hc) as (-> & _ & _); by rewrite ?IH.
Qed.

Lemma dropSpaces_slugForm l : slugForm l -> dropSpaces l = l.
Proof.
  intros (c & r & -> & Hc)%slugForm_head. simpl.
  by destruct (isSlugChar_cases c Hc) as (_ & -> & _).
Qed.

Lemma dropLeadingHyphen_slugForm l : slugForm l -> dropLeadingHyphen l = l.
Proof.
  intros (c & r & -> & Hc)%slugForm_head. simpl.
  by destruct (isSlugChar_cases c Hc) as (_ & _ & ->).
Qed.

Lemma trim_slugForm l : slugForm l -> trim l = l.
Proof.
  intros Hl. unfold trim. rewrite (dropSpaces_slugForm l Hl).
  rewrite dropSpaces_slugForm by by apply slugForm_rev. apply rev_involutive.
Qed.

Lemma stripHyphens_slugForm l : slugForm l -> stripHyphens l = l.
Proof.
  intros Hl. unfold stripHyphens. rewrite (dropLeadingHyphen_slugForm l Hl).
  rewrite dropLeadingHyphen_slugForm by by apply slugForm_rev.
  apply rev_involutive.
Qed.

Lemma collapseRuns_slugForm l inRun : slugForm l -> collapseRuns inRun l = l.
Proof.
  intros Hl. revert inRun.
  induction Hl as [c Hc|c l Hc Hl IH|c l Hc Hl IH]; intros inRun; simpl;
    rewrite Hc; [done|by rewrite IH|].
  by rewrite IH.
Qed.

Lemma trailing_cons c m :
  isSlugChar c = true ->
  trailing m \/ (exists m', m = "-"%char :: m' /\ trailing m') ->
  trailing (c :: m).
Proof.
  intros Hc [[->|(core & Hcore & [->| ->])]
            |(m' & -> & [->|(core & Hcore & [->| ->])])]; right.
  - exists [c]. split; [by constructor|by left].
  - exists (c :: core). split; [by constructor|by left].
  - exists (c :: core). split; [by constructor|by right].
  - exists [c]. split; [by constructor|by right].
  - exists (c :: "-"%char :: core). split; [by constructor|by left].
  - exists (c :: "-"%char :: core). split; [by constructor|by right].
Qed.

Lemma collapseRuns_shape l :
  trailing (collapseRuns true l)
  /\ (trailing (collapseRuns false l)
      \/ exists m, collapseRuns false l = "-"%char :: m /\ trailing m).
Proof.
  induction l as [|c l [IHt IHf]]; simpl.
  - split; [|left]; by left.
  - destruct (isSlugChar c) eqn:Hc.
    + split; [|left]; by apply trailing_cons.
    + split; [done|]. right. eauto.
Qed.

Lemma stripHyphens_hyphen_after core :
  slugForm core -> stripHyphens (core ++ ["-"%char]) = core.
Proof.
  intros Hcore. unfold stripHyphens.
  destruct (slugForm_head core Hcore) as (c & r & -> & Hc). simpl.
  destruct (isSlugChar_cases c Hc) as (_ & _ & ->).
  change (c :: r ++ ["-"%char]) with ((c :: r) ++ ["-"%char]).
  rewrite rev_app_distr. simpl. apply (rev_involutive (c :: r)).
Qed.

Lemma stripHyphens_trailing m :
  trailing m -> stripHyphens m = [] \/ slugForm (stripHyphens m).
Proof.
  intros [->|(core & Hcore & [->| ->])]; [by left|right..].
  - by rewrite stripHyphens_slugForm.
  - by rewrite stripHyphens_hyphen_after.
Qed.

Lemma dropLeadingHyphen_trailing m : trailing m -> dropLeadingHyphen m = m.
Proof.
  intros [->|(core & Hcore & [->| ->])]; [done|by apply dropLeadingHyphen_slugForm|].
  destruct (slugForm_head core Hcore) as (c & r & -> & Hc). simpl.
  by destruct (isSlugChar_cases c Hc) as (_ & _ & ->).
Qed.

Lemma stripHyphens_hyphen_before m :
  trailing m ->
  stripHyphens ("-"%char :: m) = [] \/ slugForm (stripHyphens ("-"%char :: m)).
Proof.
  intros Hm. assert (stripHyphens ("-"%char :: m) = stripHyphens m) as ->.
  { unfold stripHyphens. simpl. by rewrite (dropLeadingHyphen_trailing m Hm). }
  by apply stripHyphens_trailing.
Qed.

Lemma normalizeChars_form l :
  normalizeChars l = [] \/ slugForm (normalizeChars l).
Proof.
  unfold normalizeChars.
  destruct (collapseRuns_shape (trim (toLowerCase l)))
    as [_ [H|(m & -> & H)]].
  - by apply stripHyphens_trailing.
  - by apply stripHyphens_hyphen_before.
Qed.

Lemma normalizeChars_idempotent l :
  normalizeChars (normalizeChars l) = normalizeChars l.
Proof.
  destruct (normalizeChars_form l) as [->|H]; [reflexivity|].
  unfold normalizeChars at 1.
  rewrite (toLowerCase_slugForm _ H), (trim_slugForm _ H),
    (collapseRuns_slugForm _ _ H). by apply stripHyphens_slugForm.
Qed.

(** [normalizeSlug] leaves a normalized slug as it is. *)
Lemma normalizeSlug_idempotent sl :
  Admin.normalizeSlug (Admin.normalizeSlug sl) = Admin.normalizeSlug sl.
Proof.
  unfold Admin.normalizeSlug.
  rewrite list_ascii_of_string_of_list_ascii.
  by rewrite normalizeChars_idempotent.
Qed.

End Normalize.

(** ** Queries *)

Section Queries.
Import Admin.

Lemma queryPosts_elem (f : string -> PostDoc -> bool) (s : Store) id d :
  (id, d) ∈ queryPosts f s <-> posts s !! id = Some d /\ f id d = true.
Proof.
  unfold queryPosts. rewrite list_elem_of_In, filter_In.
  rewrite <- list_elem_of_In, elem_of_map_to_list. reflexivity.
Qed.

Lemma limit1_Some_elem {A} (l : list A) x : limit1 l = Some x -> x ∈ l.
Proof. destruct l; simpl; intros [= ->]. left. Qed.

Lemma limit1_None {A} (l : list A) : limit1 l = None <-> l = [].
Proof. destruct l; simpl; split; congruence. Qed.

(** What a query with [.limit(1)] returns is a stored document that
    passes the filters. *)
Lemma limit1_query_sound f s id d :
  limit1 (queryPosts f s) = Some (id, d) ->
  posts s !! id = Some d /\ f id d = true.
Proof. intros H. apply queryPosts_elem, limit1_Some_elem, H. Qed.

(** It is empty exactly when no stored document passes the filters. *)
Lemma limit1_query_None f s :
  limit1 (queryPosts f s) = None <->
  (forall id d, posts s !! id = Some d -> f id d = false).
Proof.
  rewrite limit1_None. split.
  - intros E id d Hd. destruct (f id d) eqn:Hf; [|done].
    assert ((id, d) ∈ queryPosts f s) as Hin by (apply queryPosts_elem; done).
    rewrite E in Hin. by apply elem_of_nil in Hin.
  - intros H. destruct (queryPosts f s) as [|[id d] l] eqn:E; [done|].
    assert ((id, d) ∈ queryPosts f s) as Hin by (rewrite E; left).
    apply queryPosts_elem in Hin as [Hd Hf]. rewrite (H _ _ Hd) in Hf. done.
Qed.

(** When exactly one document passes the filters, it is the answer. *)
Lemma limit1_query_unique f s id d :
  posts s !! id = Some d -> f id d = true ->
  (forall id' d', posts s !! id' = Some d' -> f id' d' = true -> id' = id) ->
  limit1 (queryPosts f s) = Some (id, d).
Proof.
  intros Hd Hf Huniq.
  destruct (limit1 (queryPosts f s)) as [[id' d']|] eqn:E.
  - apply limit1_query_sound in E as [Hd' Hf'].
    assert (id' = id) as -> by eauto. congruence.
  - rewrite limit1_query_None in E. rewrite (E _ _ Hd) in Hf. done.
Qed.

End Queries.

(** ** The first publication date *)

Section PublishedAt.
Import Admin Notions Samples.

Lemma publishPost_keeps_publishedAt id now s d t :
  posts s !! id = Some d -> publishedAt d = Some t ->
  publishedAtOf id (fst (publishPost id now s)) = Some (Some t).
Proof.
  intros Hd Ht. unfold publishedAtOf, publishPost. rewrite Hd. simpl.
  rewrite lookup_insert_eq. simpl. by rewrite Ht.
Qed.

Lemma unpublishPost_keeps_publishedAt id now s d :
  posts s !! id = Some d ->
  publishedAtOf id (fst (unpublishPost id now s)) = Some (publishedAt d).
Proof.
  intros Hd. unfold publishedAtOf, unpublishPost. rewrite Hd. simpl.
  by rewrite lookup_insert_eq.
Qed.

Lemma togglePostStatus_keeps_publishedAt id now s d t :
  posts s !! id = Some d -> publishedAt d = Some t ->
  publishedAtOf id (fst (togglePostStatus id now s)) = Some (Some t).
Proof.
  intros Hd Ht. unfold publishedAtOf, togglePostStatus. rewrite Hd. simpl.
  rewrite lookup_insert_eq. simpl. rewrite Ht. simpl.
  by rewrite andb_false_r.
Qed.

(** A patch without a status leaves [publishedAt] as it is. *)
Lemma updatePost_no_status_keeps_publishedAt id data now s d s' :
  posts s !! id = Some d -> p_status data = None ->
  updatePost id data now s = (s', Success tt) ->
  publishedAtOf id s' = Some (publishedAt d).
Proof.
  intros Hd Hst. unfold publishedAtOf, updatePost. rewrite Hd, Hst.
  case_match; intros [= <-]. simpl. by rewrite lookup_insert_eq.
Qed.

(** C1, where the code departs from it: [updatePost] does not keep the
    first publication date.  On a post first published at time 100, a
    save that carries status [draft] sets [publishedAt] to null, and after
    [unpublishPost], which keeps the date, a save that carries status
    [published] replaces it by the time of that save. *)
Theorem updatePost_loses_publishedAt :
  publishedAtOf "p1" store1 = Some (Some 100)
  /\ publishedAtOf "p1"
       (fst (updatePost "p1" (statusOnly draft) 200 store1)) = Some None
  /\ publishedAtOf "p1" (fst (unpublishPost "p1" 200 store1))
     = Some (Some 100)
  /\ publishedAtOf "p1"
       (fst (updatePost "p1" (statusOnly published) 300
               (fst (unpublishPost "p1" 200 store1))))
     = Some (Some 300).
Proof. vm_compute. repeat split. Qed.

End PublishedAt.

(** ** Preview links *)

Section Preview.
Import Admin Notions Samples.

Lemma previewMatches_holdsToken tok d :
  previewMatches tok d = true <-> holdsToken tok d.
Proof.
  unfold previewMatches, holdsToken. split.
  - destruct (preview d) as [pv|]; [|done].
    destruct (token pv) as [t|] eqn:Ht; [|done].
    intros [Heq Hen]%andb_true_iff. apply String.eqb_eq in Heq as ->.
    eauto.
  - intros (pv & -> & -> & ->). by rewrite String.eqb_refl.
Qed.

Lemma revoked_holds_no_token now d tok :
  previewMatches tok (withPreview (mkPreview None false now) d) = false.
Proof. reflexivity. Qed.

(** C7: [getPostByPreviewToken] answers with a post exactly when a stored
    post holds the given token with preview enabled, whatever the status
    of that post; the answer is such a post, and it is that very post when
    no other holds the token.  Otherwise the answer is null.
    [revokePreviewToken] stores a null token with [enabled] false, after
    which the revoked post is the answer for no token, and a token that no
    other post holds gets null, as a token that was never issued does. *)
Theorem preview_token_resolution :
  (forall tok s id d,
      getPostByPreviewToken tok s = Some (id, d) ->
      posts s !! id = Some d /\ holdsToken tok d)
  /\ (forall tok s id d,
         posts s !! id = Some d -> holdsToken tok d ->
         exists id' d', getPostByPreviewToken tok s = Some (id', d'))
  /\ (forall tok s id d,
         posts s !! id = Some d -> holdsToken tok d ->
         (forall id' d', posts s !! id' = Some d' -> holdsToken tok d' ->
                         id' = id) ->
         getPostByPreviewToken tok s = Some (id, d))
  /\ (forall tok s,
         getPostByPreviewToken tok s = None <->
         (forall id d, posts s !! id = Some d -> ~ holdsToken tok d))
  /\ (forall postId now s d,
         posts s !! postId = Some d ->
         let s' := fst (revokePreviewToken postId now s) in
         (preview <$> (posts s' !! postId))
           = Some (Some (mkPreview None false now))
         /\ (forall tok d', getPostByPreviewToken tok s' <> Some (postId, d'))
         /\ (forall tok,
                (forall id' d', id' <> postId -> posts s !! id' = Some d' ->
                                ~ holdsToken tok d') ->
                getPostByPreviewToken tok s' = None)).
Proof.
  unfold getPostByPreviewToken. repeat split.
  - by apply limit1_query_sound in H as [? ?].
  - apply limit1_query_sound in H as [_ H]. by apply previewMatches_holdsToken.
  - intros tok s id d Hd Hh.
    destruct (limit1 (queryPosts _ s)) as [[id' d']|] eqn:E; [eauto|].
    rewrite limit1_query_None in E. specialize (E _ _ Hd).
    apply previewMatches_holdsToken in Hh. simpl in E. congruence.
  - intros tok s id d Hd Hh Huniq. apply limit1_query_unique; [done| |].
    + by apply previewMatches_holdsToken.
    + intros id' d' Hd' Hm. apply (Huniq id' d' Hd').
      by apply previewMatches_holdsToken.
  - intros E id d Hd Hh. rewrite limit1_query_None in E.
    specialize (E _ _ Hd). apply previewMatches_holdsToken in Hh.
    simpl in E. congruence.
  - intros H. apply limit1_query_None. intros id d Hd.
    destruct (previewMatches tok d) eqn:E; [|done].
    apply previewMatches_holdsToken in E. by destruct (H _ _ Hd).
  - unfold revokePreviewToken. rewrite H. simpl.
    by rewrite lookup_insert_eq.
  - intros tok d' E. apply limit1_query_sound in E as [Hd' Hm].
    revert Hd'. unfold revokePreviewToken. rewrite H. simpl.
    rewrite lookup_insert_eq. intros [= <-].
    by rewrite revoked_holds_no_token in Hm.
  - intros tok Hothers. apply limit1_query_None. intros id' d'.
    unfold revokePreviewToken. rewrite H. simpl.
    destruct (decide (id' = postId)) as [->|Hne].
    + rewrite lookup_insert_eq. intros [= <-]. apply revoked_holds_no_token.
    + rewrite lookup_insert_ne by done. intros Hd'.
      destruct (previewMatches tok d') eqn:E; [|done].
      apply previewMatches_holdsToken in E. by destruct (Hothers _ _ Hne Hd').
Qed.

End Preview.

(** ** Slugs: conflicts, renames and redirects *)

Section Slugs.
Import Admin Notions Samples PostPage.

Lemma Status_eqb_eq a b : Status_eqb a b = true <-> a = b.
Proof. destruct a, b; simpl; split; congruence. Qed.

Lemma truthy_true sl : JS.truthy sl = true <-> sl <> "".
Proof. destruct sl; simpl; split; congruence. Qed.

(** Without an excluded post, a slug is available exactly when no post
    has its normal form as live slug. *)
Lemma isSlugAvailable_all sl s :
  isSlugAvailable sl None s = true <->
  (forall id d, posts s !! id = Some d -> slug d <> normalizeSlug sl).
Proof.
  unfold isSlugAvailable.
  destruct (limit1 (queryPosts _ s)) as [[fid fd]|] eqn:E.
  - apply limit1_query_sound in E as [Hd Hf]. simpl in Hf.
    apply String.eqb_eq in Hf. split; [done|]. intros H.
    by destruct (H _ _ Hd).
  - rewrite limit1_query_None in E. split; [|done]. intros _ id d Hd.
    specialize (E _ _ Hd). simpl in E. by apply String.eqb_neq.
Qed.

(** With the post itself excluded, and its own slug different, the same
    holds. *)
Lemma isSlugAvailable_excluding sl pid s dp :
  posts s !! pid = Some dp -> slug dp <> normalizeSlug sl ->
  isSlugAvailable sl (Some pid) s = true ->
  forall id d, posts s !! id = Some d -> slug d <> normalizeSlug sl.
Proof.
  unfold isSlugAvailable. intros Hp Hne.
  destruct (limit1 (queryPosts _ s)) as [[fid fd]|] eqn:E.
  - apply limit1_query_sound in E as [Hd Hf]. simpl in Hf.
    apply String.eqb_eq in Hf.
    intros [_ ->%String.eqb_eq]%andb_true_iff. congruence.
  - rewrite limit1_query_None in E. intros _ id d Hd.
    specialize (E _ _ Hd). simpl in E. by apply String.eqb_neq.
Qed.

(** C6 as stated fails: the slug [a] is among the retired slugs of the
    post [p1], no post has it as live slug, and a new post that asks for
    it is created with [a] as its live slug while [p1] still lists it. *)
Lemma retired_slug_can_be_claimed :
  let r := createPost (mkNewPost "New" "a" "" "text" draft) 300 "p2" store2 in
  (oldSlugs <$> (posts store2 !! "p1")) = Some ["a"]
  /\ snd r = Success "p2"
  /\ (slug <$> (posts (fst r) !! "p2")) = Some "a"
  /\ (oldSlugs <$> (posts (fst r) !! "p1")) = Some ["a"].
Proof. vm_compute. repeat split. Qed.

(** C6, amended: [createPost] refuses a slug whose normal form is the
    live slug of an existing post, with the error of an existing slug, and
    leaves the store as it is.  Retired slugs are not consulted: when no
    post has the normal form as live slug and the generated id is new, the
    post is created with that live slug, whatever the [oldSlugs] of the
    other posts contain. *)
Theorem createPost_conflict_on_live_slug data now newId s :
  ((exists pid d, posts s !! pid = Some d
                  /\ slug d = normalizeSlug (n_slug data)) ->
   createPost data now newId s
   = (s, Failure "A post with this slug already exists"))
  /\ ((forall pid d, posts s !! pid = Some d ->
                     slug d <> normalizeSlug (n_slug data)) ->
      posts s !! newId = None ->
      exists d', createPost data now newId s
                 = (setPosts (<[newId := d']> (posts s)) s, Success newId)
                 /\ slug d' = normalizeSlug (n_slug data)
                 /\ oldSlugs d' = []).
Proof.
  unfold createPost. split.
  - intros (pid & d & Hd & Hslug).
    destruct (isSlugAvailable _ None s) eqn:E; [|done].
    rewrite isSlugAvailable_all, normalizeSlug_idempotent in E.
    by destruct (E _ _ Hd).
  - intros Hfree Hnew.
    assert (isSlugAvailable (normalizeSlug (n_slug data)) None s = true) as ->.
    { apply isSlugAvailable_all. by rewrite normalizeSlug_idempotent. }
    simpl. rewrite Hnew. eauto.
Qed.

Lemma normalizeSlug_empty : normalizeSlug "" = "".
Proof. reflexivity. Qed.

(** A successful [updatePost] whose slug differs, in normal form, from
    the live slug: no post had the new slug, the post gets it, and the
    previous live slug joins [oldSlugs] unless it is empty or already
    there.  The other posts and all versions stay as they are. *)
Lemma updatePost_rename pid patch now s s' d b :
  posts s !! pid = Some d -> p_slug patch = Some b ->
  normalizeSlug b <> "" -> normalizeSlug b <> slug d ->
  updatePost pid patch now s = (s', Success tt) ->
  (forall id dd, posts s !! id = Some dd -> slug dd <> normalizeSlug b)
  /\ exists d',
      posts s' = <[pid := d']> (posts s)
      /\ slug d' = normalizeSlug b
      /\ oldSlugs d'
         = (if decide (slug d <> "" /\ slug d ∉ oldSlugs d)
            then (oldSlugs d ++ [slug d])%list else oldSlugs d)
      /\ status d' = default (status d) (p_status patch).
Proof.
  intros Hd Hb Hne Hdiff. unfold updatePost. rewrite Hd, Hb.
  assert (JS.truthy b = true) as ->.
  { apply truthy_true. intros ->. by rewrite normalizeSlug_empty in Hne. }
  apply truthy_true in Hne as Ht. rewrite Ht.
  apply String.eqb_neq in Hdiff as Hneq. rewrite Hneq. simpl.
  destruct (isSlugAvailable _ (Some pid) s) eqn:Hav; simpl; [|done].
  intros [= <-]. split.
  - rewrite <- (normalizeSlug_idempotent b).
    eapply isSlugAvailable_excluding; [exact Hd| |exact Hav].
    rewrite normalizeSlug_idempotent. congruence.
  - eexists. split; [reflexivity|]. simpl. split; [done|]. split; [|done].
    destruct (decide _) as [[Hs Hn]|Hno].
    + apply truthy_true in Hs as ->. simpl.
      by rewrite bool_decide_eq_false_2.
    + destruct (JS.truthy (slug d)) eqn:Hs; [|done]. simpl.
      apply truthy_true in Hs.
      rewrite bool_decide_eq_true_2; [done|].
      destruct (decide (slug d ∈ oldSlugs d)); [done|]. by destruct Hno.
Qed.

(** A request whose normal form is a retired slug of a published post is
    answered with a redirect to the live slug of that post, when no
    other published post uses the slug. *)
Lemma resolvePost_redirect req pid d s :
  posts s !! pid = Some d -> status d = published ->
  normalizeSlug req ∈ oldSlugs d -> slug d <> normalizeSlug req ->
  ~ referencedElsewhere pid (normalizeSlug req) s ->
  resolvePost req s = mkResolved (Some (pid, d)) true (Some (slug d)).
Proof.
  intros Hd Hpub Hold Hne Hother. unfold resolvePost.
  assert (getPostBySlug req s = None) as ->.
  { apply limit1_query_None. intros id dd Hdd.
    destruct (String.eqb (slug dd) _) eqn:E1; [|done].
    destruct (Status_eqb (status dd) published) eqn:E2; [|done].
    apply String.eqb_eq in E1. apply Status_eqb_eq in E2.
    destruct (decide (id = pid)) as [->|Hq]; [congruence|].
    destruct Hother. exists id, dd. auto. }
  assert (getPostByOldSlug req s = Some (pid, d)) as ->; [|done].
  apply limit1_query_unique; [done| |].
  - rewrite bool_decide_eq_true_2 by done. by apply Status_eqb_eq.
  - intros id dd Hdd [E1 E2]%andb_true_iff.
    apply bool_decide_eq_true_1 in E1. apply Status_eqb_eq in E2.
    destruct (decide (id = pid)) as [->|Hq]; [done|].
    destruct Hother. exists id, dd. auto.
Qed.

(** A request whose normal form is the live slug of a published post,
    which no other post has, is answered with that post. *)
Lemma resolvePost_direct req pid d s :
  posts s !! pid = Some d -> status d = published ->
  slug d = normalizeSlug req ->
  (forall q dq, q <> pid -> posts s !! q = Some dq ->
                slug dq <> normalizeSlug req) ->
  resolvePost req s = mkResolved (Some (pid, d)) false None.
Proof.
  intros Hd Hpub Hslug Hother. unfold resolvePost.
  assert (getPostBySlug req s = Some (pid, d)) as ->; [|done].
  apply limit1_query_unique; [done| |].
  - rewrite Hslug, String.eqb_refl. by apply Status_eqb_eq.
  - intros id dd Hdd [E1%String.eqb_eq _]%andb_true_iff.
    destruct (decide (id = pid)) as [->|Hq]; [done|].
    by destruct (Hother _ _ Hq Hdd).
Qed.

Lemma referencedElsewhere_other_posts pid sl s s' :
  (forall q, q <> pid -> posts s' !! q = posts s !! q) ->
  referencedElsewhere pid sl s' -> referencedElsewhere pid sl s.
Proof.
  intros Hsame (q & dq & Hq & Hdq & H). exists q, dq.
  rewrite <- (Hsame q Hq). auto.
Qed.

Lemma status_after_patch st (o : option Status) :
  st = published -> o <> Some draft -> default st o = published.
Proof. intros -> H. destruct o as [[]|]; simpl; congruence. Qed.

Lemma retire_slug_spec (old : list string) (sl : string) :
  let old' :=
    if decide (sl <> "" /\ sl ∉ old) then (old ++ [sl])%list else old in
  (sl <> "" -> sl ∈ old')
  /\ (forall x, x ∈ old -> x ∈ old')
  /\ (NoDup old -> NoDup old').
Proof.
  simpl. destruct (decide _) as [[Hs Hn]|Hno]; repeat split; try done.
  - intros _. apply elem_of_app. right. by left.
  - intros x Hx. apply elem_of_app. by left.
  - intros Hnd. apply NoDup_app. split; [done|]. split.
    + intros x Hx ->%list_elem_of_singleton. done.
    + apply NoDup_singleton.
  - intros Hs. destruct (decide (sl ∈ old)); [done|]. by destruct Hno.
Qed.

(** C5 as stated fails: a draft is renamed from [a] to [b] and then to
    [c]; both updates succeed and retire the previous slug, but neither
    [a] nor [b] redirects and [c] does not return the post, because the
    public lookups see published posts only. *)
Lemma renamed_draft_does_not_resolve :
  snd (updatePost "p1" (slugOnly "b") 60 store3) = Success tt
  /\ snd (updatePost "p1" (slugOnly "c") 70
            (fst (updatePost "p1" (slugOnly "b") 60 store3))) = Success tt
  /\ (slug <$> (posts store3_renamed !! "p1")) = Some "c"
  /\ (oldSlugs <$> (posts store3_renamed !! "p1")) = Some ["a"; "b"]
  /\ resolvePost "a" store3_renamed = mkResolved None false None
  /\ resolvePost "b" store3_renamed = mkResolved None false None
  /\ resolvePost "c" store3_renamed = mkResolved None false None.
Proof. vm_compute. repeat split. Qed.

(** C5, amended: let a published post with the non-empty live slug [A] be
    renamed to [B] and then to [C] by two successful updates that do not
    set it back to draft, the three slugs being distinct and [A] and [B]
    being neither live nor retired slug of another published post.  Each
    update stores the new live slug together with the retired one: the
    previous slug joins [oldSlugs] once, so a list without duplicates
    stays so.  Afterwards the post has the one live slug [C]; a request
    for [A] or for [B] is answered with a redirect to [C], and a request
    for [C] with the post itself. *)
Theorem rename_twice_redirects
    pid d0 patch1 patch2 b c now1 now2 s0 s1 s2 :
  posts s0 !! pid = Some d0 ->
  status d0 = published ->
  p_slug patch1 = Some b -> p_status patch1 <> Some draft ->
  p_slug patch2 = Some c -> p_status patch2 <> Some draft ->
  slug d0 <> "" -> normalizeSlug b <> "" -> normalizeSlug c <> "" ->
  slug d0 <> normalizeSlug b -> normalizeSlug b <> normalizeSlug c ->
  slug d0 <> normalizeSlug c ->
  ~ referencedElsewhere pid (slug d0) s0 ->
  ~ referencedElsewhere pid (normalizeSlug b) s0 ->
  updatePost pid patch1 now1 s0 = (s1, Success tt) ->
  updatePost pid patch2 now2 s1 = (s2, Success tt) ->
  exists d1 d2,
    posts s1 !! pid = Some d1 /\ posts s2 !! pid = Some d2
    /\ slug d1 = normalizeSlug b /\ slug d2 = normalizeSlug c
    /\ slug d0 ∈ oldSlugs d1
    /\ slug d0 ∈ oldSlugs d2 /\ normalizeSlug b ∈ oldSlugs d2
    /\ (NoDup (oldSlugs d0) -> NoDup (oldSlugs d1) /\ NoDup (oldSlugs d2))
    /\ (forall req, normalizeSlug req = slug d0 ->
          resolvePost req s2
          = mkResolved (Some (pid, d2)) true (Some (normalizeSlug c)))
    /\ (forall req, normalizeSlug req = normalizeSlug b ->
          resolvePost req s2
          = mkResolved (Some (pid, d2)) true (Some (normalizeSlug c)))
    /\ (forall req, normalizeSlug req = normalizeSlug c ->
          resolvePost req s2 = mkResolved (Some (pid, d2)) false None).
Proof.
  intros Hd0 Hpub Hb Hst1 Hc Hst2 HA HB HC HAB HBC HAC HrefA HrefB Hup1 Hup2.
  destruct (updatePost_rename _ _ _ _ _ _ _ Hd0 Hb HB (not_eq_sym HAB) Hup1)
    as (_ & d1 & Hp1 & Hs1 & Ho1 & Hstat1).
  assert (posts s1 !! pid = Some d1) as Hd1
    by (rewrite Hp1; apply lookup_insert_eq).
  assert (normalizeSlug c <> slug d1) as HCB by (rewrite Hs1; congruence).
  destruct (updatePost_rename _ _ _ _ _ _ _ Hd1 Hc HC HCB Hup2)
    as (HfreeC & d2 & Hp2 & Hs2 & Ho2 & Hstat2).
  assert (posts s2 !! pid = Some d2) as Hd2
    by (rewrite Hp2; apply lookup_insert_eq).
  assert (forall q, q <> pid -> posts s2 !! q = posts s0 !! q) as Hsame.
  { intros q Hq. rewrite Hp2, lookup_insert_ne, Hp1, lookup_insert_ne; done. }
  assert (forall q, q <> pid -> posts s2 !! q = posts s1 !! q) as Hsame1.
  { intros q Hq. rewrite Hp2, lookup_insert_ne; done. }
  assert (status d2 = published) as Hpub2.
  { rewrite Hstat2. apply status_after_patch; [|done].
    rewrite Hstat1. by apply status_after_patch. }
  destruct (retire_slug_spec (oldSlugs d0) (slug d0)) as (HinA & _ & Hnd1).
  destruct (retire_slug_spec (oldSlugs d1) (slug d1)) as (HinB & Hkeep & Hnd2).
  rewrite <- Ho1 in HinA, Hnd1. rewrite <- Ho2 in HinB, Hkeep, Hnd2.
  assert (slug d0 ∈ oldSlugs d2) as HA2 by auto.
  assert (normalizeSlug b ∈ oldSlugs d2) as HB2.
  { rewrite <- Hs1. apply HinB. by rewrite Hs1. }
  exists d1, d2. repeat split; auto.
  - intros req Hreq. rewrite <- Hs2.
    apply resolvePost_redirect; rewrite ?Hreq; auto; [congruence|].
    intros H. by apply HrefA, (referencedElsewhere_other_posts pid _ s0 s2).
  - intros req Hreq. rewrite <- Hs2.
    apply resolvePost_redirect; rewrite ?Hreq; auto; [congruence|].
    intros H. by apply HrefB, (referencedElsewhere_other_posts pid _ s0 s2).
  - intros req Hreq. apply resolvePost_direct; rewrite ?Hreq; auto.
    intros q dq Hq Hdq. rewrite Hsame1 in Hdq by done. eauto.
Qed.

End Slugs.

(** ** Version snapshots and their retention *)

Section Versions.
Import Admin Notions Samples.

#[local] Instance newerFirst_total : Total newerFirst.
Proof.
  intros [i a] [j b]. unfold newerFirst. simpl.
  destruct (Z.lt_trichotomy (v_createdAt a) (v_createdAt b)) as [H|[H|H]];
    [right; by left| |left; left; lia].
  destruct (total String.le i j); [right|left]; right; auto.
Qed.

#[local] Instance newerFirst_trans : Transitive newerFirst.
Proof.
  intros [i a] [j b] [k c]. unfold newerFirst. simpl.
  intros [H1|[H1 L1]] [H2|[H2 L2]]; [left; lia..|].
  right. split; [lia|]. by etrans.
Qed.

Lemma orderBy_perm (vs : gmap string VersionDoc) :
  orderByCreatedAtDesc vs ≡ₚ map_to_list vs.
Proof. apply merge_sort_Permutation. Qed.

Lemma orderBy_length (vs : gmap string VersionDoc) :
  length (orderByCreatedAtDesc vs) = size vs.
Proof. by rewrite orderBy_perm, length_map_to_list. Qed.

Lemma orderBy_sorted (vs : gmap string VersionDoc) :
  StronglySorted newerFirst (orderByCreatedAtDesc vs).
Proof. apply StronglySorted_merge_sort; apply _. Qed.

Lemma orderBy_elem (vs : gmap string VersionDoc) k v :
  (k, v) ∈ orderByCreatedAtDesc vs <-> vs !! k = Some v.
Proof. by rewrite orderBy_perm, elem_of_map_to_list. Qed.

(** Deleting the documents of [l2] from a collection that consists of
    [l1] and [l2] leaves [l1]. *)
Lemma deleteDocs_perm (l2 l1 : list (string * VersionDoc))
    (vs : gmap string VersionDoc) :
  map_to_list vs ≡ₚ l1 ++ l2 -> map_to_list (deleteDocs l2 vs) ≡ₚ l1.
Proof.
  revert l1. induction l2 as [|[k v] l2 IH]; intros l1 Hp; simpl.
  - by rewrite app_nil_r in Hp.
  - assert (map_to_list (deleteDocs l2 vs) ≡ₚ (k, v) :: l1) as Hp'.
    { apply IH. rewrite Hp. symmetry. apply Permutation_middle. }
    assert (deleteDocs l2 vs !! k = Some v) as Hk.
    { apply elem_of_map_to_list. rewrite Hp'. left. }
    apply (Permutation_cons_inv (a := (k, v))).
    by rewrite map_to_list_delete.
Qed.

Lemma evict_perm (vs : gmap string VersionDoc) :
  map_to_list (evict vs) ≡ₚ take MAX_VERSIONS (orderByCreatedAtDesc vs).
Proof.
  unfold evict. destruct (Nat.ltb_spec MAX_VERSIONS
                            (length (orderByCreatedAtDesc vs))) as [H|H].
  - apply deleteDocs_perm. by rewrite take_drop, orderBy_perm.
  - by rewrite take_ge, orderBy_perm.
Qed.

Lemma evict_size (vs : gmap string VersionDoc) :
  size (evict vs) = (size vs `min` MAX_VERSIONS)%nat.
Proof.
  rewrite <- length_map_to_list, evict_perm, length_take, orderBy_length.
  lia.
Qed.

Lemma evict_small (vs : gmap string VersionDoc) :
  (size vs <= MAX_VERSIONS)%nat -> evict vs = vs.
Proof.
  intros H. unfold evict. rewrite orderBy_length.
  by destruct (Nat.ltb_spec MAX_VERSIONS (size vs)); [lia|].
Qed.

(** A version that survives the clean-up was there before it. *)
Lemma evict_lookup (vs : gmap string VersionDoc) k v :
  evict vs !! k = Some v -> vs !! k = Some v.
Proof.
  rewrite <- elem_of_map_to_list, evict_perm. intros H.
  apply orderBy_elem. rewrite <- (take_drop MAX_VERSIONS).
  apply elem_of_app. by left.
Qed.

(** A version that survives is at least as new as one that does not. *)
Lemma evict_newest (vs : gmap string VersionDoc) k v k' v' :
  evict vs !! k = Some v -> vs !! k' = Some v' -> evict vs !! k' = None ->
  newerFirst (k, v) (k', v').
Proof.
  intros Hk Hk' Hgone.
  apply elem_of_map_to_list in Hk. rewrite evict_perm in Hk.
  apply orderBy_elem in Hk'.
  rewrite <- (take_drop MAX_VERSIONS (orderByCreatedAtDesc vs)) in Hk'.
  apply elem_of_app in Hk' as [Hin|Hin].
  - rewrite <- evict_perm in Hin. apply elem_of_map_to_list in Hin.
    congruence.
  - eapply (StronglySorted_app_1_elem_of newerFirst); [|exact Hk|exact Hin].
    rewrite take_drop. apply orderBy_sorted.
Qed.

Lemma newerFirst_createdAt a b :
  newerFirst a b -> v_createdAt (snd b) <= v_createdAt (snd a).
Proof. unfold newerFirst. lia. Qed.

Lemma versionsOf_setVersionsOf postId vs s :
  versionsOf postId (setVersionsOf postId vs s) = vs.
Proof. unfold versionsOf, setVersionsOf. simpl. by rewrite lookup_insert_eq. Qed.

(** What a successful [createVersion] has done. *)
Lemma createVersion_Success postId note now newId s s' vid :
  createVersion postId note now newId s = (s', Success vid) ->
  exists d,
    posts s !! postId = Some d
    /\ versionsOf postId s !! newId = None
    /\ vid = newId
    /\ posts s' = posts s
    /\ versionsOf postId s'
       = evict (<[newId := snapshotOf d note now]> (versionsOf postId s)).
Proof.
  unfold createVersion. destruct (posts s !! postId) as [d|] eqn:Hd; [|done].
  destruct (versionsOf postId s !! newId) eqn:Hnew; [done|].
  intros [= <- <-]. exists d. repeat split; try done.
  by rewrite versionsOf_setVersionsOf.
Qed.

(** It succeeds when the post exists and the generated id is new. *)
Lemma createVersion_succeeds postId note now newId s d :
  posts s !! postId = Some d -> versionsOf postId s !! newId = None ->
  exists s', createVersion postId note now newId s = (s', Success newId).
Proof.
  intros Hd Hnew. unfold createVersion. rewrite Hd, Hnew. eauto.
Qed.

Lemma createVersion_size postId note now newId s s' vid :
  createVersion postId note now newId s = (s', Success vid) ->
  size (versionsOf postId s')
  = (S (size (versionsOf postId s)) `min` MAX_VERSIONS)%nat.
Proof.
  intros (d & _ & Hnew & _ & _ & ->)%createVersion_Success.
  by rewrite evict_size, map_size_insert_None.
Qed.

Lemma createVersions_app postId l1 l2 s :
  createVersions postId (l1 ++ l2) s
  = createVersions postId l1 s ≫= createVersions postId l2.
Proof.
  revert s. induction l1 as [|call l1 IH]; intros s; simpl; [done|].
  destruct (createVersion _ _ _ _ s) as [s1 [vid|err]]; [apply IH|done].
Qed.

Lemma createVersions_size postId calls s s' :
  calls <> [] -> createVersions postId calls s = Some s' ->
  size (versionsOf postId s')
  = ((size (versionsOf postId s) + length calls) `min` MAX_VERSIONS)%nat.
Proof.
  revert s. induction calls as [|call rest IH]; intros s Hne; [done|].
  simpl. destruct (createVersion _ _ _ _ s) as [s1 [vid|err]] eqn:E; [|done].
  apply createVersion_size in E. destruct rest as [|call' rest'].
  - simpl. intros [= <-]. rewrite E. lia.
  - intros H. rewrite (IH s1) by done. rewrite E. lia.
Qed.

(** As long as the cap is not exceeded, every snapshot taken is in the
    log, with its server time, next to what the log held before. *)
Lemma createVersions_below_cap postId calls s s' :
  (size (versionsOf postId s) + length calls <= MAX_VERSIONS)%nat ->
  createVersions postId calls s = Some s' ->
  (forall k v, versionsOf postId s !! k = Some v ->
               versionsOf postId s' !! k = Some v)
  /\ (forall call, call ∈ calls ->
        exists v, versionsOf postId s' !! vc_newId call = Some v
                  /\ v_createdAt v = vc_now call)
  /\ (forall k v, versionsOf postId s' !! k = Some v ->
        versionsOf postId s !! k = Some v
        \/ exists call, call ∈ calls /\ vc_newId call = k
                        /\ v_createdAt v = vc_now call).
Proof.
  revert s. induction calls as [|call rest IH]; intros s Hcap; simpl.
  { intros [= <-]. repeat split; auto. by intros call ?%elem_of_nil. }
  destruct (createVersion _ _ _ _ s) as [s1 [vid|err]] eqn:E; [|done].
  apply createVersion_Success in E as (d & _ & Hnew & _ & _ & Hvs1).
  simpl in Hcap.
  rewrite evict_small in Hvs1 by (rewrite map_size_insert_None by done; lia).
  intros Hrest. destruct (IH s1) as (Hkeep & Hall & Hfrom); [|done|].
  { rewrite Hvs1, map_size_insert_None by done. lia. }
  repeat split.
  - intros k v Hk. apply Hkeep. rewrite Hvs1, lookup_insert_ne; [done|].
    congruence.
  - intros c [->|Hin]%elem_of_cons; [|by apply Hall].
    eexists. split; [apply Hkeep; rewrite Hvs1; apply lookup_insert_eq|done].
  - intros k v Hk. destruct (Hfrom _ _ Hk) as [H1|(c & Hin & Hid & Ht)].
    + rewrite Hvs1 in H1. destruct (decide (vc_newId call = k)) as [<-|Hne].
      * rewrite lookup_insert_eq in H1. injection H1 as <-.
        right. exists call. split; [left|done].
      * rewrite lookup_insert_ne in H1 by done. by left.
    + right. exists c. split; [by right|done].
Qed.

(** Twenty-one successful calls on an empty log: the first twenty fill
    the log, the last one adds its snapshot and cleans up. *)
Lemma createVersions_21 postId calls s s' :
  versionsOf postId s = ∅ -> length calls = 21%nat ->
  createVersions postId calls s = Some s' ->
  exists first last s20 d,
    calls = (first ++ [last])%list
    /\ (forall call, call ∈ first ->
          exists v, versionsOf postId s20 !! vc_newId call = Some v
                    /\ v_createdAt v = vc_now call)
    /\ (forall k v, versionsOf postId s20 !! k = Some v ->
          exists call, call ∈ first /\ vc_newId call = k
                       /\ v_createdAt v = vc_now call)
    /\ versionsOf postId s20 !! vc_newId last = None
    /\ versionsOf postId s'
       = evict (<[vc_newId last := snapshotOf d (vc_note last) (vc_now last)]>
                  (versionsOf postId s20)).
Proof.
  intros Hempty Hlen Hrun.
  rewrite <- (take_drop 20 calls) in Hrun.
  assert (length (take 20 calls) = 20%nat) as Hl1
    by (rewrite length_take; lia).
  destruct (drop 20 calls) as [|last [|x rest]] eqn:Hdrop.
  - apply (f_equal length) in Hdrop. rewrite length_drop in Hdrop.
    simpl in Hdrop. lia.
  - rewrite createVersions_app in Hrun.
    destruct (createVersions postId (take 20 calls) s) as [s20|] eqn:E20;
      [|done].
    simpl in Hrun.
    destruct (createVersion _ _ _ _ s20) as [s1 [vid|err]] eqn:E; [|done].
    injection Hrun as ->.
    apply createVersion_Success in E as (d & _ & Hnew & _ & _ & Hvs).
    destruct (createVersions_below_cap _ _ _ _
                ltac:(rewrite Hempty, map_size_empty, Hl1;
                      unfold MAX_VERSIONS; lia) E20)
      as (_ & Hall & Hfrom).
    exists (take 20 calls), last, s20, d. repeat split; try done.
    + by rewrite <- Hdrop, take_drop.
    + intros k v Hk. destruct (Hfrom _ _ Hk) as [H|H]; [|done].
      by rewrite Hempty, lookup_empty in H.
  - apply (f_equal length) in Hdrop. rewrite length_drop in Hdrop.
    simpl in Hdrop. lia.
Qed.

(** C4: a successful [createVersion] leaves at most 20 versions, namely
    the 20 newest of the log with the new snapshot added (or all of them
    when there are fewer): what remains was in that log, and everything
    that remains was created no earlier than anything that was removed.
    The count after the call is the smaller of 20 and the count before
    plus one, whatever the count before was.  In particular 21 successful
    calls on an empty log leave exactly 20 versions, each the snapshot of
    one of the calls, and a snapshot that is gone was created no later
    than each of those that remain. *)
Theorem createVersion_retention :
  (forall postId note now newId s s' vid,
      createVersion postId note now newId s = (s', Success vid) ->
      exists d,
        posts s !! postId = Some d
        /\ (size (versionsOf postId s') <= 20)%nat
        /\ size (versionsOf postId s')
           = (S (size (versionsOf postId s)) `min` 20)%nat
        /\ (forall k v,
               versionsOf postId s' !! k = Some v ->
               <[newId := snapshotOf d note now]> (versionsOf postId s) !! k
               = Some v)
        /\ (forall k v k' v',
               versionsOf postId s' !! k = Some v ->
               <[newId := snapshotOf d note now]> (versionsOf postId s) !! k'
               = Some v' ->
               versionsOf postId s' !! k' = None ->
               v_createdAt v' <= v_createdAt v))
  /\ (forall postId calls s s',
         versionsOf postId s = ∅ -> length calls = 21%nat ->
         createVersions postId calls s = Some s' ->
         size (versionsOf postId s') = 20%nat
         /\ (forall k v,
                versionsOf postId s' !! k = Some v ->
                exists call, call ∈ calls /\ vc_newId call = k
                             /\ v_createdAt v = vc_now call)
         /\ (forall call,
                call ∈ calls ->
                versionsOf postId s' !! vc_newId call = None ->
                forall k v, versionsOf postId s' !! k = Some v ->
                            vc_now call <= v_createdAt v)).
Proof.
  split.
  - intros postId note now newId s s' vid E.
    pose proof (createVersion_size _ _ _ _ _ _ _ E) as Hsize.
    apply createVersion_Success in E as (d & Hd & Hnew & _ & _ & Hvs).
    exists d. unfold MAX_VERSIONS in Hsize. repeat split; [done|lia|done|..].
    + intros k v. rewrite Hvs. apply evict_lookup.
    + intros k v k' v'. rewrite Hvs. intros Hk Hk' Hgone.
      apply (newerFirst_createdAt (k, v) (k', v')). by eapply evict_newest.
  - intros postId calls s s' Hempty Hlen Hrun.
    assert (calls <> []) as Hne by (by intros ->).
    split; [|split].
    + rewrite (createVersions_size _ _ _ _ Hne Hrun).
      rewrite Hempty, map_size_empty, Hlen. reflexivity.
    + destruct (createVersions_21 _ _ _ _ Hempty Hlen Hrun)
        as (first & last & s20 & d & Hcalls & _ & Hfrom & Hnew & Hvs).
      subst calls. rewrite Hvs.
      intros k v Hk%evict_lookup.
      destruct (decide (vc_newId last = k)) as [<-|Hk'].
      * rewrite lookup_insert_eq in Hk. injection Hk as <-.
        exists last. split; [|done]. apply elem_of_app. right. left.
      * rewrite lookup_insert_ne in Hk by done.
        destruct (Hfrom _ _ Hk) as (call & Hin & Hid & Ht).
        exists call. split; [|done]. apply elem_of_app. by left.
    + destruct (createVersions_21 _ _ _ _ Hempty Hlen Hrun)
        as (first & last & s20 & d & Hcalls & Hall & _ & Hnew & Hvs).
      subst calls. rewrite Hvs.
      intros call Hin Hgone k v Hk.
      assert (exists v',
                 <[vc_newId last := snapshotOf d (vc_note last) (vc_now last)]>
                   (versionsOf postId s20) !! vc_newId call = Some v'
                 /\ v_createdAt v' = vc_now call) as (v' & Hv' & <-).
      { apply elem_of_app in Hin as [Hin| ->%list_elem_of_singleton].
        - destruct (Hall _ Hin) as (v' & Hv' & Ht). exists v'.
          split; [|done]. rewrite lookup_insert_ne; [done|]. congruence.
        - eexists. split; [apply lookup_insert_eq|done]. }
      apply (newerFirst_createdAt (k, v) (vc_newId call, v')).
      by eapply evict_newest.
Qed.

Lemma StronglySorted_filter {A} (R : relation A) (P : A -> Prop)
    `{forall x, Decision (P x)} (l : list A) :
  StronglySorted R l -> StronglySorted R (filter P l).
Proof.
  induction 1 as [|x l Hl IH Hx]; [constructor|].
  rewrite filter_cons. destruct (decide (P x)); [|done].
  constructor; [done|]. apply Forall_forall. intros y Hy.
  apply list_elem_of_filter in Hy as [_ Hy].
  rewrite Forall_forall in Hx. auto.
Qed.

Lemma filter_all {A} (P : A -> Prop) `{forall x, Decision (P x)} (l : list A) :
  (forall x, x ∈ l -> P x) -> filter P l = l.
Proof.
  induction l as [|x l IH]; intros Hall; [done|].
  rewrite filter_cons_True by (apply Hall; left).
  rewrite IH; [done|]. intros y Hy. apply Hall. by right.
Qed.

(** A new snapshot does not change the order in which the versions that
    were there before are listed. *)
Lemma orderBy_insert_others (vs : gmap string VersionDoc) newId snap :
  vs !! newId = None ->
  filter (fun x => fst x <> newId) (orderByCreatedAtDesc (<[newId := snap]> vs))
  = orderByCreatedAtDesc vs.
Proof.
  intros Hnew.
  assert (filter (fun x => fst x <> newId)
            (orderByCreatedAtDesc (<[newId := snap]> vs))
          ≡ₚ orderByCreatedAtDesc vs) as Hperm.
  { rewrite !orderBy_perm, map_to_list_insert by done.
    rewrite filter_cons_False by (simpl; auto).
    rewrite filter_all; [done|]. intros [k v] Hin%elem_of_map_to_list.
    simpl. congruence. }
  apply (StronglySorted_unique_strong newerFirst); [| | |done].
  - intros [k1 v1] [k2 v2] H1 H2 R12 R21.
    rewrite Hperm in H1. apply orderBy_elem in H1, H2.
    assert (k1 = k2) as ->.
    { unfold newerFirst in R12, R21. simpl in *.
      destruct R12 as [?|[? L1]], R21 as [?|[? L2]]; try lia.
      by apply (anti_symm String.le). }
    congruence.
  - apply StronglySorted_filter, orderBy_sorted.
  - apply orderBy_sorted.
Qed.

(** C8, where the code departs from it: a restore deletes a version.
    The log of [p1] holds 20 versions and the oldest, [v01], is restored.
    The snapshot taken first makes the log exceed 20, so the clean-up of
    [createVersion] deletes the oldest version, which is [v01] itself:
    after the successful restore the version that was restored is gone
    from the log, which holds 20 versions again, the snapshot
    [Before restore] among them. *)
Theorem restoreVersion_evicts_at_cap :
  let r := restoreVersion "p1" "v01" 200 "v21" 201 store4 in
  versionsOf "p1" store4 !! "v01" = Some (oldVersion 1)
  /\ size (versionsOf "p1" store4) = 20%nat
  /\ snd r = Success tt
  /\ versionsOf "p1" (fst r) !! "v01" = None
  /\ (v_note <$> (versionsOf "p1" (fst r) !! "v21")) = Some (Some "Before restore")
  /\ size (versionsOf "p1" (fst r)) = 20%nat.
Proof. vm_compute. repeat split. Qed.

(** What does hold of C8: for an existing post and an existing version
    [v] of it (the id generated for the snapshot being new),
    [restoreVersion] first
    adds one snapshot of the state before the restore, with the note
    [Before restore], and runs the clean-up of [createVersion]; then it
    copies title, slug, excerpt, content and status of [v] onto the post
    and sets [updatedAt], leaving [publishedAt] as it was whatever the
    status of [v].  When the log held fewer than 20 versions, no version
    is deleted - [v] and all others are still there, unchanged - and they
    are listed in the same order as before. *)
Lemma restoreVersion_snapshot_then_copy
    postId versionId snapTime newId now s d v :
  posts s !! postId = Some d ->
  versionsOf postId s !! versionId = Some v ->
  versionsOf postId s !! newId = None ->
  let r := restoreVersion postId versionId snapTime newId now s in
  let snap := snapshotOf d (Some "Before restore") snapTime in
  snd r = Success tt
  /\ v_note snap = Some "Before restore"
  /\ versionsOf postId (fst r)
     = evict (<[newId := snap]> (versionsOf postId s))
  /\ posts (fst r) !! postId = Some (restoredFrom v d now)
  /\ publishedAt (restoredFrom v d now) = publishedAt d
  /\ ((size (versionsOf postId s) < 20)%nat ->
      versionsOf postId (fst r) = <[newId := snap]> (versionsOf postId s)
      /\ versionsOf postId (fst r) !! versionId = Some v
      /\ (forall k w, versionsOf postId s !! k = Some w ->
                      versionsOf postId (fst r) !! k = Some w)
      /\ filter (fun x => fst x <> newId) (getVersions postId (fst r))
         = getVersions postId s).
Proof.
  intros Hd Hv Hnew r snap.
  destruct (createVersion_succeeds postId (Some "Before restore") snapTime
              newId s d Hd Hnew) as (s1 & E).
  pose proof E as (d' & Hd' & _ & _ & Hposts & Hvs)%createVersion_Success.
  assert (d' = d) as -> by congruence.
  assert (r = (setPosts (<[postId := restoredFrom v d now]> (posts s1)) s1,
               Success tt)) as Hr.
  { unfold r, restoreVersion. rewrite Hd, Hv, E. simpl.
    by rewrite Hposts, Hd. }
  assert (versionsOf postId (fst r) = versionsOf postId s1) as Hsame
    by (by rewrite Hr).
  repeat split.
  - by rewrite Hr.
  - by rewrite Hsame.
  - rewrite Hr. simpl. apply lookup_insert_eq.
  - rewrite Hsame, Hvs. apply evict_small.
    rewrite map_size_insert_None by done. unfold MAX_VERSIONS. lia.
  - rewrite Hsame, Hvs, evict_small
      by (rewrite map_size_insert_None by done; unfold MAX_VERSIONS; lia).
    rewrite lookup_insert_ne; [done|]. congruence.
  - intros k w Hk. rewrite Hsame, Hvs, evict_small
      by (rewrite map_size_insert_None by done; unfold MAX_VERSIONS; lia).
    rewrite lookup_insert_ne; [done|]. congruence.
  - unfold getVersions. rewrite Hsame, Hvs, evict_small
      by (rewrite map_size_insert_None by done; unfold MAX_VERSIONS; lia).
    by apply orderBy_insert_others.
Qed.

End Versions.

(** ** The save coordinator *)

Section SaveCoordinator.
Import PostEditor.

(** Unfold the callbacks down to the setters and split on every test. *)
Ltac callbacks :=
  unfold step, fieldsEffect, handleChange, handleManualSave,
    handleVersionRestore, debounceExpires, autoSave, followUp, requestSave,
    performSave, performSave_dispatch, performSave_complete,
    performSave_resume, performSave_return, performSave_errorBody,
    performSave_finally, performSave_settle, performSave_catch,
    debouncedSave, cancelDebouncedSave in *;
  repeat case_match; simplify_eq; simpl in *.

(** Sequence numbers only grow. *)
Lemma step_saveId_mono e s : (saveId s <= saveId (step e s))%nat.
Proof. callbacks; lia. Qed.

Lemma run_saveId_mono events s : (saveId s <= saveId (run events s))%nat.
Proof.
  revert s. induction events as [|e events IH]; intros s; simpl; [lia|].
  etrans; [apply (step_saveId_mono e)|apply IH].
Qed.

(** A token lets the suspended call send its request under the next
    sequence number. *)
Lemma dispatch_saveId n tok call s :
  awaitingToken s !! n = Some call ->
  saveId (step (TokenReady n (Some tok)) s) = S (saveId s).
Proof. intros H. simpl. by rewrite H. Qed.

Lemma findRequest_saveId thisSaveId l request :
  findRequest thisSaveId l = Some request -> r_saveId request = thisSaveId.
Proof.
  unfold findRequest. intros [_ H]%find_some. by apply Nat.eqb_eq in H.
Qed.

(** For a request that is not the latest one sent, the [try] block does
    nothing but, after a successful creation, assign [currentPostIdRef]:
    the call returns at the stale check. *)
Lemma performSave_complete_stale_return request out clock s :
  r_saveId request <> saveId s ->
  performSave_complete request out clock s = performSave_return request s
  \/ exists b statusCode,
      out = Response statusCode (Some b)
      /\ idTruthy (r_target request) = false
      /\ performSave_complete request out clock s
         = performSave_return request (set_currentPostId (b_id b) s).
Proof.
  intros Hne. apply Nat.eqb_neq in Hne.
  unfold performSave_complete, performSave_settle, performSave_catch, stale.
  destruct out as [statusCode body|]; simpl; rewrite ?Hne; simpl; [|by left].
  destruct (idTruthy (r_target request)); [by left|].
  destruct (ok statusCode); [|by left].
  destruct body as [b|]; [|by left]. right. by exists b, statusCode.
Qed.

(** The completion of a request that is not the latest one sent leaves
    the save state, the last saved snapshot and the ids given to
    [onSaveSuccess] as they are, and does not call [onAuthError]. *)
Lemma performSave_complete_stale request out clock s :
  r_saveId request <> saveId s ->
  let s' := performSave_complete request out clock s in
  saveState s' = saveState s
  /\ lastSavedData s' = lastSavedData s
  /\ onSaveSuccessLog s' = onSaveSuccessLog s
  /\ onAuthErrorCount s' = onAuthErrorCount s.
Proof.
  intros Hne.
  destruct (performSave_complete_stale_return request out clock s Hne)
    as [E|(b & c & _ & _ & E)]; simpl; rewrite E;
    unfold performSave_return, performSave_finally; simpl;
    by destruct (pendingSave s).
Qed.

Lemma step_Completed_stale thisSaveId out clock s :
  thisSaveId <> saveId s ->
  let s' := step (Completed thisSaveId out clock) s in
  saveState s' = saveState s
  /\ lastSavedData s' = lastSavedData s
  /\ onSaveSuccessLog s' = onSaveSuccessLog s
  /\ onAuthErrorCount s' = onAuthErrorCount s.
Proof.
  intros Hne. simpl.
  destruct (findRequest thisSaveId (inFlight s)) as [request|] eqn:E; [|done].
  apply findRequest_saveId in E.
  destruct (readsErrorBody thisSaveId s); [done|].
  apply (performSave_complete_stale request out clock s). congruence.
Qed.

(** What does hold of C2: let save A be sent, and later save B, whatever
    happens in between.  When the outcome of A arrives after the response
    of B was handled, be it a response with any status or a network
    failure, handling it changes neither the save state, nor the last
    saved snapshot, nor the ids passed to [onSaveSuccess]. *)
Lemma stale_arrival_keeps_save_state
    s0 nA tokA callA mid1 nB tokB callB mid2 outB clockB mid3 outA clockA :
  let sA := step (TokenReady nA (Some tokA)) s0 in
  let sB := step (TokenReady nB (Some tokB)) (run mid1 sA) in
  let idA := saveId sA in
  let idB := saveId sB in
  let s3 := step (Completed idB outB clockB) (run mid2 sB) in
  let s4 := run mid3 s3 in
  let s5 := step (Completed idA outA clockA) s4 in
  awaitingToken s0 !! nA = Some callA ->
  awaitingToken (run mid1 sA) !! nB = Some callB ->
  idA = S (saveId s0) /\ (idA < idB)%nat
  /\ saveState s5 = saveState s4
  /\ lastSavedData s5 = lastSavedData s4
  /\ onSaveSuccessLog s5 = onSaveSuccessLog s4.
Proof.
  intros sA sB idA idB s3 s4 s5 HA HB.
  assert (idB = S (saveId (run mid1 sA))) as HidB
    by (by apply (dispatch_saveId nB tokB callB)).
  pose proof (run_saveId_mono mid1 sA) as H1.
  pose proof (run_saveId_mono mid2 sB) as H2.
  pose proof (step_saveId_mono (Completed idB outB clockB) (run mid2 sB)) as H3.
  pose proof (run_saveId_mono mid3 s3) as H4.
  fold idA in H1. fold idB in H2. fold s3 in H3, H4. fold s4 in H4.
  assert (idA < idB)%nat as Hlt by lia.
  split; [by apply (dispatch_saveId nA tokA callA)|]. split; [done|].
  destruct (step_Completed_stale idA outA clockA s4) as (E1 & E2 & E3 & _);
    [lia|]. auto.
Qed.

(** C2, where the code departs from it: the completion of a save that is
    no longer the latest does change state.

    New post: two saves are sent before either is answered, so both
    create a post.  The later one, B, is answered first and the editor
    holds the id [Y], which [onSaveSuccess] received; then the earlier
    one, A, is answered and [currentPostIdRef] becomes [X] - it is
    assigned before the sequence numbers are compared - so the next save
    updates the post [X].

    Third save: after B was answered a save C is sent and a further
    request sets the pending flag.  The failure of A, which comes then,
    runs the [finally] block: [isSavingRef] is reset while C is in
    flight, the flag is consumed, and the timer it sets sends the content
    of A once more, after the newer content of B had been saved.

    Failed response: A is answered with status 500 while it is the
    latest, and waits for the body.  Meanwhile B is sent and answered
    with success.  When the body of A has been read, the save state
    [saved] of B is overwritten with the error of A. *)
Theorem stale_completion_mutates_state :
  let bCreated := run EditorSamples.twoCreatesThenB EditorSamples.creating in
  let aCreated := step (Completed 1 (EditorSamples.created "X") 11) bCreated in
  let nextSave := run EditorSamples.oneMoreSave aCreated in
  let cSent := run EditorSamples.thirdSaveAndRequest EditorSamples.bothInFlight in
  let aFailed := step (Completed 1 NetworkError 11) cSent in
  let resent := run [FollowUpFires; TokenReady 0 (Some "token")] aFailed in
  let bSaved := run EditorSamples.supersededWhileReading
                    EditorSamples.bothSuspended in
  let aRead := step (ErrorBodyRead 0) bSaved in
  (r_saveId <$> inFlight bCreated = [1%nat] /\ saveId bCreated = 2%nat
   /\ currentPostId bCreated = Some "Y"
   /\ onSaveSuccessLog bCreated = ["Y"]
   /\ currentPostId aCreated = Some "X"
   /\ onSaveSuccessLog aCreated = ["Y"]
   /\ (r_target <$> inFlight nextSave) = [Some "X"])
  /\ (r_saveId <$> inFlight cSent = [1%nat; 3%nat] /\ saveId cSent = 3%nat
      /\ lastSavedData cSent = EditorSamples.d2
      /\ isSaving cSent = true /\ pendingSave cSent = true
      /\ followUps cSent = []
      /\ isSaving aFailed = false /\ pendingSave aFailed = false
      /\ followUps aFailed = [EditorSamples.d1]
      /\ r_saveId <$> inFlight aFailed = [3%nat]
      /\ ((fun r => (r_saveId r, r_data r)) <$> inFlight resent)
         = [(3%nat, EditorSamples.d3); (4%nat, EditorSamples.d1)])
  /\ (saveId bSaved = 2%nat
      /\ (r_saveId ∘ fst <$> awaitingErrorBody bSaved) = [1%nat]
      /\ saveState bSaved = saved 10
      /\ lastSavedData bSaved = EditorSamples.d2
      /\ saveState aRead = error "Server error"
      /\ lastSavedData aRead = EditorSamples.d2).
Proof. vm_compute. repeat split. Qed.

(** C10 as stated fails: the save of [d1] is answered with status 401
    after a later save was sent (and answered).  Its response is dropped
    at the stale check, which comes before the test of the status: the
    save state stays [saved] and [onAuthError] is not called. *)
Lemma stale_auth_failure_not_signalled :
  let before := run (removelast EditorSamples.overlappingSaves)
                    EditorSamples.editing in
  let after := run EditorSamples.overlappingSaves EditorSamples.editing in
  r_saveId <$> inFlight before = [1%nat]
  /\ saveId before = 2%nat
  /\ saveState after = saved 10
  /\ onAuthErrorCount after = 0%nat.
Proof. vm_compute. repeat split. Qed.

(** C10, amended: when the response of a save has status 401 or 403 and
    no later save has been sent, the save state becomes [error] with the
    message of an expired authentication and [onAuthError] is called
    once.  When a later save has been sent, the response is dropped:
    neither the save state nor the count of [onAuthError] calls changes.
    A save that gets no token sets [error] and calls [onAuthError]
    before anything is sent. *)
Theorem auth_failure_signalled_unless_stale request statusCode body clock s :
  statusCode = 401 \/ statusCode = 403 ->
  let s' := performSave_complete request (Response statusCode body) clock s in
  (r_saveId request = saveId s ->
   saveState s' = error "Authentication expired"
   /\ onAuthErrorCount s' = S (onAuthErrorCount s))
  /\ (r_saveId request <> saveId s ->
      saveState s' = saveState s
      /\ onAuthErrorCount s' = onAuthErrorCount s)
  /\ (forall call,
         let s'' := performSave_dispatch call None s in
         saveState s'' = error "Not authenticated"
         /\ onAuthErrorCount s'' = S (onAuthErrorCount s)
         /\ inFlight s'' = inFlight s).
Proof.
  intros Hcode s'. split; [|split].
  - intros Hlatest. apply Nat.eqb_eq in Hlatest. subst s'.
    unfold performSave_complete, performSave_settle, performSave_return,
      performSave_finally, stale.
    destruct Hcode as [-> | ->]; simpl; rewrite ?Hlatest; simpl;
      destruct (idTruthy (r_target request)); simpl; rewrite ?Hlatest; simpl;
      by destruct (pendingSave s).
  - intros Hstale.
    destruct (performSave_complete_stale request (Response statusCode body)
                clock s Hstale) as (? & _ & _ & ?). auto.
  - intros call. simpl. auto.
Qed.

(** While [isSavingRef] is set, [requestSave] sends nothing: it sets the
    pending flag when the draft it sees is dirty, and does nothing
    else. *)
Lemma requestSave_while_saving cur createVersion versionNote s :
  isSaving s = true ->
  requestSave cur createVersion versionNote s
  = if isDirty cur s then set_pendingSave true s else s.
Proof.
  intros H. unfold requestSave. rewrite H. by destruct (isDirty cur s).
Qed.

(** The flag is no counter: a further request changes nothing. *)
Lemma requestSave_flag_already_set cur createVersion versionNote s :
  isSaving s = true -> pendingSave s = true ->
  requestSave cur createVersion versionNote s = s.
Proof.
  intros H1 H2. rewrite requestSave_while_saving by done.
  destruct (isDirty cur s); [|done]. destruct s. simpl in *. by subst.
Qed.

(** The [finally] block clears the flag and, when it was set, sets one
    timer, whose closure holds the data of the request. *)
Lemma performSave_finally_pending request s :
  let s' := performSave_finally request s in
  isSaving s' = false /\ pendingSave s' = false
  /\ followUps s'
     = (if pendingSave s then (followUps s ++ [r_data request])%list
        else followUps s)
  /\ awaitingToken s' = awaitingToken s /\ inFlight s' = inFlight s.
Proof.
  unfold performSave_finally. simpl.
  destruct (pendingSave s) eqn:E; simpl; auto.
Qed.

(** The timer starts at most one save, without a version. *)
Lemma followUp_call cur s :
  followUp cur s
  = if isDirty cur s
    then set_awaitingToken
           (awaitingToken s ++ [mkCall cur false None])%list s
    else s.
Proof. reflexivity. Qed.

Lemma isPostDataEqual_refl d : isPostDataEqual d d = true.
Proof.
  unfold isPostDataEqual. rewrite !String.eqb_refl. by destruct (status d).
Qed.

(** After an update that succeeded and is the latest, the closure of its
    follow-up timer is not dirty: what it compares with the last saved
    snapshot is the data that has just become that snapshot. *)
Lemma followUp_after_success request statusCode body clock s :
  r_saveId request = saveId s -> idTruthy (r_target request) = true ->
  ok statusCode = true ->
  let s' := performSave_complete request (Response statusCode body) clock s in
  lastSavedData s' = r_data request
  /\ isDirty (r_data request) s' = false.
Proof.
  intros Hlatest Hpatch Hok. apply Nat.eqb_eq in Hlatest.
  assert (lastSavedData
            (performSave_complete request (Response statusCode body) clock s)
          = r_data request) as Hsaved.
  { unfold performSave_complete, performSave_settle, performSave_return,
      performSave_finally, stale, ok in *.
    rewrite Hpatch, Hlatest. simpl.
    assert ((statusCode =? 401) || (statusCode =? 403) = false) as ->
      by (apply orb_false_iff; lia).
    rewrite Hok. simpl.
    destruct (r_target request) as [i|]; [destruct (JS.truthy i)|]; simpl;
      by destruct (pendingSave s). }
  simpl. split; [done|]. unfold isDirty. rewrite Hsaved.
  by rewrite isPostDataEqual_refl.
Qed.

(** C3, where the code departs from it.  First run: a save of [d1] is in
    flight; two requests arrive, which only set the pending flag; the
    save succeeds, the flag is cleared and one timer is set; the timer
    fires and starts no save, although the draft ([d3]) differs from what
    was saved ([d1]): no save is suspended, in flight or scheduled, and
    one save in all was sent.  Second run: the draft is back at the saved
    content when the save of [d1] fails; the timer then starts a save of
    [d1], which is sent under the number 2 although the draft is not
    dirty. *)
Theorem follow_up_save_sees_stale_draft :
  let inFlight1 := run EditorSamples.saveInFlight EditorSamples.editing in
  let requested := run EditorSamples.twoRequests inFlight1 in
  let final := run EditorSamples.successThenFollowUp requested in
  let final' := run EditorSamples.failureThenFollowUp inFlight1 in
  (isSaving inFlight1 = true /\ length (inFlight inFlight1) = 1%nat)
  /\ (pendingSave requested = true
      /\ inFlight requested = inFlight inFlight1
      /\ awaitingToken requested = [])
  /\ (isDirty (form final) final = true
      /\ pendingSave final = false
      /\ awaitingToken final = [] /\ inFlight final = []
      /\ followUps final = [] /\ debounceTimer final = false
      /\ saveId final = 1%nat)
  /\ (isDirty (form final') final' = false
      /\ inFlight final'
         = [mkRequest 2 EditorSamples.d1 (Some "p1") false None]).
Proof. vm_compute. repeat split. Qed.

(** [handleVersionRestore] itself clears the debounce timer, puts the
    version into the form, sets the state [unsaved] and leaves the last
    saved snapshot and the requests as they are. *)
Lemma handleVersionRestore_loads version s :
  let s' := handleVersionRestore version s in
  debounceTimer s' = false /\ form s' = version /\ saveState s' = unsaved
  /\ lastSavedData s' = lastSavedData s
  /\ awaitingToken s' = awaitingToken s /\ inFlight s' = inFlight s.
Proof. simpl. repeat split. Qed.

(** C9, where the code departs from it.  After a restore the form fields
    have changed, so the effect on the form fields runs [handleChange],
    which finds the draft dirty and starts the debounce timer again.
    When the timer expires the restored content is sent by an autosave:
    no manual save is among the events. *)
Theorem restored_version_is_autosaved :
  let restored := step (VersionRestore EditorSamples.earlier)
                       EditorSamples.editing in
  let final := run EditorSamples.restoreThenWait EditorSamples.editing in
  (form restored = EditorSamples.earlier
   /\ saveState restored = unsaved
   /\ lastSavedData restored = EditorSamples.d0
   /\ isDirty (form restored) restored = true
   /\ debounceTimer restored = true)
  /\ (ManualSave ∉ EditorSamples.restoreThenWait)
  /\ inFlight final
     = [mkRequest 1 EditorSamples.earlier (Some "p1") false None].
Proof.
  split; [vm_compute; repeat split|]. split; [|by vm_compute].
  unfold EditorSamples.restoreThenWait.
  rewrite !elem_of_cons. intros [H|[H|[H|H]]]; try discriminate H.
  by apply elem_of_nil in H.
Qed.

End SaveCoordinator.

(** * The theorems at work on the sample data *)

Section Instances.
Import Admin Notions Samples PostPage.

(** C4 on the samples: one more version on the full log of [store4], and
    the 21 manual saves of [calls21] on the empty log of [store1]. *)
Lemma createVersion_retention_witness :
  (size (versionsOf "p1"
           (fst (createVersion "p1" (Some "Manual save") 300 "v21" store4)))
   <= 20)%nat
  /\ size (versionsOf "p1"
             (default store1 (createVersions "p1" calls21 store1)))
     = 20%nat.
Proof.
  destruct createVersion_retention as [Hone Hmany]. split.
  - destruct (Hone "p1" (Some "Manual save") 300 "v21" store4
                (fst (createVersion "p1" (Some "Manual save") 300 "v21" store4))
                "v21" ltac:(vm_compute; reflexivity))
      as (d & _ & Hle & _). exact Hle.
  - destruct (Hmany "p1" calls21 store1
                (default store1 (createVersions "p1" calls21 store1))
                ltac:(vm_compute; reflexivity) ltac:(vm_compute; reflexivity)
                ltac:(vm_compute; reflexivity))
      as (Hsize & _). exact Hsize.
Defined.

(** [store1] holds the post [p1] and no other. *)
Lemma store1_only_post q d : posts store1 !! q = Some d -> q = "p1".
Proof.
  unfold store1. simpl. intros H.
  destruct (decide (q = "p1")) as [->|Hne]; [done|].
  by rewrite lookup_singleton_ne in H.
Defined.

(** C5, amended, on the samples: the published post of [store1] is renamed
    from [hello] to [hello-world] and then to [hello-again]. *)
Lemma rename_twice_redirects_witness :
  let s1 := fst (updatePost "p1" (slugOnly "Hello World") 200 store1) in
  let s2 := fst (updatePost "p1" (slugOnly "Hello again!") 300 s1) in
  exists d2,
    posts s2 !! "p1" = Some d2
    /\ resolvePost "hello" s2
       = mkResolved (Some ("p1", d2)) true (Some "hello-again")
    /\ resolvePost "Hello-World" s2
       = mkResolved (Some ("p1", d2)) true (Some "hello-again")
    /\ resolvePost "hello-again" s2 = mkResolved (Some ("p1", d2)) false None.
Proof.
  intros s1 s2.
  destruct (rename_twice_redirects "p1" post1 (slugOnly "Hello World")
              (slugOnly "Hello again!") "Hello World" "Hello again!"
              200 300 store1 s1 s2)
    as (d1 & d2 & _ & Hd2 & _ & _ & _ & _ & _ & _ & HA & HB & HC);
    try (vm_compute; first [reflexivity | discriminate]).
  - intros (q & dq & Hq & Hdq & _). by apply store1_only_post in Hdq.
  - intros (q & dq & Hq & Hdq & _). by apply store1_only_post in Hdq.
  - exists d2. split; [exact Hd2|]. split; [|split].
    + apply HA. vm_compute. reflexivity.
    + apply HB. vm_compute. reflexivity.
    + apply HC. vm_compute. reflexivity.
Defined.

(** C6, amended, on the samples: the live slug [hello] of [store1] is
    refused, the retired slug [a] of [store2] is accepted. *)
Lemma createPost_conflict_witness :
  createPost (mkNewPost "Again" "  HELLO " "" "text" draft) 300 "p2" store1
  = (store1, Failure "A post with this slug already exists")
  /\ exists d',
      createPost (mkNewPost "New" "a" "" "text" draft) 300 "p2" store2
      = (setPosts (<["p2" := d']> (posts store2)) store2, Success "p2")
      /\ slug d' = "a".
Proof.
  split.
  - apply (createPost_conflict_on_live_slug
             (mkNewPost "Again" "  HELLO " "" "text" draft) 300 "p2" store1).
    exists "p1", post1. split; vm_compute; reflexivity.
  - destruct (createPost_conflict_on_live_slug
                (mkNewPost "New" "a" "" "text" draft) 300 "p2" store2)
      as [_ Hfree].
    destruct Hfree as (d' & Hd' & Hslug & _).
    + intros pid d Hd. unfold store2 in Hd. simpl in Hd.
      destruct (decide (pid = "p1")) as [->|Hne].
      * rewrite lookup_singleton_eq in Hd. injection Hd as <-.
        vm_compute. discriminate.
      * by rewrite lookup_singleton_ne in Hd.
    + vm_compute. reflexivity.
    + exists d'. split; [exact Hd'|exact Hslug].
Defined.

(** C7 on the samples: the token of the draft in [store6] resolves to it;
    after the revocation it resolves to nothing, like a token that was
    never issued. *)
Lemma preview_token_resolution_witness :
  getPostByPreviewToken "s3cr3t" store6 = Some ("p1", post6)
  /\ status post6 = draft
  /\ getPostByPreviewToken "s3cr3t" (fst (revokePreviewToken "p1" 130 store6))
     = None
  /\ getPostByPreviewToken "never-issued"
       (fst (revokePreviewToken "p1" 130 store6)) = None.
Proof.
  destruct preview_token_resolution as (_ & _ & Huniq & _ & Hrevoke).
  assert (forall q d, posts store6 !! q = Some d -> q = "p1") as Honly.
  { unfold store6. simpl. intros q d H.
    destruct (decide (q = "p1")) as [->|Hne]; [done|].
    by rewrite lookup_singleton_ne in H. }
  split; [|split; [reflexivity|]].
  - apply Huniq; [reflexivity| |by eauto].
    exists (mkPreview (Some "s3cr3t") true 120). repeat split.
  - destruct (Hrevoke "p1" 130 store6 post6 ltac:(reflexivity))
      as (_ & _ & Hnone).
    split; apply Hnone; intros q d Hq Hd; by apply Honly in Hd.
Defined.

(** A restore below the limit, on the samples: the oldest of the two
    versions of [store5] is restored. *)
Lemma restoreVersion_witness :
  let r := restoreVersion "p1" "v01" 200 "v03" 201 store5 in
  snd r = Success tt
  /\ posts (fst r) !! "p1" = Some (restoredFrom (oldVersion 1) post1 201)
  /\ versionsOf "p1" (fst r) !! "v01" = Some (oldVersion 1)
  /\ map fst (filter (fun x => fst x <> "v03") (getVersions "p1" (fst r)))
     = ["v02"; "v01"].
Proof.
  intros r.
  destruct (restoreVersion_snapshot_then_copy "p1" "v01" 200 "v03" 201
              store5 post1 (oldVersion 1)
              ltac:(reflexivity) ltac:(vm_compute; reflexivity)
              ltac:(vm_compute; reflexivity))
    as (Hok & _ & _ & Hpost & _ & Hsmall).
  destruct Hsmall as (_ & Hv & _ & Horder).
  { vm_compute. lia. }
  split; [exact Hok|]. split; [exact Hpost|]. split; [exact Hv|].
  fold r in Horder. rewrite Horder. vm_compute. reflexivity.
Defined.

End Instances.

Section EditorInstances.
Import PostEditor EditorSamples.

(** C10, amended, on the samples: with both saves of [bothInFlight]
    unanswered, status 403 for save 2, the latest, is signalled, and
    status 401 for save 1 is dropped. *)
Lemma auth_failure_witness :
  let latest := mkRequest 2 d2 (Some "p1") true (Some "Manual save") in
  let superseded := mkRequest 1 d1 (Some "p1") false None in
  inFlight bothInFlight = [superseded; latest]
  /\ (saveState
        (performSave_complete latest (Response 403 None) 12 bothInFlight)
      = error "Authentication expired"
      /\ onAuthErrorCount
           (performSave_complete latest (Response 403 None) 12 bothInFlight)
         = S (onAuthErrorCount bothInFlight))
  /\ (saveState
        (performSave_complete superseded (Response 401 None) 12 bothInFlight)
      = saveState bothInFlight
      /\ onAuthErrorCount
           (performSave_complete superseded (Response 401 None) 12
              bothInFlight)
         = onAuthErrorCount bothInFlight).
Proof.
  intros latest superseded. split; [vm_compute; reflexivity|]. split.
  - destruct (auth_failure_signalled_unless_stale latest 403 None 12
                bothInFlight ltac:(right; reflexivity)) as (H & _ & _).
    apply H. vm_compute. reflexivity.
  - destruct (auth_failure_signalled_unless_stale superseded 401 None 12
                bothInFlight ltac:(left; reflexivity)) as (_ & H & _).
    apply H. vm_compute. discriminate.
Defined.

End EditorInstances.

(** * Further properties of the code *)

(** ** The two slug normalizers *)

Section NormalForm.
Import JS SlugShape.
Local Open Scope list_scope.

Lemma slugForm_chars l :
  slugForm l -> Forall (fun c => isSlugChar c = true \/ c = "-"%char) l.
Proof.
  induction 1 as [c Hc|c l Hc Hl IH|c l Hc Hl IH];
    repeat (apply Forall_cons; split); auto.
Qed.

Lemma slugForm_no_double_hyphen l i :
  slugForm l -> l !! i = Some "-"%char -> l !! S i <> Some "-"%char.
Proof.
  intros Hl. revert i.
  induction Hl as [c Hc|c l Hc Hl IH|c l Hc Hl IH]; intros i.
  - by destruct i as [|[|i]].
  - destruct i as [|i]; simpl; [|apply IH]. intros [= ->]. done.
  - destruct i as [|[|i]]; simpl; [by intros [= ->]| |apply IH].
    intros _. destruct (slugForm_head l Hl) as (x & r & -> & Hx). simpl.
    intros [= ->]. done.
Qed.

Lemma slugForm_last_char l : slugForm l -> last l <> Some "-"%char.
Proof.
  intros Hl%slugForm_rev. destruct (slugForm_head _ Hl) as (x & r & E & Hx).
  rewrite <- (rev_involutive l), E. simpl. rewrite last_snoc.
  intros [= ->]. done.
Qed.

(** [collapseRuns] does not care whether a run was already open, once the
    hyphens at both ends are stripped. *)
Lemma collapseRuns_open_or_not l :
  collapseRuns false l = collapseRuns true l
  \/ collapseRuns false l = "-"%char :: collapseRuns true l.
Proof. destruct l as [|c l]; simpl; [by left|]. destruct (isSlugChar c); auto. Qed.

Lemma stripHyphens_leading m :
  trailing m -> stripHyphens ("-"%char :: m) = stripHyphens m.
Proof.
  intros Hm. unfold stripHyphens. simpl.
  by rewrite (dropLeadingHyphen_trailing m Hm).
Qed.

Lemma strip_collapse_open l :
  stripHyphens (collapseRuns false l) = stripHyphens (collapseRuns true l).
Proof.
  destruct (collapseRuns_open_or_not l) as [-> | ->]; [done|].
  apply stripHyphens_leading, collapseRuns_shape.
Qed.

(** A character outside the class at the start changes nothing. *)
Lemma strip_collapse_leading c l :
  isSlugChar c = false ->
  stripHyphens (collapseRuns false (c :: l))
  = stripHyphens (collapseRuns false l).
Proof.
  intros Hc. simpl. rewrite Hc, strip_collapse_open.
  apply stripHyphens_leading, collapseRuns_shape.
Qed.

Lemma collapseRuns_app b l k :
  collapseRuns b (l ++ k) = collapseRuns b l ++ collapseRuns (endsOpen b l) k.
Proof.
  revert b. induction l as [|c l IH]; intros b; simpl; [done|].
  destruct (isSlugChar c); simpl; [by rewrite IH|].
  destruct b; by rewrite IH.
Qed.

Lemma collapseRuns_nil b l : collapseRuns b l = [] -> endsOpen b l = b.
Proof.
  revert b. induction l as [|c l IH]; intros b; simpl; [done|].
  destruct (isSlugChar c); simpl; [done|].
  destruct b; [apply IH|done].
Qed.

Lemma trailing_no_leading_hyphen m : trailing ("-"%char :: m) -> False.
Proof.
  intros [?|(core & Hcore & E)]; [done|].
  destruct (slugForm_head core Hcore) as (x & r & -> & Hx).
  assert (x = "-"%char) as -> by (destruct E as [E|E]; by injection E).
  by vm_compute in Hx.
Qed.

Lemma collapseRuns_closed b l :
  endsOpen b l = false -> closedForm (collapseRuns b l).
Proof.
  revert b. induction l as [|c l IH]; intros b; simpl.
  - intros _. by left.
  - destruct (isSlugChar c) eqn:Hc; simpl; intros Hend.
    + right.
      destruct (IH false Hend) as [E|(core & Hcore & [E|E])]; rewrite E.
      * exists [c]. split; [by constructor|by left].
      * exists (c :: core). split; [by constructor|by left].
      * exists (c :: "-"%char :: core). split; [by constructor|by left].
    + destruct (IH true Hend) as [E|(core & Hcore & [E|E])].
      * apply collapseRuns_nil in E. congruence.
      * right. exists core. split; [done|]. destruct b; rewrite E; auto.
      * destruct (trailing_no_leading_hyphen core). rewrite <- E.
        apply collapseRuns_shape.
Qed.

Lemma stripHyphens_closed_hyphen m :
  closedForm m -> stripHyphens (m ++ ["-"%char]) = stripHyphens m.
Proof.
  intros [->|(core & Hcore & [->| ->])]; [done| |].
  - by rewrite stripHyphens_hyphen_after, stripHyphens_slugForm.
  - change (("-"%char :: core) ++ ["-"%char])
      with ("-"%char :: (core ++ ["-"%char])).
    rewrite !stripHyphens_leading.
    + by rewrite stripHyphens_hyphen_after, stripHyphens_slugForm.
    + right. eauto.
    + right. eauto.
Qed.

(** A character outside the class at the end changes nothing. *)
Lemma strip_collapse_trailing c l :
  isSlugChar c = false ->
  stripHyphens (collapseRuns false (l ++ [c]))
  = stripHyphens (collapseRuns false l).
Proof.
  intros Hc. rewrite collapseRuns_app. simpl. rewrite Hc.
  destruct (endsOpen false l) eqn:E; [by rewrite app_nil_r|].
  by apply stripHyphens_closed_hyphen, collapseRuns_closed.
Qed.

Lemma isSpace_not_slug c : isSpace c = true -> isSlugChar c = false.
Proof.
  destruct c as [[] [] [] [] [] [] [] []]; vm_compute; intros H;
    try discriminate H; auto.
Qed.

Lemma strip_collapse_dropSpaces l :
  stripHyphens (collapseRuns false (dropSpaces l))
  = stripHyphens (collapseRuns false l).
Proof.
  induction l as [|c l IH]; [done|]. simpl dropSpaces.
  destruct (isSpace c) eqn:Hc; [|done].
  by rewrite IH, strip_collapse_leading by by apply isSpace_not_slug.
Qed.

Lemma strip_collapse_dropSpaces_end k :
  stripHyphens (collapseRuns false (rev (dropSpaces k)))
  = stripHyphens (collapseRuns false (rev k)).
Proof.
  induction k as [|c k IH]; [done|]. simpl dropSpaces.
  destruct (isSpace c) eqn:Hc; [|done].
  rewrite IH. simpl rev.
  by rewrite strip_collapse_trailing by by apply isSpace_not_slug.
Qed.

(** The [trim] of [normalizeSlug] is redundant. *)
Lemma strip_collapse_trim l :
  stripHyphens (collapseRuns false (trim l))
  = stripHyphens (collapseRuns false l).
Proof.
  unfold trim. rewrite strip_collapse_dropSpaces_end, rev_involutive.
  apply strip_collapse_dropSpaces.
Qed.

(** X1.  [normalizeSlug] yields a normal form: applying it again
    changes nothing, and the result consists of characters of [[a-z0-9]]
    and hyphens, with no hyphen at the start, none at the end and no two
    hyphens in a row. *)
Theorem normalizeSlug_normal_form sl :
  let r := list_ascii_of_string (Admin.normalizeSlug sl) in
  Admin.normalizeSlug (Admin.normalizeSlug sl) = Admin.normalizeSlug sl
  /\ Forall (fun c => isSlugChar c = true \/ c = "-"%char) r
  /\ head r <> Some "-"%char
  /\ last r <> Some "-"%char
  /\ (forall i, r !! i = Some "-"%char -> r !! S i <> Some "-"%char).
Proof.
  simpl. split; [apply normalizeSlug_idempotent|].
  unfold Admin.normalizeSlug. rewrite list_ascii_of_string_of_list_ascii.
  destruct (normalizeChars_form (list_ascii_of_string sl)) as [->|H].
  - by repeat split.
  - split; [by apply slugForm_chars|]. split; [|split].
    + destruct (slugForm_head _ H) as (c & r & -> & Hc). simpl.
      intros [= ->]. by vm_compute in Hc.
    + by apply slugForm_last_char.
    + intros i. by apply slugForm_no_double_hyphen.
Qed.

(** X2.  The slug that the editor derives from a title is the one the
    server stores for it: [generateSlug] and [normalizeSlug] agree on
    every string, the [trim] of [normalizeSlug] being redundant. *)
Theorem generateSlug_is_normalizeSlug t :
  EditorMore.generateSlug t = Admin.normalizeSlug t.
Proof.
  unfold EditorMore.generateSlug, Admin.normalizeSlug, normalizeChars.
  by rewrite strip_collapse_trim.
Qed.

End NormalForm.

(** ** Sequences of store operations *)

Section StoreOps.
Import Admin AdminMore Api Notions PostPage.

Lemma createVersion_posts postId note now newId s :
  posts (fst (createVersion postId note now newId s)) = posts s.
Proof. unfold createVersion. by repeat case_match. Qed.

Lemma createVersion_other_versions postId note now newId s i :
  i <> postId ->
  versions (fst (createVersion postId note now newId s)) !! i
  = versions s !! i.
Proof.
  intros Hi. unfold createVersion.
  repeat case_match; simpl; rewrite ?lookup_insert_ne by done; done.
Qed.

Lemma createVersion_failure postId note now newId s e :
  snd (createVersion postId note now newId s) = Failure e ->
  fst (createVersion postId note now newId s) = s.
Proof. unfold createVersion. by repeat case_match. Qed.

(** The store that [restoreVersion] leaves when the post and the version
    exist. *)
Lemma restoreVersion_store pid vid t nid now s d v :
  posts s !! pid = Some d -> versionsOf pid s !! vid = Some v ->
  restoreVersion pid vid t nid now s
  = (mkStore (<[pid := restoredFrom v d now]> (posts s))
             (versions (fst (createVersion pid (Some "Before restore") t nid s))),
     Success tt).
Proof.
  intros Hd Hv. unfold restoreVersion. rewrite Hd, Hv. simpl.
  rewrite createVersion_posts, Hd. reflexivity.
Qed.

Lemma restoreVersion_cases pid vid t nid now s :
  fst (restoreVersion pid vid t nid now s) = s
  \/ exists d v,
      posts s !! pid = Some d /\ versionsOf pid s !! vid = Some v
      /\ fst (restoreVersion pid vid t nid now s)
         = mkStore (<[pid := restoredFrom v d now]> (posts s))
             (versions (fst (createVersion pid (Some "Before restore")
                                           t nid s))).
Proof.
  destruct (posts s !! pid) as [d|] eqn:Hd.
  - destruct (versionsOf pid s !! vid) as [v|] eqn:Hv.
    + right. exists d, v. by rewrite (restoreVersion_store _ _ _ _ _ _ d v).
    + left. unfold restoreVersion. by rewrite Hd, Hv.
  - left. unfold restoreVersion. by rewrite Hd.
Qed.

(** Only [createVersion], alone or within [restoreVersion], writes to a
    version log. *)
Lemma applyOp_versions op s :
  versions (applyOp op s) = versions s
  \/ exists pid note now nid,
      versions (applyOp op s)
      = versions (fst (createVersion pid note now nid s)).
Proof.
  destruct op; simpl;
    try (left; unfold createPost, updatePost, deletePost, togglePostStatus,
           publishPost, unpublishPost, generatePreviewToken,
           revokePreviewToken; by repeat case_match).
  - right. eauto.
  - destruct (restoreVersion_cases postId versionId snapTime newId now s)
      as [->|(d & v & _ & _ & ->)]; [by left|right; simpl; eauto].
Qed.

Lemma applyOp_other_posts op s i :
  i <> target op -> posts (applyOp op s) !! i = posts s !! i.
Proof.
  intros Hi. destruct op; simpl in *.
  all: try (unfold createPost, updatePost, deletePost, togglePostStatus,
              publishPost, unpublishPost, generatePreviewToken,
              revokePreviewToken;
            repeat case_match; simpl;
            rewrite ?lookup_insert_ne, ?lookup_delete_ne by done; done).
  - by rewrite createVersion_posts.
  - destruct (restoreVersion_cases postId versionId snapTime newId now s)
      as [->|(d & v & _ & _ & ->)]; [done|]. simpl.
    by rewrite lookup_insert_ne.
Qed.

Lemma applyOp_other_versions op s i :
  i <> target op -> versions (applyOp op s) !! i = versions s !! i.
Proof.
  intros Hi. destruct (applyOp_versions op s) as [->|(pid & n & t & nid & E)];
    [done|].
  destruct op; simpl in *;
    try (revert E;
         unfold createPost, updatePost, deletePost, togglePostStatus,
           publishPost, unpublishPost, generatePreviewToken,
           revokePreviewToken; by repeat case_match).
  - by apply createVersion_other_versions.
  - destruct (restoreVersion_cases postId versionId snapTime newId now s)
      as [->|(d & v & _ & _ & ->)]; [done|]. simpl.
    by apply createVersion_other_versions.
Qed.

(** X3.  A call changes nothing outside the post it addresses: every
    other post document and every other version log is as before,
    whether the call succeeds or fails. *)
Theorem applyOp_isolation op s i :
  i <> target op ->
  posts (applyOp op s) !! i = posts s !! i
  /\ versions (applyOp op s) !! i = versions s !! i.
Proof.
  intros Hi. split; [by apply applyOp_other_posts|].
  by apply applyOp_other_versions.
Qed.

Lemma applyOp_keeps_publishedAt op s id d t :
  leavesPublication op = true ->
  posts s !! id = Some d -> publishedAt d = Some t ->
  exists d', posts (applyOp op s) !! id = Some d' /\ publishedAt d' = Some t.
Proof.
  intros Hop Hd Ht.
  destruct (decide (id = target op)) as [->|Hne];
    [|rewrite applyOp_other_posts by done; eauto].
  destruct op; simpl in *; try done.
  - unfold createPost. rewrite Hd. case_match; simpl; eauto.
  - unfold updatePost. rewrite Hd.
    destruct (p_status data) as [st|]; [done|]. simpl.
    case_match; simpl; [eauto|]. rewrite lookup_insert_eq. eauto.
  - unfold togglePostStatus. rewrite Hd. simpl. rewrite lookup_insert_eq.
    eexists. split; [done|]. simpl. by rewrite Ht, andb_false_r.
  - unfold publishPost. rewrite Hd. simpl. rewrite lookup_insert_eq.
    eexists. split; [done|]. simpl. by rewrite Ht.
  - unfold unpublishPost. rewrite Hd. simpl. rewrite lookup_insert_eq. eauto.
  - rewrite createVersion_posts. eauto.
  - destruct (restoreVersion_cases postId versionId snapTime newId now s)
      as [->|(d0 & v & Hd0 & _ & ->)]; [eauto|]. simpl.
    rewrite lookup_insert_eq. eexists. split; [done|]. simpl. congruence.
  - unfold generatePreviewToken. rewrite Hd. simpl. rewrite lookup_insert_eq.
    eauto.
  - unfold revokePreviewToken. rewrite Hd. simpl. rewrite lookup_insert_eq.
    eauto.
Qed.

(** X4.  Once a post has a first-publication date, no sequence of calls
    changes it unless it deletes the post or contains an [updatePost] that
    carries a status: publishing, unpublishing and toggling, updates of
    the other fields, snapshots, restores and preview links all keep
    [publishedAt], on whichever posts they act. *)
Theorem first_publication_date_kept ops s id d t :
  Forall (fun op => leavesPublication op = true) ops ->
  posts s !! id = Some d -> publishedAt d = Some t ->
  publishedAtOf id (applyOps ops s) = Some (Some t).
Proof.
  intros Hops. revert s d.
  induction Hops as [|op ops Hop _ IH]; intros s d Hd Ht; simpl.
  - unfold publishedAtOf. by rewrite Hd; simpl; rewrite Ht.
  - destruct (applyOp_keeps_publishedAt op s id d t Hop Hd Ht)
      as (d' & Hd' & Ht').
    by apply (IH _ d').
Qed.

(** X5.  Toggling the status of a post twice gives back its status and
    leaves every field but the two timestamps alone; a date of first
    publication that was set stays, and one that was missing is set by
    the toggle that publishes. *)
Theorem togglePostStatus_twice id n1 n2 s d :
  posts s !! id = Some d ->
  exists d',
    posts (applyOps [TogglePostStatus id n1; TogglePostStatus id n2] s) !! id
    = Some d'
    /\ status d' = status d
    /\ title d' = title d /\ slug d' = slug d /\ oldSlugs d' = oldSlugs d
    /\ excerpt d' = excerpt d /\ content d' = content d
    /\ createdAt d' = createdAt d /\ preview d' = preview d
    /\ updatedAt d' = n2
    /\ publishedAt d'
       = match publishedAt d with
         | Some t => Some t
         | None => Some (if Status_eqb (status d) published then n2 else n1)
         end.
Proof.
  intros Hd. simpl. unfold togglePostStatus at 2. rewrite Hd. simpl.
  unfold togglePostStatus. simpl. rewrite lookup_insert_eq. simpl.
  rewrite lookup_insert_eq. eexists. split; [done|]. simpl.
  destruct (status d), (publishedAt d); simpl; repeat split.
Qed.

(** X6.  Every function that addresses a post by id answers a missing
    post with the error [Post not found] (the two readers with null) and
    writes nothing; [restoreVersion] answers a missing version of an
    existing post with [Version not found], again without writing, so
    that no snapshot is taken for a restore that cannot happen. *)
Theorem missing_post_or_version_changes_nothing id s :
  (posts s !! id = None ->
   (forall data now,
       updatePost id data now s = (s, Failure "Post not found"))
   /\ (forall now, togglePostStatus id now s = (s, Failure "Post not found"))
   /\ (forall now, publishPost id now s = (s, Failure "Post not found"))
   /\ (forall now, unpublishPost id now s = (s, Failure "Post not found"))
   /\ (forall note now newId,
          createVersion id note now newId s = (s, Failure "Post not found"))
   /\ (forall versionId snapTime newId now,
          restoreVersion id versionId snapTime newId now s
          = (s, Failure "Post not found"))
   /\ (forall tok now,
          generatePreviewToken id tok now s = (s, Failure "Post not found"))
   /\ (forall now, revokePreviewToken id now s = (s, Failure "Post not found"))
   /\ getPostById id s = None
   /\ getPostPreview id s = None)
  /\ (forall versionId snapTime newId now,
         posts s !! id <> None -> versionsOf id s !! versionId = None ->
         restoreVersion id versionId snapTime newId now s
         = (s, Failure "Version not found")).
Proof.
  split.
  - intros Hd.
    unfold updatePost, togglePostStatus, publishPost, unpublishPost,
      createVersion, restoreVersion, generatePreviewToken, revokePreviewToken,
      getPostById, getPostPreview.
    rewrite Hd. by repeat split.
  - intros vid t nid now Hd Hv. unfold restoreVersion. rewrite Hv.
    by destruct (posts s !! id).
Qed.

Lemma uniqueLiveSlugs_insert s id d' :
  uniqueLiveSlugs s ->
  (forall j dj, j <> id -> posts s !! j = Some dj -> slug dj <> slug d') ->
  uniqueLiveSlugs (mkStore (<[id := d']> (posts s)) (versions s)).
Proof.
  intros Hu Hfresh i j di dj. simpl.
  destruct (decide (i = id)) as [->|Hi], (decide (j = id)) as [->|Hj];
    rewrite ?lookup_insert_eq, ?lookup_insert_ne by done; [done|..].
  - intros [= <-] Hdj E. by destruct (Hfresh _ _ Hj Hdj).
  - intros Hdi [= <-] E. by destruct (Hfresh _ _ Hi Hdi).
  - apply Hu.
Qed.

Lemma uniqueLiveSlugs_same_slug s id d d' :
  uniqueLiveSlugs s -> posts s !! id = Some d -> slug d' = slug d ->
  uniqueLiveSlugs (mkStore (<[id := d']> (posts s)) (versions s)).
Proof.
  intros Hu Hd E. apply uniqueLiveSlugs_insert; [done|].
  intros j dj Hj Hdj E'. apply Hj. apply (Hu j id dj d Hdj Hd). congruence.
Qed.

Lemma uniqueLiveSlugs_posts s s' :
  posts s' = posts s -> uniqueLiveSlugs s -> uniqueLiveSlugs s'.
Proof. unfold uniqueLiveSlugs. by intros ->. Qed.

Lemma applyOp_uniqueLiveSlugs op s :
  isRestore op = false -> uniqueLiveSlugs s -> uniqueLiveSlugs (applyOp op s).
Proof.
  intros Hop Hu. destruct op; simpl in *; try done.
  - unfold createPost.
    destruct (isSlugAvailable _ None s) eqn:Hav; simpl; [|done].
    destruct (posts s !! newId) eqn:Hn; simpl; [done|].
    apply uniqueLiveSlugs_insert; [done|]. simpl. intros j dj _ Hdj.
    rewrite <- (normalizeSlug_idempotent (n_slug data)).
    by apply (proj1 (isSlugAvailable_all _ s) Hav j dj).
  - unfold updatePost. destruct (posts s !! id) as [d|] eqn:Hd; [|done].
    simpl.
    set (nn := match p_slug data with
               | Some sl => if JS.truthy sl then Some (normalizeSlug sl)
                            else None
               | None => None
               end).
    set (changing := match nn with
                     | Some n => JS.truthy n && negb (String.eqb n (slug d))
                     | None => false
                     end).
    destruct changing eqn:Hch; simpl.
    + destruct (isSlugAvailable _ (Some id) s) eqn:Hav; simpl; [|done].
      apply uniqueLiveSlugs_insert; [done|]. simpl. intros j dj _ Hdj.
      subst changing. destruct nn as [n|] eqn:Hnn; [|done]. simpl in *.
      apply andb_true_iff in Hch as [_ Hneq%negb_true_iff%String.eqb_neq].
      assert (normalizeSlug n = n) as En.
      { subst nn. destruct (p_slug data) as [sl|]; [|done].
        destruct (JS.truthy sl); [|done]. injection Hnn as <-.
        apply normalizeSlug_idempotent. }
      rewrite <- En.
      eapply isSlugAvailable_excluding; [exact Hd| |exact Hav|exact Hdj].
      rewrite En. congruence.
    + by apply (uniqueLiveSlugs_same_slug s id d).
  - unfold deletePost. simpl. intros i j di dj. simpl.
    intros Hi%lookup_delete_Some Hj%lookup_delete_Some.
    apply Hu; tauto.
  - unfold togglePostStatus. destruct (posts s !! id) as [d|] eqn:Hd; [|done].
    by apply (uniqueLiveSlugs_same_slug s id d).
  - unfold publishPost. destruct (posts s !! id) as [d|] eqn:Hd; [|done].
    by apply (uniqueLiveSlugs_same_slug s id d).
  - unfold unpublishPost. destruct (posts s !! id) as [d|] eqn:Hd; [|done].
    by apply (uniqueLiveSlugs_same_slug s id d).
  - eapply uniqueLiveSlugs_posts; [apply createVersion_posts|done].
  - unfold generatePreviewToken.
    destruct (posts s !! postId) as [d|] eqn:Hd; [|done].
    by apply (uniqueLiveSlugs_same_slug s postId d).
  - unfold revokePreviewToken.
    destruct (posts s !! postId) as [d|] eqn:Hd; [|done].
    by apply (uniqueLiveSlugs_same_slug s postId d).
Qed.

(** X7.  Creating, updating, deleting, publishing, unpublishing,
    snapshotting and preview links keep the live slugs of the posts
    pairwise different, in any sequence and whether the calls succeed or
    fail: the availability checks of [createPost] and [updatePost] are
    enough for that.  ([restoreVersion], which writes a slug without a
    check, is not among them.) *)
Theorem uniqueLiveSlugs_preserved ops s :
  Forall (fun op => isRestore op = false) ops ->
  uniqueLiveSlugs s -> uniqueLiveSlugs (applyOps ops s).
Proof.
  intros Hops. revert s. induction Hops as [|op ops Hop _ IH]; intros s Hu.
  - done.
  - simpl. by apply IH, applyOp_uniqueLiveSlugs.
Qed.

(** Where a version found in the logs after [createVersion] comes
    from. *)
Lemma createVersion_version_origin pid note now nid s i vs vid v :
  versions (fst (createVersion pid note now nid s)) !! i = Some vs ->
  vs !! vid = Some v ->
  (exists vs0, versions s !! i = Some vs0 /\ vs0 !! vid = Some v)
  \/ (exists d, posts s !! pid = Some d /\ v = snapshotOf d note now).
Proof.
  intros Hvs Hv. destruct (decide (i = pid)) as [->|Hi];
    [|rewrite createVersion_other_versions in Hvs by done; eauto].
  destruct (createVersion pid note now nid s) as [s' [r|e]] eqn:E.
  - apply createVersion_Success in E as (d & Hd & Hnew & -> & _ & E).
    simpl in Hvs. unfold versionsOf in E at 1. rewrite Hvs in E. simpl in E.
    subst vs. apply evict_lookup in Hv.
    destruct (decide (vid = nid)) as [->|Hne].
    + rewrite lookup_insert_eq in Hv. injection Hv as <-. eauto.
    + rewrite lookup_insert_ne in Hv by done. left.
      unfold versionsOf in Hv. destruct (versions s !! pid) as [vs0|]; [eauto|].
      done.
  - pose proof (createVersion_failure pid note now nid s e) as Hs.
    rewrite E in Hs. simpl in *. rewrite Hs in Hvs by done. eauto.
Qed.

Lemma createVersion_slugsNormalized pid note now nid s :
  slugsNormalized s ->
  slugsNormalized (fst (createVersion pid note now nid s)).
Proof.
  intros [Hp Hv]. split.
  - rewrite createVersion_posts. apply Hp.
  - intros i vs vid v Hvs Hvid.
    destruct (createVersion_version_origin _ _ _ _ _ _ _ _ _ Hvs Hvid)
      as [(vs0 & H0 & H1)|(d & Hd & ->)]; [exact (Hv _ _ _ _ H0 H1)|].
    simpl. by destruct (Hp pid d Hd).
Qed.

Lemma slugsNormalized_insert s id d' vsn :
  slugsNormalized (mkStore (posts s) vsn) ->
  normalizeSlug (slug d') = slug d' ->
  (forall sl, sl ∈ oldSlugs d' -> normalizeSlug sl = sl) ->
  slugsNormalized (mkStore (<[id := d']> (posts s)) vsn).
Proof.
  intros [Hp Hv] Hs Ho. split; [|done]. simpl. intros i di.
  destruct (decide (i = id)) as [->|Hi];
    rewrite ?lookup_insert_eq, ?lookup_insert_ne by done.
  - by intros [= <-].
  - apply Hp.
Qed.

Lemma slugsNormalized_eta s :
  slugsNormalized s -> slugsNormalized (mkStore (posts s) (versions s)).
Proof. by destruct s. Qed.

Lemma applyOp_slugsNormalized op s :
  slugsNormalized s -> slugsNormalized (applyOp op s).
Proof.
  intros Hn. pose proof Hn as [Hp Hv]. destruct op; simpl.
  - unfold createPost. destruct (negb _); [done|].
    destruct (posts s !! newId); [done|]. simpl.
    apply slugsNormalized_insert; simpl;
      [by apply slugsNormalized_eta|apply normalizeSlug_idempotent|].
    by intros sl ?%elem_of_nil.
  - unfold updatePost. destruct (posts s !! id) as [d|] eqn:Hd; [|done].
    destruct (Hp id d Hd) as [Hs Ho]. simpl.
    set (nn := match p_slug data with
               | Some sl => if JS.truthy sl then Some (normalizeSlug sl)
                            else None
               | None => None
               end).
    assert (forall n, nn = Some n -> normalizeSlug n = n) as Hnn.
    { subst nn. intros n. destruct (p_slug data) as [sl|]; [|done].
      destruct (JS.truthy sl); [|done]. intros [= <-].
      apply normalizeSlug_idempotent. }
    set (changing := match nn with
                     | Some n => JS.truthy n && negb (String.eqb n (slug d))
                     | None => false
                     end).
    destruct (changing && _); simpl; [done|].
    apply slugsNormalized_insert; simpl; [by apply slugsNormalized_eta|..].
    + destruct changing eqn:Hch; [|done]. subst changing.
      destruct nn as [n|]; [|done]. simpl. by apply Hnn.
    + intros sl. destruct (changing && _ && _); [|apply Ho].
      intros [Hin| ->%list_elem_of_singleton]%elem_of_app; [by apply Ho|done].
  - unfold deletePost. split; simpl; [|done].
    intros i di Hi. apply lookup_delete_Some in Hi as [_ Hi].
    exact (Hp i di Hi).
  - unfold togglePostStatus. destruct (posts s !! id) as [d|] eqn:Hd; [|done].
    destruct (Hp id d Hd). simpl.
    apply slugsNormalized_insert; simpl; [by apply slugsNormalized_eta|done..].
  - unfold publishPost. destruct (posts s !! id) as [d|] eqn:Hd; [|done].
    destruct (Hp id d Hd). simpl.
    apply slugsNormalized_insert; simpl; [by apply slugsNormalized_eta|done..].
  - unfold unpublishPost. destruct (posts s !! id) as [d|] eqn:Hd; [|done].
    destruct (Hp id d Hd). simpl.
    apply slugsNormalized_insert; simpl; [by apply slugsNormalized_eta|done..].
  - by apply createVersion_slugsNormalized.
  - destruct (restoreVersion_cases postId versionId snapTime newId now s)
      as [->|(d & v & Hd & Hver & ->)]; [done|].
    destruct (Hp postId d Hd) as [_ Ho].
    pose proof (createVersion_slugsNormalized postId (Some "Before restore")
                  snapTime newId s Hn) as Hn'.
    rewrite <- (createVersion_posts postId (Some "Before restore")
                  snapTime newId s) at 1.
    apply slugsNormalized_insert; simpl; [by apply slugsNormalized_eta| |done].
    unfold versionsOf in Hver.
    destruct (versions s !! postId) as [vs0|] eqn:E; [|done].
    by apply (Hv postId vs0 versionId v).
  - unfold generatePreviewToken.
    destruct (posts s !! postId) as [d|] eqn:Hd; [|done].
    destruct (Hp postId d Hd). simpl.
    apply slugsNormalized_insert; simpl; [by apply slugsNormalized_eta|done..].
  - unfold revokePreviewToken.
    destruct (posts s !! postId) as [d|] eqn:Hd; [|done].
    destruct (Hp postId d Hd). simpl.
    apply slugsNormalized_insert; simpl; [by apply slugsNormalized_eta|done..].
Qed.

Lemma applyOps_slugsNormalized ops s :
  slugsNormalized s -> slugsNormalized (applyOps ops s).
Proof.
  revert s. induction ops as [|op ops IH]; intros s Hn; [done|].
  simpl. by apply IH, applyOp_slugsNormalized.
Qed.

Lemma emptyStore_slugsNormalized : slugsNormalized emptyStore.
Proof. split; simpl; intros *; by rewrite lookup_empty. Qed.

(** X8.  Whatever calls are made on an empty database, every slug it
    holds afterwards - the live slug of a post, a retired slug, the slug
    kept in a version - is in normal form: [normalizeSlug] leaves it
    unchanged.  More generally the calls keep this property of a store
    that has it. *)
Theorem stored_slugs_are_normalized ops :
  slugsNormalized (applyOps ops emptyStore)
  /\ forall s, slugsNormalized s -> slugsNormalized (applyOps ops s).
Proof.
  split; [|intros s; apply applyOps_slugsNormalized].
  apply applyOps_slugsNormalized, emptyStore_slugsNormalized.
Qed.

Lemma createVersion_logsCapped pid note now nid s :
  logsCapped s -> logsCapped (fst (createVersion pid note now nid s)).
Proof.
  intros Hc i vs Hvs. destruct (decide (i = pid)) as [->|Hi];
    [|rewrite createVersion_other_versions in Hvs by done; by eapply Hc].
  destruct (createVersion pid note now nid s) as [s' [r|e]] eqn:E.
  - apply createVersion_size in E. simpl in Hvs.
    unfold versionsOf in E at 1. rewrite Hvs in E. simpl in E.
    unfold MAX_VERSIONS in *. lia.
  - pose proof (createVersion_failure pid note now nid s e) as Hs.
    rewrite E in Hs. simpl in *. rewrite Hs in Hvs by done. by eapply Hc.
Qed.

Lemma applyOp_logsCapped op s : logsCapped s -> logsCapped (applyOp op s).
Proof.
  intros Hc. unfold logsCapped.
  destruct (applyOp_versions op s) as [->|(pid & n & t & nid & ->)]; [done|].
  by apply createVersion_logsCapped.
Qed.

(** X9.  No sequence of calls lets a version log grow beyond twenty
    versions: the limit holds after every call on an empty database, and
    is kept on any store that respects it, also by the snapshot that
    [restoreVersion] takes. *)
Theorem version_logs_stay_capped ops :
  logsCapped (applyOps ops emptyStore)
  /\ forall s, logsCapped s -> logsCapped (applyOps ops s).
Proof.
  assert (forall s, logsCapped s -> logsCapped (applyOps ops s)) as H.
  { induction ops as [|op ops IH]; intros s Hc; [done|].
    simpl. by apply IH, applyOp_logsCapped. }
  split; [|done]. apply H. intros i vs. simpl. by rewrite lookup_empty.
Qed.

(** X10.  [restoreVersion] writes the slug of the version without
    retiring the slug it replaces: when the version carries another slug,
    the address under which the published post was served stops resolving
    - it is neither the live slug nor a retired slug afterwards - where a
    rename through [updatePost] would have left a redirect. *)
Theorem restoreVersion_does_not_retire_slug pid vid t nid now s d v req :
  posts s !! pid = Some d -> status d = published ->
  versionsOf pid s !! vid = Some v ->
  normalizeSlug req = slug d -> v_slug v <> slug d ->
  slug d ∉ oldSlugs d -> ~ referencedElsewhere pid (slug d) s ->
  let s' := fst (restoreVersion pid vid t nid now s) in
  resolvePost req s = mkResolved (Some (pid, d)) false None
  /\ resolvePost req s' = mkResolved None false None
  /\ exists d', posts s' !! pid = Some d' /\ slug d' = v_slug v
                /\ oldSlugs d' = oldSlugs d.
Proof.
  intros Hd Hpub Hv Hreq Hne Hold Hother s'. split; [|split].
  - unfold resolvePost.
    assert (getPostBySlug req s = Some (pid, d)) as ->; [|done].
    apply limit1_query_unique; [done| |].
    + rewrite Hreq, String.eqb_refl. by apply Status_eqb_eq.
    + intros id dd Hdd [E1%String.eqb_eq E2%Status_eqb_eq]%andb_true_iff.
      destruct (decide (id = pid)) as [->|Hq]; [done|].
      destruct Hother. exists id, dd. rewrite <- Hreq. auto.
  - subst s'. rewrite (restoreVersion_store _ _ _ _ _ _ d v) by done. simpl.
    unfold resolvePost.
    assert (getPostBySlug req (mkStore (<[pid := restoredFrom v d now]> (posts s))
              (versions (fst (createVersion pid (Some "Before restore")
                                            t nid s)))) = None) as ->.
    { apply limit1_query_None. simpl. intros id dd.
      destruct (decide (id = pid)) as [->|Hq];
        rewrite ?lookup_insert_eq, ?lookup_insert_ne by done.
      - intros [= <-]. simpl. rewrite Hreq.
        by apply String.eqb_neq in Hne as ->.
      - intros Hdd.
        destruct (String.eqb (slug dd) _) eqn:E1; [|done].
        destruct (Status_eqb (status dd) published) eqn:E2; [|done].
        apply String.eqb_eq in E1. apply Status_eqb_eq in E2.
        destruct Hother. exists id, dd. rewrite <- Hreq. auto. }
    assert (getPostByOldSlug req (mkStore (<[pid := restoredFrom v d now]> (posts s))
              (versions (fst (createVersion pid (Some "Before restore")
                                            t nid s)))) = None) as ->; [|done].
    apply limit1_query_None. simpl. intros id dd.
    destruct (decide (id = pid)) as [->|Hq];
      rewrite ?lookup_insert_eq, ?lookup_insert_ne by done.
    + intros [= <-]. simpl. rewrite Hreq.
      by rewrite bool_decide_eq_false_2.
    + intros Hdd.
      destruct (bool_decide _) eqn:E1; [|done].
      destruct (Status_eqb (status dd) published) eqn:E2; [|done].
      apply bool_decide_eq_true_1 in E1. apply Status_eqb_eq in E2.
      destruct Hother. exists id, dd. rewrite <- Hreq. auto.
  - subst s'. rewrite (restoreVersion_store _ _ _ _ _ _ d v) by done. simpl.
    rewrite lookup_insert_eq. by eexists.
Qed.

(** X11.  A save that sends the post's own slug - in any spelling with
    the same normal form - or a slug whose normal form is empty is never
    refused as a conflict and leaves the live slug and the retired slugs
    as they are. *)
Theorem updatePost_own_slug id data now s d sl :
  posts s !! id = Some d -> p_slug data = Some sl ->
  normalizeSlug sl = slug d \/ normalizeSlug sl = "" ->
  exists d',
    updatePost id data now s
    = (mkStore (<[id := d']> (posts s)) (versions s), Success tt)
    /\ slug d' = slug d /\ oldSlugs d' = oldSlugs d.
Proof.
  intros Hd Hsl Hn. unfold updatePost. rewrite Hd, Hsl.
  destruct (JS.truthy sl); simpl.
  - destruct Hn as [->| ->]; simpl; rewrite ?String.eqb_refl, ?andb_false_r;
      simpl; by eexists.
  - by eexists.
Qed.

(** X12.  An update that asks for a new slug whose normal form is the
    live slug of a post is refused with [A post with this slug already
    exists], and nothing is written - none of the other fields of the
    patch either. *)
Theorem updatePost_conflict id data now s d sl j dj :
  posts s !! id = Some d -> p_slug data = Some sl ->
  normalizeSlug sl <> "" -> normalizeSlug sl <> slug d ->
  posts s !! j = Some dj -> slug dj = normalizeSlug sl ->
  updatePost id data now s
  = (s, Failure "A post with this slug already exists").
Proof.
  intros Hd Hsl Hne Hdiff Hdj Hj. unfold updatePost. rewrite Hd, Hsl.
  assert (JS.truthy sl = true) as ->.
  { apply truthy_true. intros ->. by rewrite normalizeSlug_empty in Hne. }
  apply truthy_true in Hne as ->.
  apply String.eqb_neq in Hdiff as Hneq. rewrite Hneq. simpl.
  destruct (isSlugAvailable _ (Some id) s) eqn:Hav; simpl; [|done].
  exfalso.
  eapply (isSlugAvailable_excluding (normalizeSlug sl) id s d);
    [done| |done|exact Hdj|].
  - rewrite normalizeSlug_idempotent. congruence.
  - by rewrite normalizeSlug_idempotent.
Qed.

(** X13.  After [deletePost] the post is gone from every reader - by id,
    by slug, by retired slug, by preview token - while its version log
    stays in the database and is still listed; deleting again, or
    deleting a post that never existed, succeeds and changes nothing. *)
Theorem deletePost_effects id s :
  let s' := fst (deletePost id s) in
  snd (deletePost id s) = Success tt
  /\ getPostById id s' = None
  /\ (forall req p, post (resolvePost req s') = Some p ->
        fst p <> id /\ posts s !! fst p = Some (snd p))
  /\ (forall tok p, getPostByPreviewToken tok s' = Some p ->
        fst p <> id /\ posts s !! fst p = Some (snd p))
  /\ getVersions id s' = getVersions id s
  /\ fst (deletePost id s') = s'
  /\ (posts s !! id = None -> s' = mkStore (posts s) (versions s)).
Proof.
  simpl. split; [done|]. split; [apply lookup_delete_eq|].
  assert (forall f p,
    limit1 (queryPosts f (setPosts (delete id (posts s)) s)) = Some p ->
    fst p <> id /\ posts s !! fst p = Some (snd p)) as Hq.
  { intros f [i di] [Hi _]%limit1_query_sound. simpl in *.
    apply lookup_delete_Some in Hi as [Hne Hi]. by split; [intros ->|]. }
  split; [|split; [|split; [|split]]].
  - intros req p. unfold resolvePost, getPostBySlug, getPostByOldSlug.
    repeat case_match; simpl; intros [= <-]; eauto.
  - intros tok p. apply Hq.
  - done.
  - unfold setPosts. simpl. by rewrite delete_delete_eq.
  - intros Hd. unfold setPosts. by rewrite delete_id.
Qed.

End StoreOps.

(** ** Versions and restores *)

Section VersionLog.
Import Admin AdminMore Api Notions PostPage.

Lemma StronglySorted_weaken {A} (R R' : relation A) l :
  (forall a b, R a b -> R' a b) -> StronglySorted R l -> StronglySorted R' l.
Proof.
  intros HR. induction 1 as [|a l Hl IH Ha]; constructor; [done|].
  eapply Forall_impl; [exact Ha|]. intros b. apply HR.
Qed.

(** X14.  [getVersions] lists each version of the log exactly once, with
    its stored content, newest first; the log of a post without versions
    is the empty list. *)
Theorem getVersions_listing postId s :
  (forall k v, (k, v) ∈ getVersions postId s
               <-> versionsOf postId s !! k = Some v)
  /\ length (getVersions postId s) = size (versionsOf postId s)
  /\ NoDup (fst <$> getVersions postId s)
  /\ StronglySorted
       (fun a b => v_createdAt (snd b) <= v_createdAt (snd a))
       (getVersions postId s)
  /\ (versions s !! postId = None -> getVersions postId s = []).
Proof.
  unfold getVersions. split; [intros k v; apply orderBy_elem|].
  split; [apply orderBy_length|]. split; [|split].
  - rewrite (orderBy_perm (versionsOf postId s)).
    apply NoDup_fst_map_to_list.
  - eapply StronglySorted_weaken; [|apply orderBy_sorted].
    apply newerFirst_createdAt.
  - intros Hnone. apply length_zero_iff_nil.
    rewrite orderBy_length. unfold versionsOf. rewrite Hnone. simpl.
    apply map_size_empty.
Qed.

(** X15.  A restore can be undone: restoring the snapshot that
    [restoreVersion] took ("Before restore") brings back the title, slug,
    excerpt, content and status the post had, with every other field but
    [updatedAt] as it was.  (The log must have room for the snapshot.) *)
Theorem restoreVersion_undo pid vid t1 id1 n1 t2 id2 n2 s d v :
  posts s !! pid = Some d ->
  versionsOf pid s !! vid = Some v ->
  versionsOf pid s !! id1 = None ->
  (size (versionsOf pid s) < MAX_VERSIONS)%nat ->
  let s1 := fst (restoreVersion pid vid t1 id1 n1 s) in
  let r2 := restoreVersion pid id1 t2 id2 n2 s1 in
  posts s1 !! pid = Some (restoredFrom v d n1)
  /\ snd r2 = Success tt
  /\ posts (fst r2) !! pid
     = Some (mkPost (title d) (slug d) (oldSlugs d) (excerpt d) (content d)
                    (status d) (publishedAt d) (createdAt d) n2 (preview d)).
Proof.
  intros Hd Hv Hnew Hsize s1 r2.
  assert (posts s1 !! pid = Some (restoredFrom v d n1)) as H1.
  { subst s1. rewrite (restoreVersion_store _ _ _ _ _ _ d v) by done.
    simpl. apply lookup_insert_eq. }
  assert (versionsOf pid s1 !! id1
          = Some (snapshotOf d (Some "Before restore") t1)) as H2.
  { subst s1. rewrite (restoreVersion_store _ _ _ _ _ _ d v) by done.
    destruct (createVersion_succeeds pid (Some "Before restore") t1 id1 s d
                Hd Hnew) as (s' & E).
    rewrite E. simpl.
    apply createVersion_Success in E as (d0 & Hd0 & _ & _ & _ & E).
    assert (d0 = d) as -> by congruence.
    unfold versionsOf in E at 1. unfold versionsOf at 1. simpl.
    rewrite E, evict_small.
    - apply lookup_insert_eq.
    - rewrite map_size_insert_None by done. unfold MAX_VERSIONS in *. lia. }
  split; [done|]. subst r2.
  rewrite (restoreVersion_store _ _ _ _ _ _ _ _ H1 H2). simpl.
  split; [done|]. by rewrite lookup_insert_eq.
Qed.

End VersionLog.

(** ** Readers *)

Section Readers.
Import Admin AdminMore Api Notions PostPage PostPageView.

(** X16.  A preview link opens the post it was made for, whatever the
    status of the post, and making a new link for the post closes the
    old one: the former token finds nothing.  (No other post holds the
    tokens.) *)
Theorem generatePreviewToken_round_trip pid tok now tok2 now2 s d :
  posts s !! pid = Some d ->
  (forall q dq, q <> pid -> posts s !! q = Some dq ->
                previewMatches tok dq = false) ->
  tok2 <> tok ->
  let r := generatePreviewToken pid tok now s in
  let r2 := generatePreviewToken pid tok2 now2 (fst r) in
  snd r = Success tok
  /\ getPostByPreviewToken tok (fst r)
     = Some (pid, withPreview (mkPreview (Some tok) true now) d)
  /\ getPostByPreviewToken tok (fst r2) = None.
Proof.
  intros Hd Hother Hne. unfold generatePreviewToken. rewrite Hd. simpl.
  rewrite lookup_insert_eq. simpl. split; [done|]. split.
  - apply limit1_query_unique; simpl.
    + apply lookup_insert_eq.
    + unfold previewMatches. simpl. by rewrite String.eqb_refl.
    + intros q dq. destruct (decide (q = pid)) as [->|Hq]; [done|].
      rewrite lookup_insert_ne by done. intros Hdq E.
      by rewrite (Hother _ _ Hq Hdq) in E.
  - apply limit1_query_None. simpl. intros q dq.
    destruct (decide (q = pid)) as [->|Hq].
    + rewrite lookup_insert_eq. intros [= <-]. unfold previewMatches. simpl.
      by apply String.eqb_neq in Hne as ->.
    + rewrite !lookup_insert_ne by done. by apply Hother.
Qed.

(** X17.  The preview status shown to the administrator and the
    resolution of preview links agree: when [getPostPreview] reports an
    enabled token for a post, that token opens a post; when it reports
    the preview as disabled, no token opens this post. *)
Theorem getPostPreview_agrees_with_resolution pid s info :
  getPostPreview pid s = Some info ->
  (forall tok, i_enabled info = true -> i_token info = Some tok ->
     exists p, getPostByPreviewToken tok s = Some p)
  /\ (i_enabled info = false ->
      forall tok p, getPostByPreviewToken tok s = Some p -> fst p <> pid).
Proof.
  unfold getPostPreview, getPostByPreviewToken.
  destruct (posts s !! pid) as [d|] eqn:Hd; [|done].
  destruct (preview d) as [pv|] eqn:Hpv; intros [= <-]; simpl.
  - split.
    + intros tok Hen Htok.
      destruct (limit1 (queryPosts _ s)) as [p|] eqn:E; [eauto|].
      rewrite limit1_query_None in E. specialize (E pid d Hd).
      unfold previewMatches in E. rewrite Hpv, Hen in E.
      destruct (token pv) as [t|]; [|done].
      destruct (JS.truthy t); [|done]. injection Htok as ->.
      by rewrite String.eqb_refl in E.
    + intros Hen tok [q dq] [Hdq Hm]%limit1_query_sound. simpl. intros ->.
      assert (dq = d) as -> by congruence.
      unfold previewMatches in Hm. rewrite Hpv, Hen in Hm.
      by rewrite andb_false_r in Hm.
  - split; [done|]. intros _ tok [q dq] [Hdq Hm]%limit1_query_sound. simpl.
    intros ->. assert (dq = d) as -> by congruence.
    unfold previewMatches in Hm. by rewrite Hpv in Hm.
Qed.

(** X18.  What the public site shows is stored and published: a post
    returned by [getPostBySlug], [getPostByOldSlug] or [resolvePost], or
    rendered by the post page, is a document of the store with status
    [published] that has the normalized request as its live slug or among
    its retired slugs.  A draft is never returned, not even under its own
    slug. *)
Theorem public_readers_return_published req s p :
  (getPostBySlug req s = Some p ->
     posts s !! fst p = Some (snd p) /\ status (snd p) = published
     /\ slug (snd p) = normalizeSlug req)
  /\ (getPostByOldSlug req s = Some p ->
        posts s !! fst p = Some (snd p) /\ status (snd p) = published
        /\ normalizeSlug req ∈ oldSlugs (snd p))
  /\ (post (resolvePost req s) = Some p \/ PostPage req s = Render p ->
        posts s !! fst p = Some (snd p) /\ status (snd p) = published
        /\ (slug (snd p) = normalizeSlug req
            \/ normalizeSlug req ∈ oldSlugs (snd p))).
Proof.
  assert (getPostBySlug req s = Some p ->
     posts s !! fst p = Some (snd p) /\ status (snd p) = published
     /\ slug (snd p) = normalizeSlug req) as H1.
  { destruct p as [i di]. unfold getPostBySlug.
    intros [Hd [E1%String.eqb_eq E2%Status_eqb_eq]%andb_true_iff]%limit1_query_sound.
    done. }
  assert (getPostByOldSlug req s = Some p ->
     posts s !! fst p = Some (snd p) /\ status (snd p) = published
     /\ normalizeSlug req ∈ oldSlugs (snd p)) as H2.
  { destruct p as [i di]. unfold getPostByOldSlug.
    intros [Hd [E1%bool_decide_eq_true_1 E2%Status_eqb_eq]%andb_true_iff]%limit1_query_sound.
    done. }
  split; [done|]. split; [done|].
  assert (post (resolvePost req s) = Some p ->
     posts s !! fst p = Some (snd p) /\ status (snd p) = published
     /\ (slug (snd p) = normalizeSlug req
         \/ normalizeSlug req ∈ oldSlugs (snd p))) as H3.
  { unfold resolvePost.
    destruct (getPostBySlug req s) as [p1|] eqn:E1; simpl.
    - intros [= ->]. destruct (H1 eq_refl) as (? & ? & ?). auto.
    - destruct (getPostByOldSlug req s) as [p2|] eqn:E2; simpl; [|done].
      intros [= ->]. destruct (H2 eq_refl) as (? & ? & ?). auto. }
  intros [H|H]; [by apply H3|]. apply H3. unfold PostPage in H.
  destruct (_ && _); [done|]. by destruct (post (resolvePost req s)) as [p'|];
    [injection H as ->|].
Qed.

Lemma filter_split_length {A} (f : A -> bool) (l : list A) :
  (length (List.filter f l) + length (List.filter (fun x => negb (f x)) l)
   = length l)%nat.
Proof.
  induction l as [|a l IH]; [done|]. simpl.
  destruct (f a); simpl; lia.
Qed.

(** X19.  The two listings are complete and exact.  [getPublishedPosts]
    returns each published post once and nothing else;
    [getAllPostsAdmin] returns each post once when no filter is given
    and, with a filter, the posts of that status, so that the drafts and
    the published posts together are all the posts. *)
Theorem listings_are_exact s :
  (forall id d, (id, d) ∈ getPublishedPosts s
                <-> posts s !! id = Some d /\ status d = published)
  /\ NoDup (fst <$> getPublishedPosts s)
  /\ (forall id d, (id, d) ∈ getAllPostsAdmin None s
                   <-> posts s !! id = Some d)
  /\ (forall st id d, (id, d) ∈ getAllPostsAdmin (Some st) s
                      <-> posts s !! id = Some d /\ status d = st)
  /\ (forall o, NoDup (fst <$> getAllPostsAdmin o s))
  /\ (length (getAllPostsAdmin (Some draft) s)
      + length (getAllPostsAdmin (Some published) s)
      = size (posts s))%nat.
Proof.
  assert (forall f, NoDup (fst <$> queryPosts f s)) as Hnd.
  { intros f. apply (NoDup_fmap_2_strong fst).
    - intros [i di] [j dj] [Hi _]%queryPosts_elem [Hj _]%queryPosts_elem E.
      simpl in E. subst j. congruence.
    - unfold queryPosts.
      apply NoDup_ListNoDup, List.NoDup_filter, NoDup_ListNoDup,
        NoDup_map_to_list. }
  unfold getPublishedPosts, getAllPostsAdmin.
  split; [|split; [|split; [|split; [|split]]]].
  - intros id d. rewrite merge_sort_Permutation, queryPosts_elem.
    by rewrite Status_eqb_eq.
  - rewrite merge_sort_Permutation. apply Hnd.
  - intros id d. rewrite merge_sort_Permutation, queryPosts_elem. tauto.
  - intros st id d. rewrite merge_sort_Permutation, queryPosts_elem.
    by rewrite Status_eqb_eq.
  - intros o. rewrite merge_sort_Permutation. apply Hnd.
  - rewrite !merge_sort_Permutation. unfold queryPosts.
    rewrite <- (length_map_to_list (posts s)).
    rewrite <- (filter_split_length
                  (fun kv => Status_eqb (status (snd kv)) draft)
                  (map_to_list (posts s))).
    f_equal. f_equal. apply filter_ext. intros [i di]. simpl.
    by destruct (status di).
Qed.

(** X20.  A redirect of the post page arrives: on a store whose slugs
    are in normal form - every store built by the functions of the
    library - the address to which an old slug is redirected renders a
    published post with that slug, and is neither redirected again nor
    answered with not-found. *)
Theorem redirect_leads_to_article req sl s :
  slugsNormalized s ->
  PostPage req s = Redirect sl ->
  exists p, PostPage sl s = Render p
            /\ slug (snd p) = sl /\ status (snd p) = published.
Proof.
  intros [Hn _]. unfold PostPage at 1, resolvePost.
  destruct (getPostBySlug req s) as [p0|] eqn:E0; simpl; [by destruct p0|].
  destruct (getPostByOldSlug req s) as [[i di]|] eqn:E1; simpl; [|done].
  destruct (JS.truthy (slug di)) eqn:Ht; [|done]. intros [= <-].
  unfold getPostByOldSlug in E1.
  apply limit1_query_sound in E1 as [Hdi [_ Hpub]%andb_true_iff].
  destruct (Hn i di Hdi) as [Hnorm _].
  destruct (getPostBySlug (slug di) s) as [p|] eqn:E2.
  - exists p. unfold PostPage, resolvePost. rewrite E2. simpl.
    destruct p as [j dj]. unfold getPostBySlug in E2.
    apply limit1_query_sound in E2
      as [_ [E3%String.eqb_eq E4%Status_eqb_eq]%andb_true_iff].
    simpl. split; [done|]. split; [congruence|done].
  - unfold getPostBySlug in E2. rewrite limit1_query_None in E2. specialize (E2 i di Hdi). simpl in E2.
    by rewrite Hnorm, String.eqb_refl, Hpub in E2.
Qed.

End Readers.

(** ** The admin routes *)

Section RouteProperties.
Import Admin AdminMore Api Notions Http.

Lemma substring_all h : String.substring 0 (String.length h) h = h.
Proof. induction h as [|c h IH]; simpl; [done|]. by rewrite IH. Qed.

Lemma prefix_split p h :
  String.prefix p h = true ->
  h = p ++ String.substring (String.length p)
             (String.length h - String.length p) h.
Proof.
  revert h. induction p as [|a p IH]; intros h.
  - intros _. cbn. by rewrite Nat.sub_0_r, substring_all.
  - destruct h as [|b h]; [done|]. cbn [String.prefix].
    destruct (ascii_dec a b) as [->|]; [|done].
    intros Hp. cbn [String.length Nat.sub substring].
    etransitivity; [apply (f_equal (String b)), IH, Hp|reflexivity].
Qed.

Lemma prefix_app p t : String.prefix p (p ++ t) = true.
Proof.
  induction p as [|a p IH]; [by destruct t|].
  change (String a p ++ t) with (String a (p ++ t)). cbn [String.prefix].
  by destruct (ascii_dec a a).
Qed.

Lemma substring_app p t :
  String.substring (String.length p)
    (String.length (p ++ t) - String.length p) (p ++ t) = t.
Proof.
  induction p as [|a p IH].
  - change ("" ++ t) with t. cbn [String.length].
    by rewrite Nat.sub_0_r, substring_all.
  - change (String a p ++ t) with (String a (p ++ t)). exact IH.
Qed.

Lemma verifyAuth_Success verify h :
  verifyAuth verify h = Success tt
  <-> exists tok, h = Some ("Bearer " ++ tok) /\ verify tok = true.
Proof.
  unfold verifyAuth. split.
  - destruct h as [h|]; [|done].
    destruct (JS.truthy h); simpl; [|done].
    destruct (String.prefix "Bearer " h) eqn:Hp; simpl; [|done].
    destruct (verify _) eqn:Hv; simpl; [|done]. intros _.
    eexists. split; [|exact Hv]. f_equal. by apply (prefix_split "Bearer ").
  - intros (tok & -> & Hv).
    pose proof (substring_app "Bearer " tok) as E.
    change (String.length "Bearer ") with 7%nat in E.
    assert (JS.truthy ("Bearer " ++ tok) = true) as -> by reflexivity.
    by rewrite prefix_app, E, Hv.
Qed.

Lemma verifyAuth_cases verify h :
  verifyAuth verify h = Success tt \/ exists e, verifyAuth verify h = Failure e.
Proof. destruct (verifyAuth verify h) as [[]|e]; eauto. Qed.

(** X21.  The four handlers that change posts act only for a request
    whose [Authorization] header is [Bearer ] followed by a token that
    [verifyAdminToken] accepts; every other request - no header, another
    scheme, a refused token - is answered with status 401 and leaves the
    database as it is. *)
Theorem unauthorized_requests_change_nothing verify h :
  (verifyAuth verify h = Success tt
   <-> exists tok, h = Some ("Bearer " ++ tok) /\ verify tok = true)
  /\ (verifyAuth verify h <> Success tt ->
      forall s,
        (forall id body snapTime newId now,
            fst (PostRoute.PATCH verify h id body snapTime newId now s) = s
            /\ http_status
                 (snd (PostRoute.PATCH verify h id body snapTime newId now s))
               = 401)
        /\ (forall id,
               fst (PostRoute.DELETE verify h id s) = s
               /\ http_status (snd (PostRoute.DELETE verify h id s)) = 401)
        /\ (forall id action snapTime newId now,
               fst (PostRoute.POST verify h id action snapTime newId now s) = s
               /\ http_status
                    (snd (PostRoute.POST verify h id action snapTime newId
                            now s))
                  = 401)
        /\ (forall body now newId,
               fst (PostsRoute.POST verify h body now newId s) = s
               /\ http_status (snd (PostsRoute.POST verify h body now newId s))
                  = 401)).
Proof.
  split; [apply verifyAuth_Success|]. intros Hno s.
  unfold PostRoute.PATCH, PostRoute.DELETE, PostRoute.POST, PostsRoute.POST.
  destruct (verifyAuth verify h) as [[]|e]; [done|]. by repeat split.
Qed.

Lemma updatePost_versions id data now s :
  versions (fst (updatePost id data now s)) = versions s.
Proof. unfold updatePost. by repeat case_match. Qed.

Lemma updatePost_failure id data now s e :
  snd (updatePost id data now s) = Failure e ->
  fst (updatePost id data now s) = s.
Proof. unfold updatePost. by repeat case_match. Qed.

Lemma createVersion_below_cap pid note now nid s d :
  posts s !! pid = Some d -> versionsOf pid s !! nid = None ->
  (size (versionsOf pid s) < MAX_VERSIONS)%nat ->
  posts (fst (createVersion pid note now nid s)) = posts s
  /\ versionsOf pid (fst (createVersion pid note now nid s))
     = <[nid := snapshotOf d note now]> (versionsOf pid s).
Proof.
  intros Hd Hnew Hsize. split; [apply createVersion_posts|].
  destruct (createVersion_succeeds pid note now nid s d Hd Hnew) as (s' & E).
  rewrite E. simpl.
  apply createVersion_Success in E as (d0 & Hd0 & _ & _ & _ & ->).
  assert (d0 = d) as -> by congruence.
  apply evict_small. rewrite map_size_insert_None by done.
  unfold MAX_VERSIONS in *. lia.
Qed.

(** X22.  A manual save snapshots the post before it updates it, and the
    snapshot stays when the update is then refused: after an authorized
    [PATCH] with [createVersion] the log holds the content of the post as
    it was before the request, labelled "Manual save", whether the answer
    is 200 or 400 - and with 400 the post itself is unchanged. *)
Theorem PATCH_snapshot_precedes_update
    verify h id body snapTime newId now s d :
  verifyAuth verify h = Success tt ->
  PostRoute.pb_createVersion body = true ->
  (forall st, truthyField (PostRoute.pb_status body) = Some st ->
              parseStatus st <> None) ->
  posts s !! id = Some d ->
  versionsOf id s !! newId = None ->
  (size (versionsOf id s) < MAX_VERSIONS)%nat ->
  let r := PostRoute.PATCH verify h id body snapTime newId now s in
  versionsOf id (fst r)
  = <[newId := snapshotOf d (Some "Manual save") snapTime]> (versionsOf id s)
  /\ (snd r = success200
      \/ (http_status (snd r) = 400 /\ posts (fst r) = posts s)).
Proof.
  intros Hauth Hcv Hst Hd Hnew Hsize.
  destruct (createVersion_below_cap id (Some "Manual save") snapTime newId s d
              Hd Hnew Hsize) as [Hp Hv].
  unfold PostRoute.PATCH. rewrite Hauth, Hcv.
  set (s1 := fst (createVersion id (Some "Manual save") snapTime newId s)) in *.
  assert (forall patch,
    let r := match updatePost id patch now s1 with
             | (s2, Failure e) => (s2, errorReply 400 e)
             | (s2, Success _) => (s2, success200)
             end in
    versionsOf id (fst r)
    = <[newId := snapshotOf d (Some "Manual save") snapTime]> (versionsOf id s)
    /\ (snd r = success200
        \/ (http_status (snd r) = 400 /\ posts (fst r) = posts s))) as Hupd.
  { intros patch.
    pose proof (updatePost_versions id patch now s1) as Hvs.
    pose proof (updatePost_failure id patch now s1) as Hf.
    destruct (updatePost id patch now s1) as [s2 [[]|e]]; simpl in *.
    - split; [|by left]. unfold versionsOf at 1. rewrite Hvs. exact Hv.
    - rewrite (Hf e eq_refl). split; [exact Hv|]. right. by split. }
  destruct (truthyField (PostRoute.pb_status body)) as [st|] eqn:Est;
    [|apply Hupd].
  destruct (parseStatus st) eqn:Eps; [apply Hupd|]. by destruct (Hst st).
Qed.

(** What a successful [updatePost] stores, field by field. *)
Lemma updatePost_Success id patch now s s' d :
  posts s !! id = Some d ->
  updatePost id patch now s = (s', Success tt) ->
  exists d',
    posts s' !! id = Some d'
    /\ title d' = default (title d) (p_title patch)
    /\ excerpt d' = default (excerpt d) (p_excerpt patch)
    /\ content d' = default (content d) (p_content patch)
    /\ status d' = default (status d) (p_status patch)
    /\ (p_status patch = None -> publishedAt d' = publishedAt d)
    /\ (p_slug patch = None -> slug d' = slug d /\ oldSlugs d' = oldSlugs d).
Proof.
  intros Hd. unfold updatePost. rewrite Hd.
  destruct (_ && negb (isSlugAvailable _ _ _)); [done|].
  intros [= <-]. simpl. rewrite lookup_insert_eq. eexists. split; [done|].
  simpl. do 4 (split; [done|]). split; [by intros ->|].
  intros ->. by split.
Qed.

Lemma truthyField_None o : truthyField o = None <-> o = None \/ o = Some "".
Proof.
  destruct o as [[|c x]|]; simpl; split; auto; intros [?|?]; congruence.
Qed.

Lemma truthyField_Some o x : truthyField o = Some x <-> o = Some x /\ x <> "".
Proof.
  destruct o as [[|c y]|]; simpl; split; try done.
  - by intros [? ?]; simplify_eq.
  - by intros [= <-].
  - by intros [[= <-] _].
  - by intros [? _].
Qed.

(** X23.  Through [PATCH] the title, the slug, the content and the
    status of a post cannot be emptied: in every request that succeeds,
    whatever its other fields, an empty string in one of these fields
    leaves the stored value as it is, as an absent field does, while a
    non-empty title or content is written; the excerpt is written as
    sent, the empty string included. *)
Theorem PATCH_ignores_empty_fields verify h id body snapTime newId now s d :
  verifyAuth verify h = Success tt ->
  posts s !! id = Some d ->
  let r := PostRoute.PATCH verify h id body snapTime newId now s in
  snd r = success200 ->
  exists d',
    posts (fst r) !! id = Some d'
    /\ (PostRoute.pb_title body = None \/ PostRoute.pb_title body = Some "" ->
        title d' = title d)
    /\ (forall t, PostRoute.pb_title body = Some t -> t <> "" -> title d' = t)
    /\ (PostRoute.pb_content body = None
        \/ PostRoute.pb_content body = Some "" ->
        content d' = content d)
    /\ (forall c, PostRoute.pb_content body = Some c -> c <> "" ->
                  content d' = c)
    /\ (PostRoute.pb_status body = None \/ PostRoute.pb_status body = Some "" ->
        status d' = status d /\ publishedAt d' = publishedAt d)
    /\ (PostRoute.pb_slug body = None \/ PostRoute.pb_slug body = Some "" ->
        slug d' = slug d /\ oldSlugs d' = oldSlugs d)
    /\ (forall e, PostRoute.pb_excerpt body = Some e -> excerpt d' = e)
    /\ (PostRoute.pb_excerpt body = None -> excerpt d' = excerpt d).
Proof.
  intros Hauth Hd r. subst r. unfold PostRoute.PATCH. rewrite Hauth.
  set (s1 := if PostRoute.pb_createVersion body
             then fst (createVersion id (Some "Manual save") snapTime newId s)
             else s).
  assert (posts s1 !! id = Some d) as Hd1.
  { subst s1. destruct (PostRoute.pb_createVersion body); [|done].
    by rewrite createVersion_posts. }
  assert (forall st,
    (truthyField (PostRoute.pb_status body) = None -> st = None) ->
    let r := match updatePost id
                     (mkPatch (truthyField (PostRoute.pb_title body))
                              (truthyField (PostRoute.pb_slug body))
                              (PostRoute.pb_excerpt body)
                              (truthyField (PostRoute.pb_content body))
                              st) now s1 with
             | (s2, Failure e) => (s2, errorReply 400 e)
             | (s2, Success _) => (s2, success200)
             end in
    snd r = success200 ->
    exists d',
      posts (fst r) !! id = Some d'
      /\ (PostRoute.pb_title body = None \/ PostRoute.pb_title body = Some "" ->
          title d' = title d)
      /\ (forall t, PostRoute.pb_title body = Some t -> t <> "" -> title d' = t)
      /\ (PostRoute.pb_content body = None
          \/ PostRoute.pb_content body = Some "" ->
          content d' = content d)
      /\ (forall c, PostRoute.pb_content body = Some c -> c <> "" ->
                    content d' = c)
      /\ (PostRoute.pb_status body = None
          \/ PostRoute.pb_status body = Some "" ->
          status d' = status d /\ publishedAt d' = publishedAt d)
      /\ (PostRoute.pb_slug body = None \/ PostRoute.pb_slug body = Some "" ->
          slug d' = slug d /\ oldSlugs d' = oldSlugs d)
      /\ (forall e, PostRoute.pb_excerpt body = Some e -> excerpt d' = e)
      /\ (PostRoute.pb_excerpt body = None -> excerpt d' = excerpt d)) as Hupd.
  { intros st Hst.
    destruct (updatePost id _ now s1) as [s2 [[]|e]] eqn:E; simpl; [|done].
    intros _.
    destruct (updatePost_Success _ _ _ _ _ _ Hd1 E)
      as (d' & Hd' & Ht & He & Hc & Hs & Hp & Hsl).
    simpl in *. exists d'. split; [done|].
    split; [intros H%truthyField_None; by rewrite Ht, H|].
    split.
    { intros t H Hne. rewrite Ht.
      by rewrite (proj2 (truthyField_Some _ t) (conj H Hne)). }
    split; [intros H%truthyField_None; by rewrite Hc, H|].
    split.
    { intros c H Hne. rewrite Hc.
      by rewrite (proj2 (truthyField_Some _ c) (conj H Hne)). }
    split.
    { intros H%truthyField_None. rewrite (Hst H) in Hs, Hp. split; [done|].
      by apply Hp. }
    split; [intros H%truthyField_None; by apply Hsl|].
    split; [intros e H; by rewrite He, H|].
    intros H. by rewrite He, H. }
  destruct (truthyField (PostRoute.pb_status body)) as [st|] eqn:Est.
  - destruct (parseStatus st) eqn:Eps; [|done]. by apply Hupd.
  - by apply Hupd.
Qed.


(** X25.  The restore route does not report a failed restore: for a post
    or a version that does not exist it answers [success: true] with
    status 200, and nothing was restored - the database is unchanged. *)
Theorem restore_route_hides_failure id vid snapTime newId now s :
  JS.truthy vid = true ->
  posts s !! id = None \/ versionsOf id s !! vid = None ->
  RestoreRoute.POST id (Some vid) snapTime newId now s = (s, success200).
Proof.
  intros Ht Hmiss. unfold RestoreRoute.POST. simpl. rewrite Ht.
  unfold restoreVersion.
  destruct (posts s !! id) as [d|]; [|done].
  destruct Hmiss as [?| ->]; done.
Qed.

(** X26.  The create route refuses a request in which the title, the
    slug or the content is missing or empty, with status 400 and without
    writing; a request that names no status creates a draft, which has
    no date of first publication, under the normalized slug. *)
Theorem create_route_validates verify h body now newId s :
  verifyAuth verify h = Success tt ->
  (truthyField (PostsRoute.cb_title body) = None
   \/ truthyField (PostsRoute.cb_slug body) = None
   \/ truthyField (PostsRoute.cb_content body) = None ->
   PostsRoute.POST verify h body now newId s
   = (s, errorReply 400 "Missing required fields: title, slug, content"))
  /\ (forall t sl c,
         PostsRoute.cb_title body = Some t -> JS.truthy t = true ->
         PostsRoute.cb_slug body = Some sl -> JS.truthy sl = true ->
         PostsRoute.cb_content body = Some c -> JS.truthy c = true ->
         truthyField (PostsRoute.cb_status body) = None ->
         isSlugAvailable sl None s = true -> posts s !! newId = None ->
         let r := PostsRoute.POST verify h body now newId s in
         snd r = mkReply 201 None (Some newId)
         /\ posts (fst r) !! newId
            = Some (mkPost t (normalizeSlug sl) []
                      (default "" (truthyField (PostsRoute.cb_excerpt body)))
                      c draft None now now None)).
Proof.
  intros Hauth. unfold PostsRoute.POST. rewrite Hauth. split.
  - intros H. repeat case_match; try done; destruct H as [?|[?|?]]; done.
  - intros t sl c -> Ht -> Hsl -> Hc -> Hav Hnew. simpl.
    rewrite Ht, Hsl, Hc. unfold createPost. simpl.
    assert (isSlugAvailable (normalizeSlug sl) None s = true) as ->.
    { apply isSlugAvailable_all. rewrite normalizeSlug_idempotent.
      by apply isSlugAvailable_all. }
    simpl. rewrite Hnew. simpl. by rewrite lookup_insert_eq.
Qed.

End RouteProperties.

(** ** The editor *)

Section EditorProperties.
Import PostEditor EditorMore.

Ltac handlers :=
  unfold step, fieldsEffect, handleChange, handleManualSave,
    handleVersionRestore, debounceExpires, autoSave, followUp, requestSave,
    performSave, debouncedSave, cancelDebouncedSave in *;
  repeat case_match; simpl in *.

Lemma isPostDataEqual_eq a b : isPostDataEqual a b = true <-> a = b.
Proof.
  unfold isPostDataEqual. rewrite !andb_true_iff, !String.eqb_eq, Status_eqb_eq.
  destruct a, b; simpl. split; [intros [[[[-> ->] ->] ->] ->]; done|].
  by intros [= -> -> -> -> ->].
Qed.

(** X27.  [isPostDataEqual] decides equality of the five fields, so the
    draft is dirty exactly when it differs from the last saved content;
    a manual save of a draft that is not dirty only cancels the pending
    autosave: nothing is queued, nothing is sent and no version is
    asked for. *)
Theorem manual_save_needs_changes s :
  (forall a b, isPostDataEqual a b = true <-> a = b)
  /\ (forall cur, isDirty cur s = false <-> cur = lastSavedData s)
  /\ (form s = lastSavedData s ->
      step ManualSave s = cancelDebouncedSave s).
Proof.
  split; [apply isPostDataEqual_eq|]. split.
  - intros cur. unfold isDirty. rewrite negb_false_iff.
    apply isPostDataEqual_eq.
  - intros E. simpl. unfold handleManualSave, requestSave, isDirty.
    simpl. rewrite E. by rewrite (proj2 (isPostDataEqual_eq _ _) eq_refl).
Qed.

(** The events of the user and of the timers leave the requests and
    the sequence counter alone. *)
Lemma quiet_step e s :
  match e with
  | TokenReady _ _ | Completed _ _ _ | ErrorBodyRead _ => False
  | _ => True
  end ->
  inFlight (step e s) = inFlight s
  /\ saveId (step e s) = saveId s
  /\ isSaving (step e s) = isSaving s
  /\ (pendingSave (step e s) = pendingSave s
      \/ (pendingSave (step e s) = true /\ isSaving s = true))
  /\ (saveState (step e s) = saveState s \/ saveState (step e s) = unsaved).
Proof. destruct e; intros He; try done; handlers; auto 10. Qed.

Lemma coherent_quiet s s' :
  coherent s ->
  inFlight s' = inFlight s -> saveId s' = saveId s ->
  isSaving s' = isSaving s ->
  (pendingSave s' = pendingSave s
   \/ (pendingSave s' = true /\ isSaving s = true)) ->
  (saveState s' = saveState s \/ saveState s' = unsaved) ->
  coherent s'.
Proof.
  intros (I1 & I2 & I3 & I4 & I5) E1 E2 E3 E4 E5. unfold coherent.
  rewrite E1, E2, E3. repeat split; try done.
  - apply I1. done.
  - apply I1. done.
  - destruct E4 as [->|[_ ?]]; auto.
  - destruct E5 as [->| ->]; [done|done].
Qed.

Lemma removeRequest_elem i l r :
  r ∈ removeRequest i l <-> r ∈ l /\ r_saveId r <> i.
Proof.
  unfold removeRequest. rewrite !list_elem_of_In, filter_In.
  by rewrite negb_true_iff, Nat.eqb_neq.
Qed.

Lemma removeRequest_NoDup i l :
  NoDup (r_saveId <$> l) -> NoDup (r_saveId <$> removeRequest i l).
Proof.
  induction l as [|a l IH]; simpl; [done|].
  intros [Ha Hl]%NoDup_cons. destruct (negb _); simpl; [|by apply IH].
  apply NoDup_cons. split; [|by apply IH].
  intros (r & E & [Hr _]%removeRequest_elem)%list_elem_of_fmap.
  apply Ha. apply list_elem_of_fmap. eauto.
Qed.

(** What the return of a call changes. *)
Lemma performSave_return_frame request s :
  let s' := performSave_return request s in
  inFlight s' = removeRequest (r_saveId request) (inFlight s)
  /\ saveId s' = saveId s
  /\ isSaving s' = false /\ pendingSave s' = false
  /\ saveState s' = saveState s
  /\ awaitingToken s' = awaitingToken s
  /\ awaitingErrorBody s' = awaitingErrorBody s.
Proof.
  unfold performSave_return, performSave_finally. simpl.
  by destruct (pendingSave s) eqn:E.
Qed.

(** A completion either lets the call return, from a state in which the
    [try] block has left the requests, the counter and the flags alone,
    or suspends the call, which is then the latest, at the body of its
    failed response. *)
Lemma performSave_complete_cases request out clock s :
  (exists s1,
      performSave_complete request out clock s = performSave_return request s1
      /\ inFlight s1 = inFlight s /\ saveId s1 = saveId s
      /\ awaitingToken s1 = awaitingToken s
      /\ (r_saveId request <> saveId s -> saveState s1 = saveState s)
      /\ (r_saveId request = saveId s -> saveState s1 <> saving))
  \/ (exists body,
         performSave_complete request out clock s
         = set_awaitingErrorBody (awaitingErrorBody s ++ [(request, body)]) s
         /\ r_saveId request = saveId s).
Proof.
  destruct (decide (r_saveId request = saveId s)) as [E'|E'].
  - apply Nat.eqb_eq in E' as E.
    unfold performSave_complete, performSave_settle, performSave_catch, stale.
    destruct out as [statusCode body|]; simpl; rewrite ?E; simpl.
    + destruct (r_target request) as [i|]; simpl;
        [destruct (JS.truthy i); simpl|];
        destruct ((statusCode =? 401) || (statusCode =? 403)) eqn:Ea;
        destruct (ok statusCode); try destruct body as [b|]; simpl;
        rewrite ?E, ?Ea; simpl;
        try destruct (b_id b) as [j|]; try destruct (JS.truthy j); simpl;
        first [ by right; eexists
              | left; eexists; split; [reflexivity|]; simpl;
                repeat split; try done; intros; congruence ].
    + left. eexists. split; [reflexivity|]. simpl. repeat split; try done.
  - left.
    destruct (performSave_complete_stale_return request out clock s E')
      as [H|(b & c & _ & _ & H)]; rewrite H;
      eexists; (split; [reflexivity|]); simpl; repeat split; try done.
Qed.

Lemma step_coherent e s : coherent s -> coherent (step e s).
Proof.
  intros Hc. destruct e.
  1-4, 8:
    match goal with
    | |- coherent (step ?e ?s0) =>
        destruct (quiet_step e s0 I) as (? & ? & ? & ? & ?);
        by eapply coherent_quiet
    end.
  - (* a token arrives *)
    simpl. destruct (awaitingToken s !! n) as [call|]; [|done].
    destruct Hc as (I1 & I2 & I3 & I4 & I5).
    destruct tok as [tok|]; simpl.
    + unfold coherent. simpl. repeat split.
      * apply elem_of_app in H as [H| ->%list_elem_of_singleton]; simpl; [|lia].
        apply I1 in H. lia.
      * apply elem_of_app in H as [H| ->%list_elem_of_singleton]; simpl; [|lia].
        apply I1 in H. lia.
      * rewrite fmap_app. apply NoDup_app. split; [done|]. split.
        -- intros i (r & Ei & Hr)%list_elem_of_fmap Hi. simpl in Hi.
           apply list_elem_of_singleton in Hi. apply I1 in Hr. lia.
        -- simpl. apply NoDup_singleton.
      * by destruct (inFlight s).
      * intros _. eexists. split; [apply elem_of_app; right; left|done].
    + unfold coherent. simpl. repeat split; auto.
      * by apply I1.
      * by apply I1.
      * done.
  - (* a request is answered *)
    simpl. destruct (findRequest thisSaveId (inFlight s)) as [request|] eqn:E;
      [|done].
    destruct (readsErrorBody thisSaveId s); [done|].
    destruct Hc as (I1 & I2 & I3 & I4 & I5).
    destruct (performSave_complete_cases request out clock s)
      as [(s1 & -> & F1 & F2 & _ & F5 & F6)|(body & -> & _)];
      [|by unfold coherent].
    destruct (performSave_return_frame request s1)
      as (R1 & R2 & R3 & R4 & R5 & _).
    unfold coherent. rewrite R1, R2, R3, R4, R5, F1, F2.
    split; [|split; [|split; [|split]]]; try done.
    + intros r [Hr _]%removeRequest_elem. by apply I1.
    + by apply removeRequest_NoDup.
    + intros Hs. destruct (decide (r_saveId request = saveId s)) as [Heq|Hne].
      * by destruct (F6 Heq).
      * rewrite (F5 Hne) in Hs. destruct (I5 Hs) as (r & Hr & Er).
        exists r. split; [|done]. apply removeRequest_elem. split; [done|].
        congruence.
  - (* the body of a failed response is read *)
    simpl. destruct (awaitingErrorBody s !! n) as [[request body]|]; [|done].
    destruct Hc as (I1 & I2 & I3 & I4 & I5). unfold performSave_resume.
    destruct (performSave_return_frame request
                (performSave_errorBody body
                   (set_awaitingErrorBody (delete n (awaitingErrorBody s)) s)))
      as (R1 & R2 & R3 & R4 & R5 & _).
    unfold coherent. rewrite R1, R2, R3, R4, R5. simpl.
    split; [|split; [|split; [|split]]]; try done.
    + intros r [Hr _]%removeRequest_elem. by apply I1.
    + by apply removeRequest_NoDup.
Qed.

(** X28.  Whatever the user does and in whatever order tokens and
    responses arrive, the bookkeeping of the editor stays consistent: the
    requests in flight bear pairwise different sequence numbers, none
    above the counter; the flag for a follow-up save is set only while a
    save is marked as running, a save is marked as running only while a
    request is in flight, and the state [saving] is shown only while the
    request sent last is in flight. *)
Theorem editor_bookkeeping_is_coherent postId initialData events :
  coherent (run events (init postId initialData)).
Proof.
  assert (forall s, coherent s -> coherent (run events s)) as H.
  { induction events as [|e events IH]; intros s Hc; [done|].
    simpl. by apply IH, step_coherent. }
  apply H. unfold coherent, init. simpl.
  split; [by intros r ?%elem_of_nil|]. split; [constructor|].
  by repeat split.
Qed.

(** The calls that the events of the user and of the timers queue: none
    but a manual save queues a call that asks for a version. *)
Lemma quiet_step_calls e s :
  match e with
  | TokenReady _ _ | Completed _ _ _ | ErrorBodyRead _ => False
  | _ => True
  end ->
  inFlight (step e s) = inFlight s
  /\ (awaitingToken (step e s) = awaitingToken s
      \/ (e = ManualSave
          /\ awaitingToken (step e s)
             = (awaitingToken s
                ++ [mkCall (form s) (idTruthy (currentPostId s))
                           (Some "Manual save")])%list)
      \/ (e <> ManualSave
          /\ exists cur,
              awaitingToken (step e s)
              = (awaitingToken s ++ [mkCall cur false None])%list)).
Proof.
  destruct e; intros He; try done; handlers;
    (split; [done|]);
    first [ by left
          | right; left; by split
          | right; right; split; [done|]; by eexists ].
Qed.

Lemma performSave_complete_awaiting request out clock s :
  awaitingToken (performSave_complete request out clock s) = awaitingToken s.
Proof.
  destruct (performSave_complete_cases request out clock s)
    as [(s1 & -> & _ & _ & F & _)|(body & -> & _)]; [|done].
  by destruct (performSave_return_frame request s1) as (_ & _ & _ & _ & _ & -> & _).
Qed.

Lemma performSave_complete_inFlight request out clock s r :
  r ∈ inFlight (performSave_complete request out clock s) -> r ∈ inFlight s.
Proof.
  destruct (performSave_complete_cases request out clock s)
    as [(s1 & -> & F & _)|(body & -> & _)]; [|done].
  destruct (performSave_return_frame request s1) as (-> & _).
  rewrite F. by intros [? _]%removeRequest_elem.
Qed.

(** No event but the arrival of a token puts a request in flight, and
    the request then asks for a version only if the call did. *)
Lemma step_inFlight_origin e s r :
  r ∈ inFlight (step e s) ->
  r ∈ inFlight s
  \/ exists n tok call,
      e = TokenReady n (Some tok) /\ awaitingToken s !! n = Some call
      /\ r = mkRequest (S (saveId s)) (c_data call) (currentPostId s)
               (idTruthy (currentPostId s) && c_createVersion call)
               (if idTruthy (currentPostId s) && c_createVersion call
                then c_versionNote call else None).
Proof.
  destruct e.
  1-4, 8:
    match goal with
    | |- _ ∈ inFlight (step ?e ?s0) -> _ =>
        destruct (quiet_step_calls e s0 I) as (-> & _); by left
    end.
  - simpl. destruct (awaitingToken s !! n) as [call|] eqn:E; [|by left].
    destruct tok as [tok|]; simpl; [|by left].
    intros [Hin| ->%list_elem_of_singleton]%elem_of_app; [by left|].
    right. by exists n, tok, call.
  - simpl. destruct (findRequest thisSaveId (inFlight s)) as [request|];
      [|by left].
    destruct (readsErrorBody thisSaveId s); [by left|].
    intros H%performSave_complete_inFlight. by left.
  - simpl. destruct (awaitingErrorBody s !! n) as [[request body]|]; [|by left].
    unfold performSave_resume.
    destruct (performSave_return_frame request
                (performSave_errorBody body
                   (set_awaitingErrorBody (delete n (awaitingErrorBody s)) s)))
      as (-> & _).
    simpl. intros [? _]%removeRequest_elem. by left.
Qed.

(** No event but a manual save queues a call that asks for a version or
    carries a note. *)
Lemma step_awaitingToken_origin e s call :
  call ∈ awaitingToken (step e s) ->
  call ∈ awaitingToken s
  \/ (e = ManualSave
      /\ call = mkCall (form s) (idTruthy (currentPostId s))
                       (Some "Manual save"))
  \/ (e <> ManualSave /\ c_createVersion call = false
      /\ c_versionNote call = None).
Proof.
  destruct e.
  1-4, 8:
    match goal with
    | |- _ ∈ awaitingToken (step ?e ?s0) -> _ =>
        destruct (quiet_step_calls e s0 I)
          as (_ & [-> |[(He & ->)|(He & cur0 & ->)]]);
        [by left
        |intros [Hin| ->%list_elem_of_singleton]%elem_of_app;
           [by left|right; left; done]
        |intros [Hin| ->%list_elem_of_singleton]%elem_of_app;
           [by left|right; right; done]]
    end.
  - simpl. destruct (awaitingToken s !! n) as [c|] eqn:E; [|by left].
    destruct tok as [tok|]; simpl;
      intros Hin%list_elem_of_delete_inv; by left.
  - simpl. destruct (findRequest thisSaveId (inFlight s)) as [request|];
      [|by left].
    destruct (readsErrorBody thisSaveId s); [by left|].
    rewrite performSave_complete_awaiting. by left.
  - simpl. destruct (awaitingErrorBody s !! n) as [[request body]|]; [|by left].
    unfold performSave_resume.
    destruct (performSave_return_frame request
                (performSave_errorBody body
                   (set_awaitingErrorBody (delete n (awaitingErrorBody s)) s)))
      as (_ & _ & _ & _ & _ & -> & _).
    by left.
Qed.

Lemma step_versionsOnlyOnManualSave e s :
  versionsOnlyOnManualSave s -> versionsOnlyOnManualSave (step e s).
Proof.
  intros [Hc Hr]. split.
  - intros call [Hin|[(_ & ->)|(_ & E & _)]]%step_awaitingToken_origin Hv;
      [by apply Hc|done|congruence].
  - intros r [Hin|(n & tok & call & _ & Hn & ->)]%step_inFlight_origin;
      [by apply Hr|].
    apply list_elem_of_lookup_2 in Hn. simpl.
    destruct (idTruthy (currentPostId s)) eqn:Hid; simpl; [|done].
    destruct (c_createVersion call) eqn:Hcv; [|done]. split; [|done].
    by apply Hc.
Qed.

(** In a run without manual save nothing asks for a version. *)
Lemma run_without_manual_save events s :
  ManualSave ∉ events ->
  (forall call, call ∈ awaitingToken s -> c_createVersion call = false) ->
  (forall r, r ∈ inFlight s -> r_createVersion r = false) ->
  (forall call, call ∈ awaitingToken (run events s) ->
                c_createVersion call = false)
  /\ (forall r, r ∈ inFlight (run events s) -> r_createVersion r = false).
Proof.
  revert s. induction events as [|e events IH]; intros s Hno Hc Hr; [done|].
  apply not_elem_of_cons in Hno as [He Hno]. simpl. apply IH; [done|..].
  - intros call [Hin|[(E & _)|(_ & E & _)]]%step_awaitingToken_origin;
      [by apply Hc|congruence|done].
  - intros r [Hin|(n & tok & call & _ & Hn & ->)]%step_inFlight_origin;
      [by apply Hr|].
    apply list_elem_of_lookup_2 in Hn. simpl.
    rewrite (Hc call Hn). apply andb_false_r.
Qed.

Lemma generateSlug_normalizeSlug t : generateSlug t = Admin.normalizeSlug t.
Proof.
  unfold generateSlug, Admin.normalizeSlug, JS.normalizeChars.
  by rewrite strip_collapse_trim.
Qed.

Lemma retitle_keeps_edited_slug titles g :
  slugManuallyEdited g = true -> f_slug (retitle titles g) = f_slug g.
Proof.
  revert g. induction titles as [|t titles IH]; intros g Hg; [done|].
  unfold retitle in *. simpl.
  rewrite IH; unfold handleTitleChange; by rewrite Hg.
Qed.

Lemma retitle_synced titles g :
  slugManuallyEdited g = false ->
  f_slug g = Admin.normalizeSlug (f_title g) ->
  f_slug (retitle titles g) = Admin.normalizeSlug (f_title (retitle titles g)).
Proof.
  revert g. induction titles as [|t titles IH]; intros g Hg Es; [done|].
  unfold retitle in *. simpl.
  apply IH; unfold handleTitleChange; rewrite Hg; simpl; [done|].
  apply generateSlug_normalizeSlug.
Qed.

Lemma last_nonempty {A} (l : list A) a d d' :
  List.last (a :: l) d = List.last (a :: l) d'.
Proof.
  revert a. induction l as [|b l IH]; intros a; [done|].
  change (List.last (b :: l) d = List.last (b :: l) d'). apply IH.
Qed.

Lemma retitle_title titles g :
  f_title (retitle titles g) = List.last titles (f_title g).
Proof.
  revert g. induction titles as [|t titles IH]; intros g; [done|].
  unfold retitle in *. simpl fold_left. rewrite IH.
  assert (f_title (handleTitleChange t g) = t) as ->.
  { unfold handleTitleChange. by destruct (negb _). }
  destruct titles as [|a l]; [done|].
  change (List.last (t :: a :: l) (f_title g))
    with (List.last (a :: l) (f_title g)).
  apply last_nonempty.
Qed.

(** X29.  While the slug field has not been edited by hand, it follows
    the title: after any title changes the slug is the one the server
    would store for the current title, so saving does not alter it.  Once
    the slug has been typed, title changes leave it alone, until
    [handleResetSlug] makes it follow the title again. *)
Theorem slug_follows_title_until_edited titles s0 f :
  (slugManuallyEdited f = false -> titles <> [] ->
   f_slug (retitle titles f)
   = Admin.normalizeSlug (f_title (retitle titles f))
   /\ Admin.normalizeSlug (f_slug (retitle titles f))
      = f_slug (retitle titles f))
  /\ f_slug (retitle titles (handleSlugChange s0 f)) = s0
  /\ f_slug (retitle titles (handleResetSlug f))
     = Admin.normalizeSlug (f_title (retitle titles (handleResetSlug f)))
  /\ f_title (retitle titles f) = List.last titles (f_title f).
Proof.
  split; [|split; [|split]].
  - intros Hf Hne.
    assert (f_slug (retitle titles f)
            = Admin.normalizeSlug (f_title (retitle titles f))) as E.
    { destruct titles as [|t titles]; [done|].
      change (retitle (t :: titles) f)
        with (retitle titles (handleTitleChange t f)).
      apply retitle_synced; unfold handleTitleChange; rewrite Hf; simpl;
        [done|apply generateSlug_normalizeSlug]. }
    split; [done|]. rewrite E. apply normalizeSlug_idempotent.
  - by rewrite retitle_keeps_edited_slug.
  - apply retitle_synced; [done|]. simpl. apply generateSlug_normalizeSlug.
  - apply retitle_title.
Qed.

(** X30.  The editor asks for a version snapshot only through a manual
    save of an existing post.  Of the events, only a manual save queues a
    call that asks for a version - the calls queued by the autosave timer
    and by the follow-up timer ask for none and carry no note - and the
    request sent for a call asks for a version only if the call does and
    the post exists.  So in a run without manual save no request asks
    for a version, and in any run a request in flight that asks for one
    addresses an existing post and carries the note "Manual save". *)
Theorem versions_requested_only_by_manual_save :
  (forall e s call,
      call ∈ awaitingToken (step e s) ->
      call ∈ awaitingToken s
      \/ (e = ManualSave
          /\ call = mkCall (form s) (idTruthy (currentPostId s))
                           (Some "Manual save"))
      \/ (e <> ManualSave /\ c_createVersion call = false
          /\ c_versionNote call = None))
  /\ (forall e s r,
         r ∈ inFlight (step e s) ->
         r ∈ inFlight s
         \/ exists n tok call,
             e = TokenReady n (Some tok) /\ awaitingToken s !! n = Some call
             /\ r_data r = c_data call
             /\ r_createVersion r
                = idTruthy (currentPostId s) && c_createVersion call)
  /\ (forall postId initialData events,
         ManualSave ∉ events ->
         let s := run events (init postId initialData) in
         (forall call, call ∈ awaitingToken s -> c_createVersion call = false)
         /\ (forall r, r ∈ inFlight s -> r_createVersion r = false))
  /\ (forall postId initialData events,
         versionsOnlyOnManualSave (run events (init postId initialData))).
Proof.
  split; [apply step_awaitingToken_origin|]. split; [|split].
  - intros e s r [Hin|(n & tok & call & E & Hn & ->)]%step_inFlight_origin;
      [by left|].
    right. by exists n, tok, call.
  - intros postId initialData events Hno.
    apply run_without_manual_save; [done|..]; simpl;
      by intros ? ?%elem_of_nil.
  - intros postId initialData events.
    assert (forall s, versionsOnlyOnManualSave s ->
                      versionsOnlyOnManualSave (run events s)) as H.
    { induction events as [|e events IH]; intros s Hc; [done|].
      simpl. by apply IH, step_versionsOnlyOnManualSave. }
    apply H. split; simpl; by intros ? ?%elem_of_nil.
Qed.

End EditorProperties.

(** * The further properties on the samples *)

Section MoreInstances.
Import Admin AdminMore Api Notions Samples MoreSamples PostPage PostPageView.
Import Http.

(** A store with the single post [p1] holds no other. *)
Lemma single_post (d : PostDoc) vs q dq :
  posts (mkStore {[ "p1" := d ]} vs) !! q = Some dq -> q = "p1" /\ dq = d.
Proof.
  simpl. intros H. apply lookup_singleton_Some in H as [-> ->]. done.
Defined.

(** The slugs of [store2] are in normal form. *)
Lemma store2_slugsNormalized : slugsNormalized store2.
Proof.
  split.
  - intros id d Hd. apply single_post in Hd as [-> ->]. split.
    + vm_compute. reflexivity.
    + intros sl Hsl. simpl in Hsl. apply list_elem_of_singleton in Hsl as ->.
      vm_compute. reflexivity.
  - intros postId vs vid v Hvs. simpl in Hvs. by rewrite lookup_empty in Hvs.
Defined.

(** The log of [store5] is below the limit. *)
Lemma store5_logsCapped : logsCapped store5.
Proof.
  intros postId vs Hvs. simpl in Hvs.
  apply lookup_singleton_Some in Hvs as [_ <-]. vm_compute. lia.
Defined.

(** X3 on the samples: an update of [p1] leaves [p2] alone. *)
Lemma applyOp_isolation_witness :
  posts (applyOp (UpdatePost "p1" (statusOnly draft) 200) storeAB) !! "p2"
  = posts storeAB !! "p2"
  /\ versions (applyOp (UpdatePost "p1" (statusOnly draft) 200) storeAB) !! "p2"
     = versions storeAB !! "p2".
Proof.
  apply (applyOp_isolation (UpdatePost "p1" (statusOnly draft) 200) storeAB
           "p2").
  simpl. discriminate.
Defined.

(** X4 on the samples: [p1] keeps the date 100 through
    [statusAndContentOps]. *)
Lemma first_publication_date_kept_witness :
  publishedAtOf "p1" (applyOps statusAndContentOps store1) = Some (Some 100).
Proof.
  apply (first_publication_date_kept statusAndContentOps store1 "p1" post1 100).
  - repeat constructor.
  - reflexivity.
  - reflexivity.
Defined.

(** X5 on the samples: the draft of [store3] is toggled at 200 and at
    300. *)
Lemma togglePostStatus_twice_witness :
  exists d',
    posts (applyOps [TogglePostStatus "p1" 200; TogglePostStatus "p1" 300]
             store3) !! "p1" = Some d'
    /\ status d' = draft /\ publishedAt d' = Some 200.
Proof.
  destruct (togglePostStatus_twice "p1" 200 300 store3 post3
              ltac:(reflexivity))
    as (d' & H1 & H2 & _ & _ & _ & _ & _ & _ & _ & _ & H3).
  exists d'. split; [exact H1|]. split; [exact H2|exact H3].
Defined.

(** X7 on the samples: [slugOps] on [store1]. *)
Lemma uniqueLiveSlugs_preserved_witness :
  uniqueLiveSlugs (applyOps slugOps store1).
Proof.
  apply (uniqueLiveSlugs_preserved slugOps store1).
  - repeat constructor.
  - intros i j di dj Hi Hj _.
    apply single_post in Hi as [-> _]. apply single_post in Hj as [-> _].
    reflexivity.
Defined.

(** X10 on the samples: [p1] is served under [hello]; the version
    [v01] of [store7] has the slug [old-title]. *)
Lemma restoreVersion_does_not_retire_slug_witness :
  resolvePost "Hello" store7 = mkResolved (Some ("p1", post1)) false None
  /\ resolvePost "Hello" (fst (restoreVersion "p1" "v01" 200 "v02" 201 store7))
     = mkResolved None false None.
Proof.
  destruct (restoreVersion_does_not_retire_slug "p1" "v01" 200 "v02" 201
              store7 post1 renamedVersion "Hello"
              ltac:(reflexivity) ltac:(reflexivity)
              ltac:(vm_compute; reflexivity) ltac:(vm_compute; reflexivity)
              ltac:(vm_compute; discriminate)
              ltac:(simpl; apply not_elem_of_nil))
    as (H1 & H2 & _).
  - intros (q & dq & Hq & Hdq & _). by apply single_post in Hdq as [-> _].
  - split; [exact H1|exact H2].
Defined.

(** X11 on the samples: [p1] is saved with its own slug, spelled
    differently. *)
Lemma updatePost_own_slug_witness :
  exists d',
    updatePost "p1" (slugOnly "  HELLO ") 200 store1
    = (mkStore (<["p1" := d']> (posts store1)) (versions store1), Success tt)
    /\ slug d' = slug post1 /\ oldSlugs d' = oldSlugs post1.
Proof.
  apply (updatePost_own_slug "p1" (slugOnly "  HELLO ") 200 store1 post1
           "  HELLO ").
  - reflexivity.
  - reflexivity.
  - left. vm_compute. reflexivity.
Defined.

(** X12 on the samples: the draft [p2] asks for the slug of [p1]. *)
Lemma updatePost_conflict_witness :
  updatePost "p2" (slugOnly "Hello") 200 storeAB
  = (storeAB, Failure "A post with this slug already exists").
Proof.
  exact (updatePost_conflict "p2" (slugOnly "Hello") 200 storeAB post3
           "Hello" "p1" post1
           ltac:(vm_compute; reflexivity) ltac:(reflexivity)
           ltac:(vm_compute; discriminate) ltac:(vm_compute; discriminate)
           ltac:(vm_compute; reflexivity) ltac:(vm_compute; reflexivity)).
Defined.

(** X15 on the samples: the version [v01] of [store5] is restored, then
    the snapshot [v03] taken by that restore. *)
Lemma restoreVersion_undo_witness :
  posts (fst (restoreVersion "p1" "v03" 300 "v04" 301
                (fst (restoreVersion "p1" "v01" 200 "v03" 201 store5))))
    !! "p1"
  = Some (mkPost (title post1) (slug post1) (oldSlugs post1) (excerpt post1)
                 (content post1) (status post1) (publishedAt post1)
                 (createdAt post1) 301 (preview post1)).
Proof.
  destruct (restoreVersion_undo "p1" "v01" 200 "v03" 201 300 "v04" 301
              store5 post1 (oldVersion 1)
              ltac:(reflexivity) ltac:(vm_compute; reflexivity)
              ltac:(vm_compute; reflexivity) ltac:(vm_compute; lia))
    as (_ & _ & H).
  exact H.
Defined.

(** X16 on the samples: a link for the draft of [store3], then a second
    one. *)
Lemma generatePreviewToken_round_trip_witness :
  getPostByPreviewToken "one"
    (fst (generatePreviewToken "p1" "one" 100 store3))
  = Some ("p1", withPreview (mkPreview (Some "one") true 100) post3)
  /\ getPostByPreviewToken "one"
       (fst (generatePreviewToken "p1" "two" 110
               (fst (generatePreviewToken "p1" "one" 100 store3))))
     = None.
Proof.
  destruct (generatePreviewToken_round_trip "p1" "one" 100 "two" 110 store3
              post3)
    as (_ & H1 & H2).
  - reflexivity.
  - intros q dq Hq Hdq. by apply single_post in Hdq as [-> _].
  - discriminate.
  - split; [exact H1|exact H2].
Defined.

(** X17 on the samples: the status of the preview of [store6] and its
    token. *)
Lemma getPostPreview_agrees_with_resolution_witness :
  exists p, getPostByPreviewToken "s3cr3t" store6 = Some p.
Proof.
  destruct (getPostPreview_agrees_with_resolution "p1" store6
              (mkPreviewInfo (Some "s3cr3t") true (Some 120))
              ltac:(vm_compute; reflexivity)) as [H _].
  apply H; reflexivity.
Defined.

(** X20 on the samples: the retired slug [a] of [store2] is redirected to
    [b], which renders. *)
Lemma redirect_leads_to_article_witness :
  PostPage "a" store2 = Redirect "b"
  /\ exists p, PostPage "b" store2 = Render p
               /\ slug (snd p) = "b" /\ status (snd p) = published.
Proof.
  assert (PostPage "a" store2 = Redirect "b") as H by (vm_compute; reflexivity).
  split; [exact H|].
  exact (redirect_leads_to_article "a" "b" store2 store2_slugsNormalized H).
Defined.

(** X22 on the samples: a manual save of [p1] in [store5]. *)
Lemma PATCH_snapshot_precedes_update_witness :
  versionsOf "p1"
    (fst (PostRoute.PATCH acceptGood bearerGood "p1"
            (PostRoute.mkPatchBody (Some "New title") None None None None true)
            200 "v03" 201 store5))
  = <["v03" := snapshotOf post1 (Some "Manual save") 200]>
      (versionsOf "p1" store5).
Proof.
  destruct (PATCH_snapshot_precedes_update acceptGood bearerGood "p1"
              (PostRoute.mkPatchBody (Some "New title") None None None None
                                     true)
              200 "v03" 201 store5 post1
              ltac:(vm_compute; reflexivity) ltac:(reflexivity)
              ltac:(intros st Hst; discriminate Hst)
              ltac:(vm_compute; reflexivity) ltac:(vm_compute; reflexivity)
              ltac:(vm_compute; lia)) as [H _].
  exact H.
Defined.

(** X23 on the samples: a request for [p1] with an empty title, a new
    content and an empty excerpt. *)
Lemma PATCH_ignores_empty_fields_witness :
  exists d',
    posts (fst (PostRoute.PATCH acceptGood bearerGood "p1"
                  (PostRoute.mkPatchBody (Some "") None (Some "")
                                         (Some "new text") None false)
                  200 "v01" 201 store1)) !! "p1" = Some d'
    /\ title d' = title post1 /\ content d' = "new text" /\ excerpt d' = "".
Proof.
  destruct (PATCH_ignores_empty_fields acceptGood bearerGood "p1"
              (PostRoute.mkPatchBody (Some "") None (Some "")
                                     (Some "new text") None false)
              200 "v01" 201 store1 post1
              ltac:(vm_compute; reflexivity) ltac:(vm_compute; reflexivity)
              ltac:(vm_compute; reflexivity))
    as (d' & Hd' & Ht & _ & _ & Hc & _ & _ & He & _).
  exists d'. split; [exact Hd'|]. split; [|split].
  - apply Ht. by right.
  - by apply Hc.
  - by apply He.
Defined.


(** X25 on the samples: a version that [store5] does not hold. *)
Lemma restore_route_hides_failure_witness :
  RestoreRoute.POST "p1" (Some "v99") 200 "v03" 201 store5
  = (store5, success200).
Proof.
  apply (restore_route_hides_failure "p1" "v99" 200 "v03" 201 store5).
  - reflexivity.
  - right. vm_compute. reflexivity.
Defined.

(** X26 on the samples: a request without content. *)
Lemma create_route_validates_witness :
  PostsRoute.POST acceptGood bearerGood
    (PostsRoute.mkCreateBody (Some "Title") (Some "title") None (Some "") None)
    200 "p2" store1
  = (store1, errorReply 400 "Missing required fields: title, slug, content").
Proof.
  destruct (create_route_validates acceptGood bearerGood
              (PostsRoute.mkCreateBody (Some "Title") (Some "title") None
                                       (Some "") None)
              200 "p2" store1 ltac:(vm_compute; reflexivity)) as [H _].
  apply H. right. right. reflexivity.
Defined.

(** X6 on the samples: a post that [store1] does not hold, and a version
    that [store5] does not hold. *)
Lemma missing_post_or_version_changes_nothing_witness :
  updatePost "p9" (statusOnly published) 200 store1
  = (store1, Failure "Post not found")
  /\ restoreVersion "p1" "v99" 200 "v03" 201 store5
     = (store5, Failure "Version not found").
Proof.
  split.
  - destruct (missing_post_or_version_changes_nothing "p9" store1)
      as [H _].
    destruct (H ltac:(vm_compute; reflexivity)) as (Hupd & _).
    apply Hupd.
  - destruct (missing_post_or_version_changes_nothing "p1" store5)
      as [_ H].
    apply H; vm_compute; first [reflexivity | discriminate].
Defined.

(** X8 on the samples: [slugOps] on [store2]. *)
Lemma stored_slugs_are_normalized_witness :
  slugsNormalized (applyOps slugOps store2).
Proof.
  destruct (stored_slugs_are_normalized slugOps) as [_ H].
  exact (H store2 store2_slugsNormalized).
Defined.

(** X9 on the samples: [statusAndContentOps] on [store5]. *)
Lemma version_logs_stay_capped_witness :
  logsCapped (applyOps statusAndContentOps store5).
Proof.
  destruct (version_logs_stay_capped statusAndContentOps) as [_ H].
  exact (H store5 store5_logsCapped).
Defined.

(** X13 on the samples: a post that [storeAB] does not hold is
    deleted. *)
Lemma deletePost_effects_witness :
  fst (deletePost "p9" storeAB) = mkStore (posts storeAB) (versions storeAB).
Proof.
  destruct (deletePost_effects "p9" storeAB) as (_ & _ & _ & _ & _ & _ & H).
  apply H. vm_compute. reflexivity.
Defined.

(** X14 on the samples: [store5] has no log for [p2]. *)
Lemma getVersions_listing_witness : getVersions "p2" store5 = [].
Proof.
  destruct (getVersions_listing "p2" store5) as (_ & _ & _ & _ & H).
  apply H. vm_compute. reflexivity.
Defined.

(** X18 on the samples: what [getPostBySlug] finds in [store1]. *)
Lemma public_readers_return_published_witness :
  posts store1 !! "p1" = Some post1 /\ status post1 = published
  /\ slug post1 = normalizeSlug "Hello".
Proof.
  destruct (public_readers_return_published "Hello" store1 ("p1", post1))
    as [H _].
  apply H. vm_compute. reflexivity.
Defined.

(** X21 on the samples: a request without the header, and one with a
    token that is refused. *)
Lemma unauthorized_requests_change_nothing_witness :
  (fst (PostRoute.DELETE acceptGood None "p1" store1) = store1
   /\ http_status (snd (PostRoute.DELETE acceptGood None "p1" store1)) = 401)
  /\ (fst (PostRoute.DELETE acceptGood (Some "Bearer bad") "p1" store1)
      = store1
      /\ http_status
           (snd (PostRoute.DELETE acceptGood (Some "Bearer bad") "p1" store1))
         = 401).
Proof.
  split.
  - destruct (unauthorized_requests_change_nothing acceptGood None) as [_ H].
    destruct (H ltac:(vm_compute; discriminate) store1) as (_ & Hdel & _).
    apply Hdel.
  - destruct (unauthorized_requests_change_nothing acceptGood
                (Some "Bearer bad")) as [_ H].
    destruct (H ltac:(vm_compute; discriminate) store1) as (_ & Hdel & _).
    apply Hdel.
Defined.

End MoreInstances.

Section MoreEditorInstances.
Import PostEditor EditorSamples EditorMore.

(** X27 on the samples: a manual save right after the editor opened. *)
Lemma manual_save_needs_changes_witness :
  step ManualSave editing = cancelDebouncedSave editing.
Proof.
  destruct (manual_save_needs_changes editing) as (_ & _ & H).
  exact (H ltac:(vm_compute; reflexivity)).
Defined.

(** X29 on the samples: a title is typed into an empty form. *)
Lemma slug_follows_title_until_edited_witness :
  f_slug (retitle ["My"; "My First Post!"] (mkSlugField "" "" false))
  = Admin.normalizeSlug
      (f_title (retitle ["My"; "My First Post!"] (mkSlugField "" "" false)))
  /\ f_slug (retitle ["My"; "My First Post!"] (mkSlugField "" "" false))
     = "my-first-post".
Proof.
  destruct (slug_follows_title_until_edited ["My"; "My First Post!"] ""
              (mkSlugField "" "" false)) as [H _].
  destruct (H ltac:(reflexivity) ltac:(discriminate)) as [E _].
  split; [exact E|]. vm_compute. reflexivity.
Defined.

(** X30 on the samples: in the run [restoreThenWait], where the autosave
    timer sends the restored draft, no request asks for a version. *)
Lemma versions_requested_only_by_manual_save_witness :
  Forall (fun r => r_createVersion r = false)
         (inFlight (run restoreThenWait (init (Some "p1") (Some d0)))).
Proof.
  apply Forall_forall.
  destruct versions_requested_only_by_manual_save as (_ & _ & H & _).
  apply (H (Some "p1") (Some d0) restoreThenWait).
  unfold restoreThenWait. rewrite !elem_of_cons.
  intros [E|[E|[E|E]]]; try discriminate E. by apply elem_of_nil in E.
Defined.

End MoreEditorInstances.
